(** * ellipsi: the element factory [tag] and its helpers, over a model of
    the DOM operations they call.

    The library (src/ellipsi.ts) builds one HTML element from a tag name and
    a list of children of mixed run-time type.  It keeps no state of its
    own: everything it does is a sequence of calls on the host document
    ([document.createElement], [appendChild], [setAttribute],
    [attachShadow], ...).  The development therefore has two layers:

    - [Module DOM]: the part of the host document the library touches, as a
      store of nodes addressed by reference, with the exceptions these
      operations raise (DOM, CSSOM and HTML Living Standards);
    - the library itself ([tag], [handleAttributeNode],
      [handleAttributeObject], [attr], [on], [shadow], [shortTag], the
      shortcuts), written against that layer in a state-and-exception
      monad, one definition per source function. *)

From Stdlib Require Import String Ascii NArith List Lia.
From stdpp Require Import base option list strings.

Open Scope string_scope.
Open Scope list_scope.

(** ** Strings as JavaScript uses them *)

(** [Array.prototype.join] on an array of strings. *)
Fixpoint join (sep : string) (l : list string) : string :=
  match l with
  | [] => ""
  | [s] => s
  | s :: rest => s +:+ sep +:+ join sep rest
  end.

(** [String.prototype.split] with a one-character separator: the string is
    cut at every occurrence of the separator, so that [n] separators give
    [n + 1] pieces, empty ones included ([""] for the empty string). *)
Fixpoint split (sep : ascii) (s : string) : list string :=
  match s with
  | EmptyString => [""]
  | String c s' =>
      if Ascii.eqb c sep then "" :: split sep s'
      else match split sep s' with
           | piece :: rest => String c piece :: rest
           | [] => [String c ""]
           end
  end.

(** ASCII lowercase of a name, as an HTML document applies it to element
    and attribute names. *)
Definition ascii_lower (c : ascii) : ascii :=
  let n := N_of_ascii c in
  if ((65 <=? n) && (n <=? 90))%N then ascii_of_N (n + 32) else c.

Fixpoint ascii_lowercase (s : string) : string :=
  match s with
  | EmptyString => EmptyString
  | String c s' => String (ascii_lower c) (ascii_lowercase s')
  end.

Fixpoint string_forallb (p : ascii -> bool) (s : string) : bool :=
  match s with
  | EmptyString => true
  | String c s' => p c && string_forallb p s'
  end.

Definition string_existsb (p : ascii -> bool) (s : string) : bool :=
  negb (string_forallb (fun c => negb (p c)) s).

Definition code_in (l : list N) (c : ascii) : bool :=
  existsb (N.eqb (N_of_ascii c)) l.

Definition ascii_upper_alpha (c : ascii) : bool :=
  let n := N_of_ascii c in ((65 <=? n) && (n <=? 90))%N.
Definition ascii_lower_alpha (c : ascii) : bool :=
  let n := N_of_ascii c in ((97 <=? n) && (n <=? 122))%N.
Definition ascii_alpha (c : ascii) : bool :=
  ascii_upper_alpha c || ascii_lower_alpha c.
Definition ascii_digit (c : ascii) : bool :=
  let n := N_of_ascii c in ((48 <=? n) && (n <=? 57))%N.
Definition non_ascii (c : ascii) : bool := (128 <=? N_of_ascii c)%N.

(** ** The host document

    The document is an HTML document and its elements are HTML elements,
    the ones [document.createElement] makes and [instanceof HTMLElement]
    recognises: the names given to [createElement], [createAttribute],
    [hasAttribute], [getAttribute] and [setAttribute] are put in lower case,
    and a qualified name is a local name (no namespace prefixes).  Each
    operation is modelled with the exceptions it raises on the calls the
    library makes: a name outside the syntax (InvalidCharacterError), an
    attribute in use by another element (InUseAttributeError), a shadow
    root on an element that cannot host one or has one (NotSupportedError),
    a style sheet that was not constructed (NotAllowedError). *)

Module DOM.

(** A reference to a node of the document's store. *)
Abbreviation Ref := nat.

Inductive DOMException :=
| InvalidCharacterError
| NotSupportedError
| NotAllowedError
| InUseAttributeError.

Inductive Exception :=
| DOMError (e : DOMException)
| TypeError.

(** [EventListenerOptions | undefined] of the source: [capture?: boolean]. *)
Record EventListenerOptions := { capture : option bool }.

(** The callback of a listener is a function object; only its identity
    matters to the registration. *)
Definition Callback := nat.

(** An entry of an element's event listener list. *)
Record Listener := {
  listener_type : string;
  listener_callback : Callback;
  listener_capture : bool
}.

(** A [CSSStyleSheet] object.  Only sheets made by [new CSSStyleSheet()]
    carry the constructed flag; the sheet of a style element does not. *)
Record CSSStyleSheet := { sheet_id : nat; constructed : bool }.

Inductive ShadowRootMode := open | closed.

Record Attr := {
  name : string;
  value : string;
  ownerElement : option Ref
}.

Record Element := {
  localName : string;
  attributes : list Ref;
  childNodes : list Ref;
  eventListeners : list Listener;
  shadowRoot : option Ref
}.

Record ShadowRoot := {
  host : Ref;
  mode : ShadowRootMode;
  adoptedStyleSheets : list CSSStyleSheet;
  rootChildNodes : list Ref
}.

Inductive Node :=
| NElement (e : Element)
| NText (data : string)
| NAttr (a : Attr)
| NShadowRoot (s : ShadowRoot).

(** The store: node [r] is the [r]-th entry; a new node gets the next
    index.  The tree is kept as child lists; the parent of a node is the
    node whose child list holds it. *)
Abbreviation Heap := (list Node).

Global Instance Listener_eq_dec : EqDecision Listener.
Proof. solve_decision. Defined.

(** *** Computations on the store that may raise *)

Inductive Completion (A : Type) :=
| Normal (a : A)
| Throw (e : Exception).
Arguments Normal {A} a.
Arguments Throw {A} e.

Definition M (A : Type) := Heap -> Completion A * Heap.

Definition ret {A} (a : A) : M A := fun σ => (Normal a, σ).
Definition throw {A} (e : Exception) : M A := fun σ => (Throw e, σ).
Definition bind {A B} (m : M A) (f : A -> M B) : M B :=
  fun σ => match m σ with
           | (Normal a, σ') => f a σ'
           | (Throw e, σ') => (Throw e, σ')
           end.
Definition get_heap : M Heap := fun σ => (Normal σ, σ).
Definition modify (f : Heap -> Heap) : M unit := fun σ => (Normal tt, f σ).
Definition alloc (n : Node) : M Ref := fun σ => (Normal (length σ), σ ++ [n]).

Notation "x <- m ;; k" := (bind m (fun x => k))
  (at level 100, m at next level, right associativity).
Notation "m ;;; k" := (bind m (fun _ => k))
  (at level 100, right associativity).

(** A [for (let i = 0; i < xs.length; i++)] loop over an array that the
    body does not change. *)
Definition for_each {A} (body : A -> M unit) : list A -> M unit :=
  fix loop (xs : list A) : M unit :=
    match xs with
    | [] => ret tt
    | x :: rest => body x ;;; loop rest
    end.

(** The same loop around a body that updates local variables [s]. *)
Definition fold_each {A S} (body : A -> S -> M S) : list A -> S -> M S :=
  fix loop (xs : list A) (s : S) : M S :=
    match xs with
    | [] => ret s
    | x :: rest => s' <- body x s ;; loop rest s'
    end.

(** *** Name syntax (DOM and HTML Living Standards)

    Strings are byte strings; a byte from 128 up stands for (a part of) a
    code point outside ASCII. *)

Definition ascii_whitespace (c : ascii) : bool := code_in [9; 10; 12; 13; 32]%N c.

(** A valid attribute local name: not empty, no ASCII whitespace, NUL,
    [/], [=] or [>]. *)
Definition valid_attribute_local_name (s : string) : bool :=
  negb (String.eqb s "")
  && string_forallb (fun c => negb (ascii_whitespace c || code_in [0; 47; 61; 62]%N c)) s.

(** A valid element local name: not empty; after an ASCII letter, anything
    but ASCII whitespace, NUL, [/] and [>]; otherwise a first character
    among [:], [_] and the non-ASCII ones, followed by ASCII letters and
    digits, [-], [.], [:], [_] and non-ASCII characters. *)
Definition valid_element_local_name (s : string) : bool :=
  match s with
  | EmptyString => false
  | String c rest =>
      if ascii_alpha c then
        string_forallb (fun c => negb (ascii_whitespace c || code_in [0; 47; 62]%N c)) rest
      else
        (code_in [58; 95]%N c || non_ascii c)
        && string_forallb
             (fun c => ascii_alpha c || ascii_digit c || code_in [45; 46; 58; 95]%N c
                       || non_ascii c) rest
  end.

Definition reserved_element_names : list string :=
  ["annotation-xml"; "color-profile"; "font-face"; "font-face-src";
   "font-face-uri"; "font-face-format"; "font-face-name"; "missing-glyph"].

(** A valid custom element name: a valid element local name that starts
    with a lower-case ASCII letter, has no upper-case ASCII letter, holds a
    hyphen, and is not one of the reserved names. *)
Definition valid_custom_element_name (s : string) : bool :=
  valid_element_local_name s
  && match s with String c _ => ascii_lower_alpha c | EmptyString => false end
  && string_forallb (fun c => negb (ascii_upper_alpha c)) s
  && string_existsb (fun c => code_in [45]%N c) s
  && negb (bool_decide (s ∈ reserved_element_names)).

(** The elements that may host a shadow root. *)
Definition shadow_host_names : list string :=
  ["article"; "aside"; "blockquote"; "body"; "div"; "footer"; "h1"; "h2";
   "h3"; "h4"; "h5"; "h6"; "header"; "main"; "nav"; "p"; "section"; "span"].

Definition valid_shadow_host_name (s : string) : bool :=
  valid_custom_element_name s || bool_decide (s ∈ shadow_host_names).

(** *** Node creation *)

Definition new_element (nm : string) : Element :=
  {| localName := nm; attributes := []; childNodes := [];
     eventListeners := []; shadowRoot := None |}.

(** [document.createElement(name)] in an HTML document. *)
Definition createElement (nm : string) : M Ref :=
  if valid_element_local_name nm
  then alloc (NElement (new_element (ascii_lowercase nm)))
  else throw (DOMError InvalidCharacterError).

(** [document.createTextNode(data)], the argument already a string. *)
Definition createTextNode (data : string) : M Ref := alloc (NText data).

(** [document.createAttribute(localName)] in an HTML document. *)
Definition createAttribute (nm : string) : M Ref :=
  if valid_attribute_local_name nm
  then alloc (NAttr {| name := ascii_lowercase nm; value := ""; ownerElement := None |})
  else throw (DOMError InvalidCharacterError).

(** *** The tree *)

Definition without (node : Ref) (l : list Ref) : list Ref :=
  filter (λ r, r ≠ node) l.

Definition detach (node : Ref) (n : Node) : Node :=
  match n with
  | NElement e =>
      NElement {| localName := localName e; attributes := attributes e;
                  childNodes := without node (childNodes e);
                  eventListeners := eventListeners e; shadowRoot := shadowRoot e |}
  | NShadowRoot s =>
      NShadowRoot {| host := host s; mode := mode s;
                     adoptedStyleSheets := adoptedStyleSheets s;
                     rootChildNodes := without node (rootChildNodes s) |}
  | NText _ | NAttr _ => n
  end.

Definition push_child (node : Ref) (n : Node) : Node :=
  match n with
  | NElement e =>
      NElement {| localName := localName e; attributes := attributes e;
                  childNodes := childNodes e ++ [node];
                  eventListeners := eventListeners e; shadowRoot := shadowRoot e |}
  | NShadowRoot s =>
      NShadowRoot {| host := host s; mode := mode s;
                     adoptedStyleSheets := adoptedStyleSheets s;
                     rootChildNodes := rootChildNodes s ++ [node] |}
  | NText _ | NAttr _ => n
  end.

(** [parent.appendChild(node)]: the node leaves the child list it is in,
    if any, and becomes the last child of [parent].  An insertion is
    refused when the node is the parent or contains it; the library only
    appends to the element it has just created and to that element's
    shadow root, which no node it is given can be or contain, so the
    refusal is not modelled. *)
Definition appendChild (parent node : Ref) : M Ref :=
  modify (fun σ => alter (push_child node) parent (detach node <$> σ)) ;;;
  ret node.

(** The child list of an element or shadow root. *)
Definition children_of (σ : Heap) (r : Ref) : list Ref :=
  match σ !! r with
  | Some (NElement e) => childNodes e
  | Some (NShadowRoot s) => rootChildNodes s
  | _ => []
  end.

(** *** Attributes *)

Definition attr_named (σ : Heap) (qn : string) (r : Ref) : bool :=
  match σ !! r with
  | Some (NAttr a) => String.eqb (name a) qn
  | _ => false
  end.

(** The first attribute of the element with the given qualified name. *)
Definition find_attribute (σ : Heap) (el : Ref) (qn : string) : option Ref :=
  match σ !! el with
  | Some (NElement e) => List.find (attr_named σ qn) (attributes e)
  | _ => None
  end.

Definition attr_value_at (σ : Heap) (r : Ref) : option string :=
  match σ !! r with
  | Some (NAttr a) => Some (value a)
  | _ => None
  end.

(** [el.getAttribute(qn)] of an HTML element: the value, or [null]. *)
Definition get_attribute (σ : Heap) (el : Ref) (qn : string) : option string :=
  r ← find_attribute σ el (ascii_lowercase qn); attr_value_at σ r.

(** [el.hasAttribute(qn)] of an HTML element. *)
Definition has_attribute (σ : Heap) (el : Ref) (qn : string) : bool :=
  bool_decide (is_Some (find_attribute σ el (ascii_lowercase qn))).

Definition hasAttribute (el : Ref) (qn : string) : M bool :=
  σ <- get_heap ;; ret (has_attribute σ el qn).

Definition getAttribute (el : Ref) (qn : string) : M (option string) :=
  σ <- get_heap ;; ret (get_attribute σ el qn).

Definition set_value (v : string) (n : Node) : Node :=
  match n with
  | NAttr a => NAttr {| name := name a; value := v; ownerElement := ownerElement a |}
  | _ => n
  end.

Definition set_owner (o : option Ref) (n : Node) : Node :=
  match n with
  | NAttr a => NAttr {| name := name a; value := value a; ownerElement := o |}
  | _ => n
  end.

Definition set_attributes (f : list Ref -> list Ref) (n : Node) : Node :=
  match n with
  | NElement e =>
      NElement {| localName := localName e; attributes := f (attributes e);
                  childNodes := childNodes e;
                  eventListeners := eventListeners e; shadowRoot := shadowRoot e |}
  | _ => n
  end.

(** [el.setAttribute(qn, v)] of an HTML element: the name is checked, then
    lowercased; the first attribute of that name gets the new value, and if
    there is none a new attribute is appended. *)
Definition setAttribute (el : Ref) (qn v : string) : M unit :=
  if valid_attribute_local_name qn then
    σ <- get_heap ;;
    match find_attribute σ el (ascii_lowercase qn) with
    | Some r => modify (alter (set_value v) r)
    | None =>
        r <- alloc (NAttr {| name := ascii_lowercase qn; value := v;
                             ownerElement := Some el |}) ;;
        modify (alter (set_attributes (fun l => l ++ [r])) el)
    end
  else throw (DOMError InvalidCharacterError).

(** Reading [attrNode.name] and [attrNode.value].  A reference held as an
    [Attr] refers to an attribute node; the other case is there to make
    the function total. *)
Definition read_attr (r : Ref) : M Attr :=
  σ <- get_heap ;;
  match σ !! r with
  | Some (NAttr a) => ret a
  | _ => throw TypeError
  end.

(** [attrNode.value = v]. *)
Definition write_value (r : Ref) (v : string) : M unit :=
  modify (alter (set_value v) r).

(** [attrNode.cloneNode()]: a copy with the same name and value, owned by
    no element. *)
Definition cloneNode (r : Ref) : M Ref :=
  a <- read_attr r ;;
  alloc (NAttr {| name := name a; value := value a; ownerElement := None |}).

Definition replace_ref (old new : Ref) (l : list Ref) : list Ref :=
  (fun r => if decide (r = old) then new else r) <$> l.

(** [el.setAttributeNode(attr)]: refused when the attribute belongs to
    another element; it replaces the element's attribute of exactly that
    name, or is appended.  Returns the replaced attribute, if any. *)
Definition setAttributeNode (el r : Ref) : M (option Ref) :=
  a <- read_attr r ;;
  if bool_decide (ownerElement a = None ∨ ownerElement a = Some el) then
    σ <- get_heap ;;
    match find_attribute σ el (name a) with
    | Some old =>
        if decide (old = r) then ret (Some r)
        else
          modify (alter (set_owner None) old) ;;;
          modify (alter (set_owner (Some el)) r) ;;;
          modify (alter (set_attributes (replace_ref old r)) el) ;;;
          ret (Some old)
    | None =>
        modify (alter (set_owner (Some el)) r) ;;;
        modify (alter (set_attributes (fun l => l ++ [r])) el) ;;;
        ret None
    end
  else throw (DOMError InUseAttributeError).

(** *** Event listeners *)

Definition flatten_options (o : option EventListenerOptions) : bool :=
  match o with
  | Some {| capture := Some b |} => b
  | _ => false
  end.

Definition add_listener (l : Listener) (n : Node) : Node :=
  match n with
  | NElement e =>
      NElement {| localName := localName e; attributes := attributes e;
                  childNodes := childNodes e;
                  eventListeners :=
                    if decide (l ∈ eventListeners e) then eventListeners e
                    else eventListeners e ++ [l];
                  shadowRoot := shadowRoot e |}
  | _ => n
  end.

(** [el.addEventListener(type, callback, options)]: appended to the
    listener list unless a listener with the same type, callback and
    capture flag is there already. *)
Definition addEventListener (el : Ref) (ty : string) (cb : Callback)
    (o : option EventListenerOptions) : M unit :=
  modify (alter (add_listener {| listener_type := ty; listener_callback := cb;
                                 listener_capture := flatten_options o |}) el).

(** *** Shadow roots *)

Definition set_shadowRoot (r : Ref) (n : Node) : Node :=
  match n with
  | NElement e =>
      NElement {| localName := localName e; attributes := attributes e;
                  childNodes := childNodes e;
                  eventListeners := eventListeners e; shadowRoot := Some r |}
  | _ => n
  end.

(** [el.attachShadow({ mode })]: refused with NotSupportedError when the
    element's name is not a valid shadow host name and when the element
    already hosts a shadow root (one that script attached; the elements
    [createElement] makes have no declarative one).  The last case of the
    match is there to make the function total. *)
Definition attachShadow (el : Ref) (m : ShadowRootMode) : M Ref :=
  σ <- get_heap ;;
  match σ !! el with
  | Some (NElement e) =>
      if valid_shadow_host_name (localName e) then
        match shadowRoot e with
        | Some _ => throw (DOMError NotSupportedError)
        | None =>
            r <- alloc (NShadowRoot {| host := el; mode := m;
                                       adoptedStyleSheets := [];
                                       rootChildNodes := [] |}) ;;
            modify (alter (set_shadowRoot r) el) ;;;
            ret r
        end
      else throw (DOMError NotSupportedError)
  | _ => throw TypeError
  end.

Definition set_sheets (l : list CSSStyleSheet) (n : Node) : Node :=
  match n with
  | NShadowRoot s =>
      NShadowRoot {| host := host s; mode := mode s; adoptedStyleSheets := l;
                     rootChildNodes := rootChildNodes s |}
  | _ => n
  end.

(** The sheets up to the first one without the constructed flag. *)
Fixpoint constructed_prefix (l : list CSSStyleSheet) : list CSSStyleSheet :=
  match l with
  | [] => []
  | s :: rest => if constructed s then s :: constructed_prefix rest else []
  end.

(** [root.adoptedStyleSheets = sheets]: the list is emptied and the sheets
    are adopted one by one; one without the constructed flag is refused
    with NotAllowedError. *)
Definition set_adoptedStyleSheets (root : Ref) (sheets : list CSSStyleSheet) : M unit :=
  modify (alter (set_sheets (constructed_prefix sheets)) root) ;;;
  if forallb constructed sheets then ret tt
  else throw (DOMError NotAllowedError).

End DOM.

Export DOM.

(** ** The library (src/ellipsi.ts) *)

(** *** The values a caller can pass *)

(** [class EventListener]: a type/callback/options triple. *)
Record EventListener := {
  type : string;
  callback : Callback;
  options : option EventListenerOptions
}.

(** [class Shadow]: the parts of a future shadow root. *)
Record Shadow := {
  children : list Ref;
  sheets : list CSSStyleSheet
}.

(** The value of an [AttrObject] entry: [string | Array<string>]. *)
Inductive AttrValue :=
| One (s : string)
| Many (l : list string).

(** [AttrObject]: a plain object, as the list of its own keys in
    [Object.keys] order with their values. *)
Definition AttrObject := list (string * AttrValue).

(** Whether the object has an own property of that name. *)
Definition has_key (key : string) (o : AttrObject) : bool :=
  existsb (String.eqb key) o.*1.

(** A run-time value given as a child.  Besides the members of [TagChild]
    and [ShadowChild] it has the values the code tests for ([null],
    [undefined]) and those it lets fall through to [createTextNode].
    [VOther] stands for any value of another shape (a number, a function,
    an instance of some class, a node that is no HTMLElement, Text or
    Attr), given by what its conversion to a string yields: [Some s], or
    [None] when the conversion raises TypeError, as for an object created
    without a prototype.  An array is given by its elements, a hole
    reading as [undefined]; an array that contains itself has no such
    description and is not among these values. *)
#[warnings="-register-all"]
Inductive Value :=
| VUndefined
| VNull
| VBoolean (b : bool)
| VString (s : string)
| VSymbol
| VElement (r : Ref)
| VText (r : Ref)
| VAttr (r : Ref)
| VEventListener (l : EventListener)
| VShadow (s : Shadow)
| VStyleSheet (c : CSSStyleSheet)
| VArray (items : list Value)
| VObject (o : AttrObject)
| VOther (str : option string).

(** Conversion to a string (ToString), [None] when it raises TypeError.
    Both [tag] and [shadow] handle elements, text nodes and arrays before
    they convert anything, so those three cases are never used; the name
    in the element case is that of the base interface.  A plain object
    prints through [Object.prototype.toString], unless an own property
    named toString (a string or an array, not a function) hides it. *)
Fixpoint ToString (v : Value) : option string :=
  match v with
  | VUndefined => Some "undefined"
  | VNull => Some "null"
  | VBoolean b => Some (if b then "true" else "false")
  | VString s => Some s
  | VSymbol => None
  | VElement _ => Some "[object HTMLElement]"
  | VText _ => Some "[object Text]"
  | VAttr _ => Some "[object Attr]"
  | VEventListener _ | VShadow _ => Some "[object Object]"
  | VStyleSheet _ => Some "[object CSSStyleSheet]"
  | VArray items =>
      join "," <$>
        (fix each (l : list Value) : option (list string) :=
           match l with
           | [] => Some []
           | x :: rest =>
               s ← match x with
                   | VUndefined | VNull => Some ""
                   | _ => ToString x
                   end;
               ss ← each rest; Some (s :: ss)
           end) items
  | VObject o =>
      if has_key "toString" o then None else Some "[object Object]"
  | VOther str => str
  end.

(** [currentValue + ' ' + newValue], where [currentValue] is what
    [getAttribute] returned ([null] prints as "null"). *)
Definition concat_value (currentValue : option string) (newValue : string) : string :=
  default "null" currentValue +:+ " " +:+ newValue.

(** *** handleAttributeNode *)

Definition handleAttributeNode (htmlTag attrNode : Ref) : M unit :=
  a <- read_attr attrNode ;;
  has <- hasAttribute htmlTag (name a) ;;
  if has then
    currentValue <- getAttribute htmlTag (name a) ;;
    setAttribute htmlTag (name a) (concat_value currentValue (value a))
  else
    clone <- cloneNode attrNode ;;
    setAttributeNode htmlTag clone ;;;
    ret tt.

(** *** handleAttributeObject *)

Definition newValue_of (v : AttrValue) : string :=
  match v with
  | Many l => join " " l
  | One s => s
  end.

Definition handleAttributeObject (htmlTag : Ref) (attrObj : AttrObject) : M unit :=
  for_each
    (fun '(key, v) =>
       let newValue := newValue_of v in
       has <- hasAttribute htmlTag key ;;
       if has then
         currentValue <- getAttribute htmlTag key ;;
         setAttribute htmlTag key (concat_value currentValue newValue)
       else
         setAttribute htmlTag key newValue)
    attrObj.

(** *** tag *)

(** [htmlTag.appendChild(document.createTextNode(child))]: the value is
    converted to a string on the way in. *)
Definition appendText (htmlTag : Ref) (child : Value) : M unit :=
  match ToString child with
  | Some data => text <- createTextNode data ;; appendChild htmlTag text ;;; ret tt
  | None => throw TypeError
  end.

(** The body of the loop of [process]: one child.  An element of an array
    that is a hole reads as [undefined].  The test
    [child?.constructor === Object] holds for a plain object unless an own
    property named constructor hides [Object.prototype.constructor]. *)
Fixpoint process_child (htmlTag : Ref) (child : Value) : M unit :=
  match child with
  | VElement r | VText r =>
      appendChild htmlTag r ;;; ret tt
  | VAttr r =>
      handleAttributeNode htmlTag r
  | VEventListener l =>
      addEventListener htmlTag (type l) (callback l) (options l)
  | VShadow s =>
      shadowRoot <- attachShadow htmlTag open ;;
      set_adoptedStyleSheets shadowRoot (sheets s) ;;;
      for_each (fun childChild => appendChild shadowRoot childChild ;;; ret tt)
               (children s)
  | VArray items =>
      for_each (process_child htmlTag) items
  | VObject o =>
      if has_key "constructor" o then appendText htmlTag child
      else handleAttributeObject htmlTag o
  | VUndefined | VNull =>
      ret tt
  | VBoolean _ | VString _ | VSymbol | VStyleSheet _ | VOther _ =>
      appendText htmlTag child
  end.

Definition process (htmlTag : Ref) (unprocessedChildren : list Value) : M unit :=
  for_each (process_child htmlTag) unprocessedChildren.

Definition tag (name : string) (children : list Value) : M Ref :=
  htmlTag <- createElement name ;;
  process htmlTag children ;;;
  ret htmlTag.

(** *** attr *)

Definition attr (key value : string) : M Ref :=
  node <- createAttribute key ;;
  write_value node value ;;;
  ret node.

(** *** on *)

Definition on (types : string) (callback : Callback)
    (options : option EventListenerOptions) : list EventListener :=
  (fun type => {| type := type; callback := callback; options := options |})
    <$> split " " types.

(** *** shadow *)

(** The body of the loop of the [process] of [shadow]; the two local
    arrays [components] and [sheets] are passed along. *)
Fixpoint shadow_process_child (child : Value)
    (acc : list Ref * list CSSStyleSheet) : M (list Ref * list CSSStyleSheet) :=
  let '(components, sheets) := acc in
  match child with
  | VStyleSheet c =>
      ret (components, sheets ++ [c])
  | VElement r | VText r =>
      ret (components ++ [r], sheets)
  | VArray items =>
      fold_each shadow_process_child items acc
  | VUndefined | VNull =>
      ret acc
  | VBoolean _ | VString _ | VSymbol | VAttr _ | VEventListener _ | VShadow _
  | VObject _ | VOther _ =>
      match ToString child with
      | Some data => text <- createTextNode data ;; ret (components ++ [text], sheets)
      | None => throw TypeError
      end
  end.

Definition shadow (children : list Value) : M Shadow :=
  acc <- fold_each shadow_process_child children ([], []) ;;
  ret {| children := acc.1; sheets := acc.2 |}.

(** *** shortTag and the shortcuts *)

Definition shortTag (name : string) (x : list Value) : list Value -> M Ref :=
  fun y => tag name (x ++ y).

Definition h1 := shortTag "h1" [].
Definition h2 := shortTag "h2" [].
Definition h3 := shortTag "h3" [].
Definition h4 := shortTag "h4" [].
Definition h5 := shortTag "h6" [].
Definition h6 := shortTag "h6" [].
Definition a := shortTag "a" [].
Definition b := shortTag "b" [].
Definition br := shortTag "br" [].
Definition button := shortTag "button" [].
Definition code := shortTag "code" [].
Definition dd := shortTag "dd" [].
Definition div := shortTag "div" [].
Definition dl := shortTag "dl" [].
Definition dt := shortTag "dt" [].
Definition em := shortTag "em" [].
Definition form := shortTag "form" [].
Definition hr := shortTag "hr" [].
Definition i := shortTag "i" [].
Definition img := shortTag "img" [].
Definition li := shortTag "li" [].
Definition ol := shortTag "ol" [].
Definition p := shortTag "p" [].
Definition pre := shortTag "pre" [].
Definition q := shortTag "q" [].
Definition s := shortTag "s" [].
Definition section := shortTag "section" [].
Definition span := shortTag "span" [].
Definition strong := shortTag "strong" [].
Definition sub := shortTag "sub" [].
Definition sup := shortTag "sup" [].
Definition table := shortTag "table" [].
Definition td := shortTag "td" [].
Definition textarea := shortTag "textarea" [].
Definition th := shortTag "th" [].
Definition tr := shortTag "tr" [].
Definition u := shortTag "u" [].
Definition ul := shortTag "ul" [].
Definition main := shortTag "main" [].
Definition footer := shortTag "footer" [].
Definition header := shortTag "header" [].
Definition details := shortTag "details" [].
Definition slot := shortTag "slot" [].

(** ** Vocabulary of the statements *)

(** The number of occurrences of a character. *)
Fixpoint occurrences (sep : ascii) (s : string) : nat :=
  match s with
  | EmptyString => 0
  | String c s' => (if Ascii.eqb c sep then 1 else 0) + occurrences sep s'
  end.

(** Hoare triples with an exceptional postcondition: from a state in [P]
    the computation ends normally in [Q], or raises in a state in [E]. *)
Definition hoare {A} (E : Heap -> Prop) (P : Heap -> Prop) (m : M A)
    (Q : A -> Heap -> Prop) : Prop :=
  forall σ, P σ ->
    match m σ with
    | (Normal a, σ') => Q a σ'
    | (Throw _, σ') => E σ'
    end.

(** The leaves of a child, nested arrays inlined where they stand, depth
    first and left to right. *)
Fixpoint flatten_value (v : Value) : list Value :=
  match v with
  | VArray items =>
      (fix inline (l : list Value) : list Value :=
         match l with
         | [] => []
         | x :: rest => flatten_value x ++ inline rest
         end) items
  | _ => [v]
  end.

Definition flatten (children : list Value) : list Value :=
  flat_map flatten_value children.

Definition is_array (v : Value) : bool :=
  match v with VArray _ => true | _ => false end.

Definition is_shadow (v : Value) : bool :=
  match v with VShadow _ => true | _ => false end.

Definition is_nullish (v : Value) : bool :=
  match v with VUndefined | VNull => true | _ => false end.

(** The number of [Shadow] objects among the children, at any depth. *)
Definition count_shadows (children : list Value) : nat :=
  length (List.filter is_shadow (flatten children)).

(** The shadow root attached to an element, if any. *)
Definition shadow_slot (σ : Heap) (el : Ref) : option Ref :=
  match σ !! el with
  | Some (NElement e) => shadowRoot e
  | _ => None
  end.

Definition localName_of (σ : Heap) (el : Ref) : option string :=
  match σ !! el with
  | Some (NElement e) => Some (localName e)
  | _ => None
  end.

(** What the host document requires of one leaf for the calls [tag] makes
    on it to go through, in a store [σ]: the name of an [Attr] and the keys
    of an attribute object are valid attribute names, the sheets of a
    [Shadow] are constructed ones, and a value that falls through to
    [createTextNode] (a plain object with a key named constructor is one)
    has a string conversion. *)
Definition accepted_leaf (σ : Heap) (v : Value) : bool :=
  match v with
  | VAttr r =>
      match σ !! r with
      | Some (NAttr x) => valid_attribute_local_name (name x)
      | _ => false
      end
  | VObject o =>
      if has_key "constructor" o then bool_decide (is_Some (ToString v))
      else forallb (fun kv => valid_attribute_local_name kv.1) o
  | VShadow s => forallb constructed (sheets s)
  | VBoolean _ | VString _ | VSymbol | VStyleSheet _ | VOther _ =>
      bool_decide (is_Some (ToString v))
  | _ => true
  end.

Definition accepted (σ : Heap) (children : list Value) : bool :=
  forallb (accepted_leaf σ) (flatten children).

(** Two states of a node that differ at most in the child list. *)
Definition up_to_children (n n' : Node) : Prop :=
  match n, n' with
  | NElement e, NElement e' =>
      localName e' = localName e /\ attributes e' = attributes e /\
      eventListeners e' = eventListeners e /\ shadowRoot e' = shadowRoot e
  | NText d, NText d' => d' = d
  | NAttr x, NAttr x' => x' = x
  | NShadowRoot s, NShadowRoot s' =>
      host s' = host s /\ mode s' = mode s /\
      adoptedStyleSheets s' = adoptedStyleSheets s
  | _, _ => False
  end.

(** The nodes of [σ0] are still there in [σ], changed at most in their
    child lists (a node that is appended leaves its former parent). *)
Definition frame (σ0 σ : Heap) : Prop :=
  forall r n, σ0 !! r = Some n -> exists n', σ !! r = Some n' /\ up_to_children n n'.

(** The state of the store while [tag] assembles the element it created
    in store [σ0] (so that the element is node [length σ0]): the nodes of
    [σ0] are framed, and the element has the lowercased tag name,
    attributes that were all made after it, and shadow root [sr]. *)
Definition assembling (σ0 : Heap) (nm : string) (sr : option Ref) (σ : Heap) : Prop :=
  frame σ0 σ /\
  exists e, σ !! length σ0 = Some (NElement e) /\ localName e = nm /\
            Forall (fun r => length σ0 < r < length σ) (attributes e) /\
            shadowRoot e = sr.

(** The exceptional postcondition of the assembly: an exception leaves
    the store in such a state, and is raised only when [C] fails. *)
Definition raises_unless (σ0 : Heap) (nm : string) (C : Prop) : Heap -> Prop :=
  fun σ => (exists sr, assembling σ0 nm sr σ) /\ ~ C.

(** The number of [Shadow] objects in a list of leaves. *)
Definition shadow_leaves (leaves : list Value) : nat :=
  length (List.filter is_shadow leaves).

(** The name of a node that is an attribute. *)
Definition attr_name_of (n : Node) : option string :=
  match n with
  | NAttr a => Some (name a)
  | _ => None
  end.

(** The value an attribute contribution [v] leaves under a name whose
    value was [current] ([None]: no such attribute). *)
Definition merged (current : option string) (v : string) : string :=
  match current with
  | None => v
  | Some cur => cur +:+ " " +:+ v
  end.

(** A child list after [appendChild] of [c]. *)
Definition moved_last (l : list Ref) (c : Ref) : list Ref := without c l ++ [c].

(** Two states of an element that differ at most in the attribute list. *)
Definition same_but_attributes (e e' : Element) : Prop :=
  localName e' = localName e /\ childNodes e' = childNodes e /\
  eventListeners e' = eventListeners e /\ shadowRoot e' = shadowRoot e.

(** The values [tag] hands to [createTextNode]. *)
Definition falls_to_text (v : Value) : bool :=
  match v with
  | VBoolean _ | VString _ | VSymbol | VStyleSheet _ | VOther _ => true
  | VObject o => has_key "constructor" o
  | _ => false
  end.

(** Sample values for the examples. *)
Definition sample_sheet : CSSStyleSheet := {| sheet_id := 1; constructed := true |}.
Definition sample_attr : Node :=
  NAttr {| name := "class"; value := "a"; ownerElement := None |}.
Definition empty_shadow : Shadow := {| children := []; sheets := [] |}.

(** ** Vocabulary of the further properties *)

(** The node that a child is, when it is an element or a text node. *)
Definition node_ref (v : Value) : option Ref :=
  match v with
  | VElement r | VText r => Some r
  | _ => None
  end.

(** The store after [parent.appendChild(node)]. *)
Definition appended (parent : Ref) (σ : Heap) (node : Ref) : Heap :=
  alter (push_child node) parent (detach node <$> σ).

(** The listener that [addEventListener] is asked to register for an
    [EventListener] child. *)
Definition to_listener (l : EventListener) : Listener :=
  {| listener_type := type l; listener_callback := callback l;
     listener_capture := flatten_options (options l) |}.

(** An event listener list after one registration. *)
Definition registered (acc : list Listener) (x : Listener) : list Listener :=
  if decide (x ∈ acc) then acc else acc ++ [x].

(** The leaves that [shadow] hands to [createTextNode]. *)
Definition shadow_text (v : Value) : bool :=
  match v with
  | VStyleSheet _ | VElement _ | VText _ | VArray _ | VUndefined | VNull => false
  | _ => true
  end.

Definition sheet_of (v : Value) : option CSSStyleSheet :=
  match v with
  | VStyleSheet c => Some c
  | _ => None
  end.

(** The strings of the text nodes that [shadow] makes of a list of
    leaves, in order. *)
Definition shadow_texts (leaves : list Value) : list string :=
  omap (fun v => if shadow_text v then ToString v else None) leaves.

(** The nodes that [shadow] collects from a list of leaves, in order, when
    the next text node it makes is node [next]. *)
Fixpoint shadow_nodes (next : nat) (leaves : list Value) : list Ref :=
  match leaves with
  | [] => []
  | v :: rest =>
      match node_ref v with
      | Some r => r :: shadow_nodes next rest
      | None =>
          if shadow_text v then next :: shadow_nodes (S next) rest
          else shadow_nodes next rest
      end
  end.

(** The element [e] with the listener list [ls]. *)
Definition listening (e : Element) (ls : list Listener) : Element :=
  {| localName := localName e; attributes := attributes e;
     childNodes := childNodes e; eventListeners := ls;
     shadowRoot := shadowRoot e |}.

(** The attributes of an element as name/value pairs in the order of the
    attribute list.  A contribution under a name that is there is added
    to the value of the first pair of that name, after a space; under a
    new name it makes a new last pair. *)
Fixpoint upsert (key v : string) (acc : list (string * string))
    : list (string * string) :=
  match acc with
  | [] => [(key, v)]
  | (k, cur) :: rest =>
      if String.eqb k key then (k, cur +:+ " " +:+ v) :: rest
      else (k, cur) :: upsert key v rest
  end.

Fixpoint index_of (key : string) (acc : list (string * string)) : option nat :=
  match acc with
  | [] => None
  | (k, _) :: rest => if String.eqb k key then Some 0 else S <$> index_of key rest
  end.

Fixpoint assoc (key : string) (acc : list (string * string)) : option string :=
  match acc with
  | [] => None
  | (k, v) :: rest => if String.eqb k key then Some v else assoc key rest
  end.

(** The pairs of an attribute object: the keys in lower case, an
    array-valued entry joined. *)
Definition entries (o : AttrObject) : list (string * string) :=
  (fun entry => (ascii_lowercase entry.1, newValue_of entry.2)) <$> o.

(** What an [Attr] child or an attribute object contributes, in the store
    the call starts from (an object with an own constructor property is
    no attribute object to [tag]). *)
Definition contribution (σ : Heap) (v : Value) : list (string * string) :=
  match v with
  | VObject o => if has_key "constructor" o then [] else entries o
  | VAttr r =>
      match σ !! r with
      | Some (NAttr x) => [(name x, value x)]
      | _ => []
      end
  | _ => []
  end.

Definition contribute (acc : list (string * string)) (entry : string * string) :=
  upsert entry.1 entry.2 acc.

Definition attribute_list (σ : Heap) (children : list Value) : list (string * string) :=
  foldl contribute [] (children ≫= contribution σ).

(** The children that contribute attributes and that the host accepts: an
    attribute object without an own constructor property whose keys are
    valid attribute names, and an [Attr] of the store with a valid name in
    lower case. *)
Definition attr_source (σ : Heap) (v : Value) : bool :=
  match v with
  | VObject o =>
      negb (has_key "constructor" o)
      && forallb (fun entry => valid_attribute_local_name entry.1) o
  | VAttr r =>
      match σ !! r with
      | Some (NAttr x) =>
          String.eqb (ascii_lowercase (name x)) (name x)
          && valid_attribute_local_name (name x)
      | _ => false
      end
  | _ => false
  end.

Definition owned_attr (el : Ref) (entry : string * string) : Node :=
  NAttr {| name := entry.1; value := entry.2; ownerElement := Some el |}.

(** The store [σ] followed by a new element of local name [nm] and by its
    attribute nodes, one per pair. *)
Definition built (σ : Heap) (nm : string) (attrs : list (string * string)) : Heap :=
  σ ++ NElement {| localName := nm;
                   attributes := seq (S (length σ)) (length attrs);
                   childNodes := []; eventListeners := []; shadowRoot := None |}
       :: (owned_attr (length σ) <$> attrs).

(** An [Attr] child is an attribute of the store with a name in lower
    case, as [attr] makes it. *)
Definition attr_lowercase (σ : Heap) (v : Value) : bool :=
  match v with
  | VAttr r =>
      match σ !! r with
      | Some (NAttr x) => String.eqb (ascii_lowercase (name x)) (name x)
      | _ => false
      end
  | _ => true
  end.

Definition listener_of (v : Value) : option Listener :=
  match v with
  | VEventListener l => Some (to_listener l)
  | _ => None
  end.

Definition listener_list (children : list Value) : list Listener :=
  foldl registered [] (omap listener_of children).

(** What the element that [tag] created in store [σ0] carries in a later
    store [σ]: the attributes [attrs], as name/value pairs in the order of
    its attribute list, each in a node of its own made after the element,
    and the listeners [ls]; the attributes of [σ0] are as they were. *)
Definition carries (σ0 : Heap) (attrs : list (string * string)) (ls : list Listener)
    (σ : Heap) : Prop :=
  (forall r x, σ0 !! r = Some (NAttr x) -> σ !! r = Some (NAttr x)) /\
  exists e, σ !! length σ0 = Some (NElement e) /\ eventListeners e = ls /\
            NoDup (attributes e) /\
            Forall2 (fun r pair =>
                       length σ0 < r /\
                       exists o, σ !! r = Some (NAttr {| name := pair.1; value := pair.2;
                                                         ownerElement := o |}))
                    (attributes e) attrs.

(** A change of a node that leaves attribute nodes alone and keeps the
    attribute list and the listeners of an element. *)
Definition neutral (f : Node -> Node) : Prop :=
  (forall x, f (NAttr x) = NAttr x) /\
  forall e, exists e', f (NElement e) = NElement e' /\
                       attributes e' = attributes e /\
                       eventListeners e' = eventListeners e.

(** The attributes of an element read from the store, as name/value
    pairs in the order of its attribute list, and its listeners. *)
Definition attribute_pairs (σ : Heap) (el : Ref) : list (string * string) :=
  match σ !! el with
  | Some (NElement e) =>
      omap (fun r => match σ !! r with
                     | Some (NAttr x) => Some (name x, value x)
                     | _ => None
                     end) (attributes e)
  | _ => []
  end.

Definition listeners_of (σ : Heap) (el : Ref) : list Listener :=
  match σ !! el with
  | Some (NElement e) => eventListeners e
  | _ => []
  end.

(** Children of every kind, for the examples. *)
Definition mixed_children : list Value :=
  [ VString "x"; VObject [("Class", One "a")];
    VArray [VAttr 0; VElement 1;
            VEventListener {| type := "click"; callback := 7; options := None |}];
    VShadow empty_shadow; VObject [("id", One "i"); ("class", Many ["c"; "d"])];
    VEventListener {| type := "click"; callback := 7; options := None |} ].

Definition mixed_store : Heap := [sample_attr; NElement (new_element "p")].

(** A child of the new element, as the caller sees it: a node that was
    given, or a text node made for a string. *)
Definition Kid : Type := Ref + string.

(** The children after one more leaf: a given node becomes the last child
    (leaving the place it had), a value that falls to text makes a new
    last child, and the nodes of a [Shadow] leave the element for the
    shadow root. *)
Definition nest (kids : list Kid) (v : Value) : list Kid :=
  match v with
  | VElement r | VText r => filter (fun k => k <> inl r) kids ++ [inl r]
  | VShadow sh => foldl (fun ks c => filter (fun k => k <> inl c) ks) kids (children sh)
  | _ =>
      if falls_to_text v then
        match ToString v with
        | Some data => kids ++ [inr data]
        | None => kids
        end
      else kids
  end.

Definition child_list (leaves : list Value) : list Kid := foldl nest [] leaves.

(** The child list of an element read from the store: the nodes that
    were there before the call as they are, the text nodes made since by
    their data. *)
Definition child_view (before : nat) (σ : Heap) (el : Ref) : list Kid :=
  (fun r => if decide (r < before) then inl r
            else match σ !! r with
                 | Some (NText data) => inr data
                 | _ => inl r
                 end) <$> children_of σ el.

(** The nodes among the children are nodes of the store. *)
Definition nodes_in (σ : Heap) (v : Value) : bool :=
  match v with
  | VElement r | VText r => bool_decide (r < length σ)
  | VShadow sh => forallb (fun c => bool_decide (c < length σ)) (children sh)
  | _ => true
  end.

Definition kid_at (σ0 σ : Heap) (r : Ref) (k : Kid) : Prop :=
  match k with
  | inl given => r = given /\ given < length σ0
  | inr data => length σ0 < r /\ σ !! r = Some (NText data)
  end.

(** The children of the element that [tag] created in store [σ0], in a
    later store [σ]. *)
Definition nests (σ0 : Heap) (kids : list Kid) (σ : Heap) : Prop :=
  exists e, σ !! length σ0 = Some (NElement e) /\
            Forall2 (kid_at σ0 σ) (childNodes e) kids.

(** A change of a node that leaves text nodes alone and keeps the child
    list of an element. *)
Definition quiet (f : Node -> Node) : Prop :=
  (forall data, f (NText data) = NText data) /\
  forall e, exists e', f (NElement e) = NElement e' /\ childNodes e' = childNodes e.

(** ** Reasoning about computations *)

(** Runs the monadic glue of a computation applied to a store. *)
Ltac msimpl :=
  cbv beta iota zeta delta
    [bind ret throw modify get_heap alloc read_attr hasAttribute getAttribute
     cloneNode write_value createTextNode].

Lemma bind_assoc {A B C} (m : M A) (f : A -> M B) (g : B -> M C) σ :
  bind (bind m f) g σ = bind m (fun x => bind (f x) g) σ.
Proof. unfold bind. destruct (m σ) as [[x|e] σ']; reflexivity. Qed.

Lemma bind_ext {A B} (m : M A) (f g : A -> M B) σ :
  (forall x σ', f x σ' = g x σ') -> bind m f σ = bind m g σ.
Proof. intros H. unfold bind. destruct (m σ) as [[x|e] σ']; auto. Qed.

Lemma bind_cong {A B} (m m' : M A) (f g : A -> M B) σ :
  m σ = m' σ -> (forall x σ', f x σ' = g x σ') -> bind m f σ = bind m' g σ.
Proof. intros Hm H. unfold bind. rewrite Hm. destruct (m' σ) as [[x|e] σ']; auto. Qed.

Lemma for_each_app {A} (body : A -> M unit) (l1 l2 : list A) σ :
  for_each body (l1 ++ l2) σ = (for_each body l1 ;;; for_each body l2) σ.
Proof.
  revert σ. induction l1 as [|x l1 IH]; intros σ; simpl.
  - reflexivity.
  - rewrite bind_assoc. apply bind_ext. intros _ σ'. apply IH.
Qed.

Section HoareRules.
Context {A B : Type} (E : Heap -> Prop).

Lemma hoare_ret (P : Heap -> Prop) (a : A) (Q : A -> Heap -> Prop) :
  (forall σ, P σ -> Q a σ) -> hoare E P (ret a) Q.
Proof. intros H σ HP. simpl. auto. Qed.

Lemma hoare_throw (P : Heap -> Prop) (e : Exception) (Q : A -> Heap -> Prop) :
  (forall σ, P σ -> E σ) -> hoare E P (throw e) Q.
Proof. intros H σ HP. simpl. auto. Qed.

Lemma hoare_bind (P : Heap -> Prop) (m : M A) (f : A -> M B)
    (Q : A -> Heap -> Prop) (R : B -> Heap -> Prop) :
  hoare E P m Q -> (forall a, hoare E (Q a) (f a) R) -> hoare E P (bind m f) R.
Proof.
  intros Hm Hf σ HP. unfold bind. specialize (Hm σ HP).
  destruct (m σ) as [[x|e] σ']; [apply Hf; exact Hm | exact Hm].
Qed.


Lemma hoare_alloc (P : Heap -> Prop) (n : Node) (Q : Ref -> Heap -> Prop) :
  (forall σ, P σ -> Q (length σ) (σ ++ [n])) -> hoare E P (alloc n) Q.
Proof. intros H σ HP. simpl. auto. Qed.

End HoareRules.


(** ** Strings: [split] and [join] *)

Lemma split_nonempty sep s : split sep s <> [].
Proof.
  destruct s as [|c s]; simpl; [discriminate|].
  destruct (Ascii.eqb c sep); [discriminate|].
  destruct (split sep s); discriminate.
Qed.

Lemma join_cons_String sep c piece rest :
  join sep (String c piece :: rest) = String c (join sep (piece :: rest)).
Proof. destruct rest; reflexivity. Qed.

(** Joining the pieces with the separator gives the string back. *)
Lemma join_split sep s : join (String sep "") (split sep s) = s.
Proof.
  induction s as [|c s IH]; simpl; [reflexivity|].
  destruct (Ascii.eqb_spec c sep) as [->|Hne].
  - pose proof (split_nonempty sep s) as Hn.
    destruct (split sep s) as [|piece rest]; [congruence|].
    simpl in *. rewrite IH. reflexivity.
  - pose proof (split_nonempty sep s) as Hn.
    destruct (split sep s) as [|piece rest]; [congruence|].
    rewrite join_cons_String, IH. reflexivity.
Qed.

Lemma length_split sep s : length (split sep s) = S (occurrences sep s).
Proof.
  induction s as [|c s IH]; simpl; [reflexivity|].
  destruct (Ascii.eqb c sep); simpl; [congruence|].
  pose proof (split_nonempty sep s) as Hn.
  destruct (split sep s) as [|piece rest]; [congruence|]. simpl in *. lia.
Qed.

Lemma split_pieces_free sep s :
  Forall (fun piece => occurrences sep piece = 0) (split sep s).
Proof.
  induction s as [|c s IH]; simpl.
  - repeat constructor.
  - destruct (Ascii.eqb c sep) eqn:Hc.
    + constructor; [reflexivity | exact IH].
    + destruct (split sep s) as [|piece rest]; simpl.
      * repeat constructor. simpl. rewrite Hc. reflexivity.
      * inversion IH; subst. constructor; [|assumption].
        simpl. rewrite Hc. assumption.
Qed.

Lemma split_free sep t : occurrences sep t = 0 -> split sep t = [t].
Proof.
  induction t as [|c t IH]; simpl; [reflexivity|].
  destruct (Ascii.eqb c sep); [discriminate|]. simpl. intros H.
  rewrite (IH H). reflexivity.
Qed.

Lemma split_app_sep sep t rest :
  occurrences sep t = 0 ->
  split sep (t +:+ String sep rest) = t :: split sep rest.
Proof.
  induction t as [|c t IH]; simpl.
  - intros _. rewrite Ascii.eqb_refl. reflexivity.
  - destruct (Ascii.eqb c sep); [discriminate|]. simpl. intros H.
    rewrite (IH H). reflexivity.
Qed.

(** Cutting the join of pieces that hold no separator gives the pieces. *)
Lemma split_join sep ts :
  ts <> [] -> Forall (fun t => occurrences sep t = 0) ts ->
  split sep (join (String sep "") ts) = ts.
Proof.
  intros Hne Hfree. induction Hfree as [|t ts Ht Hts IH]; [congruence|].
  destruct ts as [|t2 ts].
  - simpl. apply split_free. exact Ht.
  - change (join (String sep "") (t :: t2 :: ts))
      with (t +:+ String sep (join (String sep "") (t2 :: ts))).
    rewrite (split_app_sep _ _ _ Ht), IH by discriminate. reflexivity.
Qed.

(** ** Lower case *)

Lemma ascii_lower_idempotent c : ascii_lower (ascii_lower c) = ascii_lower c.
Proof. destruct c as [[] [] [] [] [] [] [] []]; reflexivity. Qed.

Lemma ascii_lowercase_idempotent s :
  ascii_lowercase (ascii_lowercase s) = ascii_lowercase s.
Proof.
  induction s as [|c s IH]; simpl; [reflexivity|].
  rewrite ascii_lower_idempotent, IH. reflexivity.
Qed.

(** Lowering the case of a name does not change whether it is a valid
    attribute name. *)
Lemma valid_attribute_lowercase s :
  valid_attribute_local_name (ascii_lowercase s) = valid_attribute_local_name s.
Proof.
  unfold valid_attribute_local_name. f_equal.
  - destruct s; reflexivity.
  - induction s as [|c s IH]; [reflexivity|].
    cbn [string_forallb ascii_lowercase]. rewrite IH. f_equal.
    destruct c as [[] [] [] [] [] [] [] []]; reflexivity.
Qed.

Lemma get_attribute_lowercase σ el qn :
  get_attribute σ el (ascii_lowercase qn) = get_attribute σ el qn.
Proof. unfold get_attribute. rewrite ascii_lowercase_idempotent. reflexivity. Qed.

(** ** Induction on values *)

Lemma Value_nested_ind (P : Value -> Prop) :
  P VUndefined -> P VNull -> (forall b, P (VBoolean b)) -> (forall s, P (VString s)) ->
  P VSymbol -> (forall r, P (VElement r)) -> (forall r, P (VText r)) ->
  (forall r, P (VAttr r)) -> (forall l, P (VEventListener l)) ->
  (forall s, P (VShadow s)) -> (forall c, P (VStyleSheet c)) ->
  (forall items, Forall P items -> P (VArray items)) ->
  (forall o, P (VObject o)) -> (forall str, P (VOther str)) ->
  forall v, P v.
Proof.
  intros Hu Hn Hb Hs Hy He Ht Ha Hl Hsh Hc Harr Ho Hot.
  fix IH 1. intros [ | | b | s | | r | r | r | l | s | c | items | o | str ];
    try solve [clear IH; auto].
  apply Harr. induction items as [|x items IHitems]; constructor; auto.
Qed.

Lemma flatten_value_array items : flatten_value (VArray items) = flatten items.
Proof.
  simpl. induction items as [|x items IH]; simpl; [reflexivity|].
  rewrite IH. reflexivity.
Qed.


Lemma flatten_leaves children : Forall (fun v => is_array v = false) (flatten children).
Proof.
  induction children as [|v children IH]; simpl; [constructor|].
  apply Forall_app. split; [|exact IH]. clear IH.
  induction v as [ | | | | | | | | | | | items IH | | ] using Value_nested_ind;
    try (repeat constructor; fail).
  rewrite flatten_value_array.
  induction IH as [|x items Hx _ IH']; simpl; [constructor|].
  apply Forall_app. auto.
Qed.

(** ** Flattening *)

Lemma process_cons htmlTag v rest σ :
  process htmlTag (v :: rest) σ = (process_child htmlTag v ;;; process htmlTag rest) σ.
Proof. reflexivity. Qed.

Lemma process_app htmlTag l1 l2 σ :
  process htmlTag (l1 ++ l2) σ = (process htmlTag l1 ;;; process htmlTag l2) σ.
Proof. apply for_each_app. Qed.

Lemma process_child_array htmlTag items σ :
  process_child htmlTag (VArray items) σ = process htmlTag items σ.
Proof. reflexivity. Qed.

(** An array child does what its items do, in place. *)
Lemma process_inline htmlTag pre items post σ :
  process htmlTag (pre ++ VArray items :: post) σ
  = process htmlTag (pre ++ items ++ post) σ.
Proof.
  rewrite !process_app. apply bind_ext. intros _ σ'.
  rewrite process_cons, process_app. reflexivity.
Qed.

Lemma process_child_flatten htmlTag v σ :
  process_child htmlTag v σ = process htmlTag (flatten_value v) σ.
Proof.
  revert σ.
  induction v as [ | | | | | | | | | | | items IH | | ] using Value_nested_ind;
    intros σ;
    try (unfold process; simpl; unfold bind;
         match goal with |- ?m = _ => destruct m as [[[]|?] ?] end; reflexivity).
  rewrite process_child_array, flatten_value_array.
  revert σ. induction IH as [|x items Hx _ IH']; intros σ; [reflexivity|].
  change (flatten (x :: items)) with (flatten_value x ++ flatten items).
  rewrite process_cons, process_app.
  apply bind_cong; [apply Hx | intros _ σ'; apply IH'].
Qed.

Lemma process_flatten htmlTag children σ :
  process htmlTag children σ = process htmlTag (flatten children) σ.
Proof.
  revert σ. induction children as [|v children IH]; intros σ; [reflexivity|].
  change (flatten (v :: children)) with (flatten_value v ++ flatten children).
  rewrite process_cons, process_app.
  apply bind_cong; [apply process_child_flatten | intros _ σ'; apply IH].
Qed.

Lemma tag_process_ext name l1 l2 σ :
  (forall htmlTag σ', process htmlTag l1 σ' = process htmlTag l2 σ') ->
  tag name l1 σ = tag name l2 σ.
Proof.
  intros H. unfold tag. apply bind_ext. intros htmlTag σ'.
  unfold bind. rewrite H. reflexivity.
Qed.

(** ** The store during an assembly *)

Section Assembling.
Variables (σ0 : Heap) (nm : string).
Local Abbreviation el := (length σ0).

Lemma up_to_children_refl n : up_to_children n n.
Proof. destruct n; simpl; auto. Qed.

Lemma up_to_children_detach c n n' :
  up_to_children n n' -> up_to_children n (detach c n').
Proof. destruct n, n'; simpl; auto. Qed.

Lemma frame_refl σ : frame σ σ.
Proof. intros r n Hr. exists n. split; [exact Hr | apply up_to_children_refl]. Qed.

Lemma frame_attr σ r x :
  frame σ0 σ -> σ0 !! r = Some (NAttr x) -> σ !! r = Some (NAttr x).
Proof.
  intros Hf Hr. destruct (Hf _ _ Hr) as (n' & Hn' & Hu).
  destruct n'; simpl in Hu; try contradiction. subst. exact Hn'.
Qed.

Lemma frame_alloc σ n : frame σ0 σ -> frame σ0 (σ ++ [n]).
Proof.
  intros Hf r m Hr. destruct (Hf _ _ Hr) as (n' & Hn' & Hu).
  exists n'. split; [apply lookup_app_l_Some; exact Hn' | exact Hu].
Qed.

Lemma frame_detach σ c : frame σ0 σ -> frame σ0 (detach c <$> σ).
Proof.
  intros Hf r m Hr. destruct (Hf _ _ Hr) as (n' & Hn' & Hu).
  exists (detach c n'). split; [|apply up_to_children_detach; exact Hu].
  rewrite list_lookup_fmap, Hn'. reflexivity.
Qed.

Lemma frame_alter_new σ (f : Node -> Node) i :
  el <= i -> frame σ0 σ -> frame σ0 (alter f i σ).
Proof.
  intros Hi Hf r m Hr. destruct (Hf _ _ Hr) as (n' & Hn' & Hu).
  exists n'. split; [|exact Hu]. rewrite list_lookup_alter_ne; [exact Hn'|].
  apply lookup_lt_Some in Hr. lia.
Qed.

Lemma assembling_length sr σ : assembling σ0 nm sr σ -> el < length σ.
Proof.
  intros [_ (e & He & _)]. apply lookup_lt_Some in He. exact He.
Qed.

Lemma assembling_alloc sr σ n :
  assembling σ0 nm sr σ -> assembling σ0 nm sr (σ ++ [n]).
Proof.
  intros [Hf (e & He & Hn & Ha & Hs)]. split.
  - apply frame_alloc. exact Hf.
  - exists e. split; [apply lookup_app_l_Some; exact He|].
    repeat split; auto. eapply Forall_impl; [exact Ha|].
    intros r [? ?]. rewrite length_app. simpl. lia.
Qed.

Lemma assembling_detach sr σ c :
  assembling σ0 nm sr σ -> assembling σ0 nm sr (detach c <$> σ).
Proof.
  intros [Hf (e & He & Hn & Ha & Hs)]. split.
  - apply frame_detach. exact Hf.
  - rewrite list_lookup_fmap, He. simpl. eexists. split; [reflexivity|]. simpl.
    rewrite length_fmap. auto.
Qed.

Lemma assembling_alter_above sr σ (f : Node -> Node) r :
  el < r -> assembling σ0 nm sr σ -> assembling σ0 nm sr (alter f r σ).
Proof.
  intros Hlt [Hf (e & He & Hrest)]. split.
  - apply frame_alter_new; [lia | exact Hf].
  - exists e. rewrite length_alter.
    split; [|exact Hrest]. rewrite list_lookup_alter_ne; [exact He | lia].
Qed.

Lemma assembling_alter_el sr sr' σ (f : Node -> Node) :
  (forall e, localName e = nm ->
             Forall (fun r => el < r < length σ) (attributes e) ->
             shadowRoot e = sr ->
             exists e', f (NElement e) = NElement e' /\ localName e' = nm /\
                        Forall (fun r => el < r < length σ) (attributes e') /\
                        shadowRoot e' = sr') ->
  assembling σ0 nm sr σ -> assembling σ0 nm sr' (alter f el σ).
Proof.
  intros Hfn [Hf (e & He & Hn & Ha & Hs)]. split.
  - apply frame_alter_new; [lia | exact Hf].
  - destruct (Hfn e Hn Ha Hs) as (e' & He' & Hrest).
    exists e'. rewrite length_alter. split; [|exact Hrest].
    rewrite list_lookup_alter_eq, He. simpl. rewrite He'. reflexivity.
Qed.

Lemma assembling_find_attribute sr σ qn r :
  assembling σ0 nm sr σ -> find_attribute σ el qn = Some r -> el < r.
Proof.
  intros [_ (e & He & _ & Ha & _)] Hfind. unfold find_attribute in Hfind.
  rewrite He in Hfind. apply find_some in Hfind as [Hin _].
  rewrite Forall_forall in Ha. apply Ha. apply list_elem_of_In. exact Hin.
Qed.

Lemma raises_unless_intro (C : Prop) sr σ :
  assembling σ0 nm sr σ -> ~ C -> raises_unless σ0 nm C σ.
Proof. intros H HC. split; [exists sr; exact H | exact HC]. Qed.

(** *** The operations on the element being assembled *)

Lemma appendChild_assembling E sr parent c :
  parent = el \/ el < parent ->
  hoare E (assembling σ0 nm sr) (appendChild parent c) (fun _ => assembling σ0 nm sr).
Proof.
  intros Hp σ H. simpl. apply (assembling_detach _ _ c) in H.
  destruct Hp as [->|Hp].
  - eapply assembling_alter_el; [|exact H].
    intros e Hn Ha Hs. eexists. split; [reflexivity|]. simpl. auto.
  - apply assembling_alter_above; assumption.
Qed.

Lemma addEventListener_assembling E sr ty cb o :
  hoare E (assembling σ0 nm sr) (addEventListener el ty cb o)
        (fun _ => assembling σ0 nm sr).
Proof.
  intros σ H. simpl. eapply assembling_alter_el; [|exact H].
  intros e Hn Ha Hs. eexists. split; [reflexivity|]. simpl. auto.
Qed.

Lemma setAttribute_assembling (C : Prop) sr qn v :
  (C -> valid_attribute_local_name qn = true) ->
  hoare (raises_unless σ0 nm C) (assembling σ0 nm sr) (setAttribute el qn v)
        (fun _ => assembling σ0 nm sr).
Proof.
  intros HC σ H. unfold setAttribute.
  destruct (valid_attribute_local_name qn) eqn:Hv.
  - unfold bind, get_heap.
    destruct (find_attribute σ el (ascii_lowercase qn)) as [r|] eqn:Hfind; simpl.
    + apply assembling_alter_above; [|exact H].
      eapply assembling_find_attribute; eassumption.
    + pose proof (assembling_length _ _ H) as Hlen.
      eapply assembling_alter_el; [|apply assembling_alloc; exact H].
      intros e Hn Ha Hs. eexists. split; [reflexivity|]. simpl.
      repeat split; auto. apply Forall_app. split; [exact Ha|].
      repeat constructor; [exact Hlen|]. rewrite length_app. simpl. lia.
  - simpl. eapply raises_unless_intro; [exact H|].
    intros HCt. specialize (HC HCt). congruence.
Qed.

Lemma setAttributeNode_assembling E sr c :
  hoare E
    (fun σ => assembling σ0 nm sr σ /\ el < c /\
              exists x, σ !! c = Some (NAttr x) /\ ownerElement x = None)
    (setAttributeNode el c) (fun _ => assembling σ0 nm sr).
Proof.
  intros σ (H & Hc & x & Hx & Hown). unfold setAttributeNode. msimpl.
  pose proof (lookup_lt_Some _ _ _ Hx) as Hclt.
  rewrite Hx. msimpl. rewrite Hown. rewrite bool_decide_eq_true_2 by auto.
  destruct (find_attribute σ el (name x)) as [old|] eqn:Hfind; msimpl.
  - destruct (decide (old = c)); msimpl; [exact H|].
    pose proof (assembling_find_attribute _ _ _ _ H Hfind) as Hold.
    eapply assembling_alter_el;
      [|apply assembling_alter_above; [exact Hc|];
        apply assembling_alter_above; [exact Hold | exact H]].
    intros e Hn Ha Hs. eexists. split; [reflexivity|]. simpl.
    repeat split; auto. unfold replace_ref.
    apply Forall_fmap. eapply Forall_impl; [exact Ha|].
    intros r Hr. simpl. destruct (decide (r = old)); [|assumption].
    rewrite !length_alter. lia.
  - eapply assembling_alter_el;
      [|apply assembling_alter_above; [exact Hc | exact H]].
    intros e Hn Ha Hs. eexists. split; [reflexivity|]. simpl.
    repeat split; auto. apply Forall_app. split; [exact Ha|].
    repeat constructor; [exact Hc|]. rewrite !length_alter. lia.
Qed.

Lemma handleAttributeNode_assembling (C : Prop) sr r :
  (C -> accepted_leaf σ0 (VAttr r) = true) ->
  hoare (raises_unless σ0 nm C) (assembling σ0 nm sr) (handleAttributeNode el r)
        (fun _ => assembling σ0 nm sr).
Proof.
  intros HC σ H. unfold handleAttributeNode. msimpl.
  assert (Hrd : forall x, σ !! r = Some (NAttr x) ->
                 C -> valid_attribute_local_name (name x) = true).
  { intros x Hx HCt. specialize (HC HCt). simpl in HC.
    destruct (σ0 !! r) as [[ | |y| ]|] eqn:H0; try discriminate.
    destruct H as [Hf _]. rewrite (frame_attr _ _ _ Hf H0) in Hx. congruence. }
  destruct (σ !! r) as [[ | |x| ]|] eqn:Hx; msimpl;
    try (eapply raises_unless_intro; [exact H|];
         intros HCt; specialize (HC HCt); simpl in HC;
         destruct (σ0 !! r) as [[ | |y| ]|] eqn:H0; try discriminate;
         destruct H as [Hf _]; rewrite (frame_attr _ _ _ Hf H0) in Hx; discriminate).
  destruct (has_attribute σ el (name x)); msimpl.
  - apply (setAttribute_assembling C sr (name x)); [|exact H]. auto.
  - rewrite Hx. msimpl.
    pose proof (assembling_length _ _ H) as Hlen.
    pose proof (setAttributeNode_assembling (raises_unless σ0 nm C) sr (length σ)
                  (σ ++ [NAttr {| name := name x; value := value x; ownerElement := None |}]))
      as Hset.
    destruct (setAttributeNode el (length σ) _) as [[old|e] σ'];
      apply Hset; (split; [apply assembling_alloc; exact H|]);
      (split; [exact Hlen|]); eexists;
      (split; [apply list_lookup_middle; reflexivity | reflexivity]).
Qed.

Lemma handleAttributeObject_assembling (C : Prop) sr o :
  (C -> forallb (fun kv => valid_attribute_local_name kv.1) o = true) ->
  hoare (raises_unless σ0 nm C) (assembling σ0 nm sr) (handleAttributeObject el o)
        (fun _ => assembling σ0 nm sr).
Proof.
  unfold handleAttributeObject. induction o as [|[key v] o IH]; intros HC.
  - intros σ H. exact H.
  - simpl. eapply hoare_bind with (Q := fun _ => assembling σ0 nm sr);
      [|intros []; apply IH].
    + intros σ H. msimpl.
      assert (Hk : C -> valid_attribute_local_name key = true).
      { intros HCt. specialize (HC HCt). simpl in HC.
        apply andb_true_iff in HC as [HC _]. exact HC. }
      destruct (has_attribute σ el key); msimpl.
      * apply (setAttribute_assembling C sr key); auto.
      * apply (setAttribute_assembling C sr key); auto.
    + intros HCt. specialize (HC HCt). simpl in *.
      apply andb_true_iff in HC as [_ HC]. exact HC.
Qed.

Lemma attachShadow_assembling (C : Prop) sr :
  (C -> sr = None /\ valid_shadow_host_name nm = true) ->
  hoare (raises_unless σ0 nm C) (assembling σ0 nm sr) (attachShadow el open)
        (fun r σ' => sr = None /\ el < r /\ assembling σ0 nm (Some r) σ').
Proof.
  intros HC σ H. pose proof (assembling_length _ _ H) as Hlen.
  pose proof H as [_ (e & He & Hn & Ha & Hs)].
  unfold attachShadow. msimpl. rewrite He, Hn.
  destruct (valid_shadow_host_name nm) eqn:Hv;
    [destruct (shadowRoot e) as [old|] eqn:Hsr|]; msimpl.
  - eapply raises_unless_intro; [exact H|]. intros HCt.
    destruct (HC HCt) as [-> _]. discriminate.
  - split; [congruence|]. split; [exact Hlen|].
    eapply assembling_alter_el; [|apply assembling_alloc; exact H].
    intros e' Hn' Ha' Hs'. eexists. split; [reflexivity|]. simpl. auto.
  - eapply raises_unless_intro; [exact H|]. intros HCt.
    destruct (HC HCt) as [_ Hv']. congruence.
Qed.

Lemma set_adoptedStyleSheets_assembling (C : Prop) sr root l :
  el < root -> (C -> forallb constructed l = true) ->
  hoare (raises_unless σ0 nm C) (assembling σ0 nm sr) (set_adoptedStyleSheets root l)
        (fun _ => assembling σ0 nm sr).
Proof.
  intros Hroot HC σ H. unfold set_adoptedStyleSheets. msimpl.
  apply (assembling_alter_above sr σ (set_sheets (constructed_prefix l)) root Hroot) in H.
  destruct (forallb constructed l) eqn:Hall; msimpl; [exact H|].
  eapply raises_unless_intro; [exact H|]. intros HCt. specialize (HC HCt). congruence.
Qed.

Lemma appendChildren_assembling E sr root l :
  el < root ->
  hoare E (assembling σ0 nm sr)
        (for_each (fun childChild => appendChild root childChild ;;; ret tt) l)
        (fun _ => assembling σ0 nm sr).
Proof.
  intros Hroot. induction l as [|c l IH]; simpl.
  - intros σ H. exact H.
  - eapply hoare_bind with (Q := fun _ => assembling σ0 nm sr);
      [|intros []; exact IH].
    eapply hoare_bind with (Q := fun _ => assembling σ0 nm sr).
    + apply appendChild_assembling. right. exact Hroot.
    + intros _. apply hoare_ret. auto.
Qed.

(** One leaf: the element stays in the assembling state; a [Shadow]
    takes it from no shadow root to one. *)
Lemma process_leaf_assembling (C : Prop) sr v :
  is_array v = false ->
  (C -> accepted_leaf σ0 v = true /\
        (is_shadow v = true -> sr = None /\ valid_shadow_host_name nm = true)) ->
  hoare (raises_unless σ0 nm C) (assembling σ0 nm sr) (process_child el v)
        (fun _ σ' => if is_shadow v
                     then sr = None /\ exists r, assembling σ0 nm (Some r) σ'
                     else assembling σ0 nm sr σ').
Proof.
  intros Hleaf HC.
  assert (Htext : forall w, accepted_leaf σ0 w = bool_decide (is_Some (ToString w)) ->
            (C -> accepted_leaf σ0 w = true) ->
            hoare (raises_unless σ0 nm C) (assembling σ0 nm sr)
              (appendText el w) (fun _ => assembling σ0 nm sr)).
  { intros w Hw HCw. unfold appendText. destruct (ToString w) as [data|] eqn:Hstr.
    - eapply hoare_bind with (Q := fun _ => assembling σ0 nm sr).
      + apply hoare_alloc. intros σ H. apply assembling_alloc. exact H.
      + intros text. eapply hoare_bind with (Q := fun _ => assembling σ0 nm sr).
        * apply appendChild_assembling. left. reflexivity.
        * intros _. apply hoare_ret. auto.
    - apply hoare_throw. intros σ H. eapply raises_unless_intro; [exact H|].
      intros HCt. specialize (HCw HCt). rewrite Hw in HCw.
      apply bool_decide_eq_true in HCw as [? ?]. discriminate. }
  destruct v as [ | | b | s | | r | r | r | l | s | c | items | o | str ];
    try discriminate Hleaf;
    try (match goal with
         | |- hoare _ _ (process_child _ ?w) _ => refine (Htext w eq_refl _)
         end; intros HCt; apply HC; exact HCt);
    cbn [process_child is_shadow].
  - apply hoare_ret. auto.
  - apply hoare_ret. auto.
  - eapply hoare_bind with (Q := fun _ => assembling σ0 nm sr).
    + apply appendChild_assembling. left. reflexivity.
    + intros _. apply hoare_ret. auto.
  - eapply hoare_bind with (Q := fun _ => assembling σ0 nm sr).
    + apply appendChild_assembling. left. reflexivity.
    + intros _. apply hoare_ret. auto.
  - apply handleAttributeNode_assembling. intros HCt. apply HC. exact HCt.
  - apply addEventListener_assembling.
  - eapply hoare_bind.
    + apply attachShadow_assembling. intros HCt. apply HC; [exact HCt | reflexivity].
    + intros root. simpl.
      intros σ (Hsr & Hroot & H).
      pose proof (set_adoptedStyleSheets_assembling C (Some root) root (sheets s) Hroot)
        as Hset.
      pose proof (appendChildren_assembling (raises_unless σ0 nm C) (Some root) root
                    (children s) Hroot) as Happ.
      unfold bind at 1.
      specialize (Hset (fun HCt => proj1 (HC HCt)) σ H).
      destruct (set_adoptedStyleSheets root (sheets s) σ) as [[[]|e] σ1]; [|exact Hset].
      specialize (Happ σ1 Hset).
      destruct (for_each _ (children s) σ1) as [[[]|e] σ2]; [|exact Happ].
      split; [exact Hsr | exists root; exact Happ].
  - destruct (has_key "constructor" o) eqn:Hk.
    + apply (Htext (VObject o)); [simpl; rewrite Hk; reflexivity|].
      intros HCt. apply HC. exact HCt.
    + apply handleAttributeObject_assembling. intros HCt.
      destruct (HC HCt) as [Hacc _]. simpl in Hacc. rewrite Hk in Hacc. exact Hacc.
Qed.

(** A list of leaves. *)
Lemma process_leaves_assembling (C : Prop) l : forall sr,
  Forall (fun v => is_array v = false) l ->
  (C -> forallb (accepted_leaf σ0) l = true /\
        (shadow_leaves l = 0 \/
         (shadow_leaves l = 1 /\ sr = None /\ valid_shadow_host_name nm = true))) ->
  hoare (raises_unless σ0 nm C) (assembling σ0 nm sr) (process el l)
        (fun _ σ' => (shadow_leaves l = 0 /\ assembling σ0 nm sr σ') \/
                     (shadow_leaves l = 1 /\ sr = None /\
                      exists r, assembling σ0 nm (Some r) σ')).
Proof.
  induction l as [|v l IH]; intros sr Hleaves HC σ H.
  - simpl. left. auto.
  - inversion Hleaves as [|? ? Hv Hl]; subst.
    rewrite process_cons. unfold bind.
    assert (HCv : C -> accepted_leaf σ0 v = true /\
              (is_shadow v = true -> sr = None /\ valid_shadow_host_name nm = true)).
    { intros HCt. destruct (HC HCt) as [Hacc Hsh]. simpl in Hacc.
      apply andb_true_iff in Hacc as [Hacc _]. split; [exact Hacc|].
      intros Hs. unfold shadow_leaves in Hsh. simpl in Hsh. rewrite Hs in Hsh.
      simpl in Hsh. destruct Hsh as [?|(_ & ? & ?)]; [discriminate | auto]. }
    pose proof (process_leaf_assembling C sr v Hv HCv σ H) as Hstep.
    destruct (process_child el v σ) as [[[]|e] σ1]; [|exact Hstep].
    unfold shadow_leaves in *. simpl.
    destruct (is_shadow v) eqn:Hs; simpl.
    + destruct Hstep as (Hsr & r & H1).
      assert (HCl : C -> forallb (accepted_leaf σ0) l = true /\
                (length (List.filter is_shadow l) = 0 \/
                 (length (List.filter is_shadow l) = 1 /\ Some r = None /\
                  valid_shadow_host_name nm = true))).
      { intros HCt. destruct (HC HCt) as [Hacc Hsh]. simpl in Hacc, Hsh.
        rewrite Hs in Hsh. simpl in Hsh.
        apply andb_true_iff in Hacc as [_ Hacc]. split; [exact Hacc|].
        left. destruct Hsh as [?|(? & _)]; [discriminate | lia]. }
      specialize (IH (Some r) Hl HCl σ1 H1).
      destruct (process el l σ1) as [[[]|e] σ2]; [|exact IH].
      destruct IH as [(Hz & H2)|(_ & ? & _)]; [|discriminate].
      right. split; [lia|]. split; [exact Hsr|]. exists r. exact H2.
    + assert (HCl : C -> forallb (accepted_leaf σ0) l = true /\
                (length (List.filter is_shadow l) = 0 \/
                 (length (List.filter is_shadow l) = 1 /\ sr = None /\
                  valid_shadow_host_name nm = true))).
      { intros HCt. destruct (HC HCt) as [Hacc Hsh]. simpl in Hacc, Hsh.
        rewrite Hs in Hsh.
        apply andb_true_iff in Hacc as [_ Hacc]. split; [exact Hacc | exact Hsh]. }
      specialize (IH sr Hl HCl σ1 Hstep).
      destruct (process el l σ1) as [[[]|e] σ2]; exact IH.
Qed.
End Assembling.

(** ** Attributes: what is read after a write *)

Lemma attr_named_spec σ qn r :
  attr_named σ qn r = true <-> exists x, σ !! r = Some (NAttr x) /\ name x = qn.
Proof.
  unfold attr_named. destruct (σ !! r) as [[ | |x| ]|]; split;
    try discriminate; try (intros (y & Hy & _); discriminate).
  - intros H. apply String.eqb_eq in H. eauto.
  - intros (y & [= <-] & <-). apply String.eqb_refl.
Qed.

Lemma attr_named_alter (f : Node -> Node) i σ qn r :
  (forall n, attr_name_of (f n) = attr_name_of n) ->
  attr_named (alter f i σ) qn r = attr_named σ qn r.
Proof.
  intros Hf. unfold attr_named. destruct (decide (i = r)) as [->|Hne].
  - rewrite list_lookup_alter_eq. destruct (σ !! r) as [n|]; simpl; [|reflexivity].
    specialize (Hf n). destruct (f n) as [ | |y| ], n as [ | |x| ];
      simpl in Hf; try discriminate; try reflexivity.
    injection Hf as ->. reflexivity.
  - rewrite list_lookup_alter_ne by exact Hne. reflexivity.
Qed.

Lemma find_ext {A} (p q : A -> bool) l :
  (forall x, In x l -> p x = q x) -> List.find p l = List.find q l.
Proof.
  induction l as [|x l IH]; intros H; simpl; [reflexivity|].
  rewrite (H x) by (left; reflexivity).
  destruct (q x); [reflexivity|]. apply IH. intros y Hy. apply H. right. exact Hy.
Qed.

Lemma find_snoc_only {A} (p : A -> bool) l n :
  p n = true -> (forall x, In x l -> p x = true -> x = n) ->
  List.find p (l ++ [n]) = Some n.
Proof.
  intros Hn. induction l as [|x l IH]; intros H; simpl.
  - rewrite Hn. reflexivity.
  - destruct (p x) eqn:Hx.
    + f_equal. apply H; [left; reflexivity | exact Hx].
    + apply IH. intros y Hy. apply H. right. exact Hy.
Qed.

Lemma attr_named_snoc σ n qn r :
  r <> length σ -> attr_named (σ ++ [n]) qn r = attr_named σ qn r.
Proof.
  intros Hr. unfold attr_named. destruct (decide (r < length σ)) as [Hlt|Hge].
  - rewrite lookup_app_l by exact Hlt. reflexivity.
  - rewrite !lookup_ge_None_2; [reflexivity | lia |].
    rewrite length_app. simpl. lia.
Qed.

Lemma set_value_name v n : attr_name_of (set_value v n) = attr_name_of n.
Proof. destruct n; reflexivity. Qed.

Lemma set_owner_name o n : attr_name_of (set_owner o n) = attr_name_of n.
Proof. destruct n; reflexivity. Qed.

Lemma set_attributes_name f n : attr_name_of (set_attributes f n) = attr_name_of n.
Proof. destruct n; reflexivity. Qed.

Lemma find_attribute_Some σ el qn r :
  find_attribute σ el qn = Some r ->
  exists e x, σ !! el = Some (NElement e) /\ In r (attributes e) /\
              σ !! r = Some (NAttr x) /\ name x = qn.
Proof.
  unfold find_attribute. destruct (σ !! el) as [[e| | | ]|]; try discriminate.
  intros H. apply find_some in H as [Hin Hn].
  apply attr_named_spec in Hn as (x & Hx & Hnm). eauto 6.
Qed.

Lemma has_attribute_true σ el qn :
  has_attribute σ el qn = true ->
  exists r cur, find_attribute σ el (ascii_lowercase qn) = Some r /\
                get_attribute σ el qn = Some cur.
Proof.
  unfold has_attribute, get_attribute. intros H.
  apply bool_decide_eq_true in H as [r Hr]. rewrite Hr. simpl.
  destruct (find_attribute_Some _ _ _ _ Hr) as (e & x & _ & _ & Hx & _).
  unfold attr_value_at. rewrite Hx. eauto.
Qed.

Lemma has_attribute_false σ el qn :
  has_attribute σ el qn = false ->
  find_attribute σ el (ascii_lowercase qn) = None /\ get_attribute σ el qn = None.
Proof.
  unfold has_attribute, get_attribute. intros H.
  apply bool_decide_eq_false in H.
  destruct (find_attribute σ el (ascii_lowercase qn)); [|auto].
  exfalso. apply H. eauto.
Qed.

(** [setAttribute] on a name the element has: the value is replaced. *)
Lemma setAttribute_present σ el qn v r :
  valid_attribute_local_name qn = true ->
  find_attribute σ el (ascii_lowercase qn) = Some r ->
  setAttribute el qn v σ = (Normal tt, alter (set_value v) r σ) /\
  get_attribute (alter (set_value v) r σ) el qn = Some v.
Proof.
  intros Hv Hfind. split.
  - unfold setAttribute. rewrite Hv. msimpl. rewrite Hfind. reflexivity.
  - destruct (find_attribute_Some _ _ _ _ Hfind) as (e & x & He & Hin & Hx & Hnm).
    assert (Hne : r <> el) by (intros ->; congruence).
    unfold get_attribute, find_attribute in *.
    rewrite list_lookup_alter_ne, He by exact Hne. rewrite He in Hfind.
    rewrite (find_ext _ (attr_named σ (ascii_lowercase qn))), Hfind.
    + simpl. unfold attr_value_at. rewrite list_lookup_alter_eq, Hx. reflexivity.
    + intros y _. apply attr_named_alter. apply set_value_name.
Qed.

(** [setAttribute] on a name the element does not have: a new attribute. *)
Lemma setAttribute_absent σ el e qn v :
  σ !! el = Some (NElement e) ->
  valid_attribute_local_name qn = true ->
  find_attribute σ el (ascii_lowercase qn) = None ->
  exists σ', setAttribute el qn v σ = (Normal tt, σ') /\
             get_attribute σ' el qn = Some v /\
             exists e', σ' !! el = Some (NElement e') /\ same_but_attributes e e'.
Proof.
  intros He Hv Hfind. eexists. split; [|split].
  - unfold setAttribute. rewrite Hv. msimpl. rewrite Hfind. reflexivity.
  - pose proof (lookup_lt_Some _ _ _ He) as Hlt.
    unfold get_attribute, find_attribute in *. rewrite He in Hfind.
    rewrite list_lookup_alter_eq, lookup_app_l, He by exact Hlt. simpl.
    rewrite (find_snoc_only _ _ (length σ)).
    + simpl. unfold attr_value_at.
      rewrite list_lookup_alter_ne, list_lookup_middle by (reflexivity || lia).
      reflexivity.
    + rewrite attr_named_alter by apply set_attributes_name.
      apply attr_named_spec. eexists. split; [apply list_lookup_middle; reflexivity|].
      reflexivity.
    + intros y Hy Hn. destruct (decide (y = length σ)) as [|Hne]; [assumption|].
      rewrite attr_named_alter in Hn by apply set_attributes_name.
      rewrite attr_named_snoc in Hn by exact Hne.
      pose proof (find_none _ _ Hfind y Hy) as Hnone. congruence.
  - pose proof (lookup_lt_Some _ _ _ He) as Hlt.
    rewrite list_lookup_alter_eq, lookup_app_l, He by exact Hlt. simpl.
    eexists. split; [reflexivity|]. repeat split.
Qed.

(** One [Attr] child: the attribute is set, or its value grows. *)
Lemma handleAttributeNode_merge σ el e r x :
  σ !! el = Some (NElement e) ->
  σ !! r = Some (NAttr x) ->
  ascii_lowercase (name x) = name x ->
  valid_attribute_local_name (name x) = true ->
  exists σ', handleAttributeNode el r σ = (Normal tt, σ') /\
             get_attribute σ' el (name x)
             = Some (merged (get_attribute σ el (name x)) (value x)) /\
             exists e', σ' !! el = Some (NElement e') /\ same_but_attributes e e'.
Proof.
  intros He Hx Hlow Hv. unfold handleAttributeNode. msimpl. rewrite Hx. msimpl.
  destruct (has_attribute σ el (name x)) eqn:Hhas.
  - destruct (has_attribute_true _ _ _ Hhas) as (r0 & cur & Hfind & Hget).
    msimpl. rewrite Hget.
    destruct (setAttribute_present σ el (name x)
                (concat_value (Some cur) (value x)) r0 Hv Hfind) as [Hrun Hafter].
    rewrite Hrun. eexists. split; [reflexivity|]. split; [exact Hafter|].
    destruct (find_attribute_Some _ _ _ _ Hfind) as (e1 & y & _ & _ & Hy & _).
    exists e. split; [|repeat split].
    rewrite list_lookup_alter_ne; [exact He | congruence].
  - destruct (has_attribute_false _ _ _ Hhas) as [Hfind Hget].
    rewrite Hlow in Hfind. rewrite Hget. msimpl. rewrite Hx. msimpl.
    pose proof (lookup_lt_Some _ _ _ He) as Hlt.
    set (clone := NAttr {| name := name x; value := value x; ownerElement := None |}).
    assert (Hc : (σ ++ [clone]) !! length σ = Some clone)
      by (apply list_lookup_middle; reflexivity).
    assert (He1 : (σ ++ [clone]) !! el = Some (NElement e))
      by (rewrite lookup_app_l by exact Hlt; exact He).
    assert (Hnone : forall y, In y (attributes e) ->
              attr_named (σ ++ [clone]) (name x) y = true -> y = length σ).
    { intros y Hy Hn. destruct (decide (y = length σ)) as [|Hne]; [assumption|].
      rewrite attr_named_snoc in Hn by exact Hne.
      unfold find_attribute in Hfind. rewrite He in Hfind.
      pose proof (find_none _ _ Hfind y Hy). congruence. }
    unfold setAttributeNode. msimpl. rewrite Hc. subst clone. msimpl.
    cbn [ownerElement name value]. rewrite bool_decide_eq_true_2 by auto.
    destruct (find_attribute (σ ++ _) el (name x)) as [old|] eqn:Hf1.
    + destruct (find_attribute_Some _ _ _ _ Hf1) as (e1 & y & He1' & Hin & Hy & Hnm).
      rewrite He1 in He1'. injection He1' as <-.
      assert (Hold : old = length σ).
      { apply Hnone; [exact Hin|]. apply attr_named_spec. eauto. }
      subst old. rewrite decide_True by reflexivity. msimpl.
      eexists. split; [reflexivity|].
      split; [|exists e; split; [exact He1 | repeat split]].
      unfold get_attribute. rewrite Hlow, Hf1. simpl.
      unfold attr_value_at. rewrite Hc. reflexivity.
    + msimpl. eexists. split; [reflexivity|].
      assert (Hel : alter (set_attributes (fun l => l ++ [length σ])) el
                      (alter (set_owner (Some el)) (length σ)
                         (σ ++ [NAttr {| name := name x; value := value x;
                                         ownerElement := None |}])) !! el
                    = Some (NElement {| localName := localName e;
                                        attributes := attributes e ++ [length σ];
                                        childNodes := childNodes e;
                                        eventListeners := eventListeners e;
                                        shadowRoot := shadowRoot e |})).
      { rewrite list_lookup_alter_eq, list_lookup_alter_ne, He1 by lia. reflexivity. }
      split; [|eexists; split; [exact Hel | repeat split]].
      unfold get_attribute, find_attribute. rewrite Hlow, Hel. simpl attributes.
      rewrite (find_snoc_only _ _ (length σ)).
      * simpl. unfold attr_value_at.
        rewrite list_lookup_alter_ne, list_lookup_alter_eq, Hc by lia. reflexivity.
      * rewrite !attr_named_alter by (apply set_attributes_name || apply set_owner_name).
        apply attr_named_spec. eauto.
      * intros y Hy Hn.
        rewrite !attr_named_alter in Hn by (apply set_attributes_name || apply set_owner_name).
        apply Hnone; assumption.
Qed.

(** One entry of an attribute object. *)
Lemma handleAttributeObject_entry σ el e key v :
  σ !! el = Some (NElement e) ->
  valid_attribute_local_name key = true ->
  exists σ', handleAttributeObject el [(key, v)] σ = (Normal tt, σ') /\
             get_attribute σ' el key
             = Some (merged (get_attribute σ el key) (newValue_of v)) /\
             exists e', σ' !! el = Some (NElement e') /\ same_but_attributes e e'.
Proof.
  intros He Hv. unfold handleAttributeObject. simpl for_each. msimpl.
  destruct (has_attribute σ el key) eqn:Hhas.
  - destruct (has_attribute_true _ _ _ Hhas) as (r0 & cur & Hfind & Hget).
    msimpl. rewrite Hget.
    destruct (setAttribute_present σ el key
                (concat_value (Some cur) (newValue_of v)) r0 Hv Hfind) as [Hrun Hafter].
    rewrite Hrun. eexists. split; [reflexivity|]. split; [exact Hafter|].
    destruct (find_attribute_Some _ _ _ _ Hfind) as (e1 & y & _ & _ & Hy & _).
    exists e. split; [|repeat split].
    rewrite list_lookup_alter_ne; [exact He | congruence].
  - destruct (has_attribute_false _ _ _ Hhas) as [Hfind Hget]. rewrite Hget.
    destruct (setAttribute_absent σ el e key (newValue_of v) He Hv Hfind)
      as (σ' & Hrun & Hafter & He').
    rewrite Hrun. eauto.
Qed.

(** ** Child lists *)

(** Appending the nodes of a list one after the other leaves each node
    once, at the place of its last occurrence. *)
Lemma foldl_moved_last (l acc : list Ref) :
  foldl moved_last acc l = filter (fun r => r ∉ l) acc ++ remove_dups l.
Proof.
  revert acc. induction l as [|c l IH]; intros acc; simpl.
  - rewrite app_nil_r. induction acc as [|x acc IHacc]; [reflexivity|].
    rewrite filter_cons_True by apply not_elem_of_nil. congruence.
  - rewrite IH. unfold moved_last, without.
    rewrite filter_app, list_filter_filter.
    rewrite (list_filter_iff _ (fun r => r ∉ c :: l)).
    + rewrite filter_singleton; [|exact [c]].
      destruct (decide_rel elem_of c l) as [Hin|Hin].
      * rewrite decide_False by auto. rewrite app_nil_r. reflexivity.
      * rewrite decide_True by exact Hin. rewrite <- app_assoc. reflexivity.
    + intros x. rewrite not_elem_of_cons. tauto.
Qed.

Lemma remove_dups_distinct (l : list Ref) : NoDup l -> remove_dups l = l.
Proof.
  intros Hnd. induction Hnd as [|x l Hx Hnd IH]; [reflexivity|].
  simpl. destruct (decide_rel elem_of x l) as [Hin|_]; [contradiction|].
  rewrite IH. reflexivity.
Qed.

Lemma foldl_moved_last_nil (l : list Ref) : foldl moved_last [] l = remove_dups l.
Proof. rewrite foldl_moved_last. reflexivity. Qed.


Lemma shadow_slot_alter (f : Node -> Node) i σ el :
  (forall e, exists e', f (NElement e) = NElement e' /\ shadowRoot e' = shadowRoot e) ->
  (forall n, (forall e, n <> NElement e) -> forall e, f n <> NElement e) ->
  shadow_slot (alter f i σ) el = shadow_slot σ el.
Proof.
  intros He Hn. unfold shadow_slot. destruct (decide (i = el)) as [->|Hne].
  - rewrite list_lookup_alter_eq. destruct (σ !! el) as [n|]; simpl; [|reflexivity].
    destruct n as [e| | | ].
    + destruct (He e) as (e' & -> & ->). reflexivity.
    + destruct (f (NText data)) eqn:Hf; try reflexivity.
      exfalso. eapply (Hn (NText data)); [discriminate | exact Hf].
    + destruct (f (NAttr a0)) eqn:Hf; try reflexivity.
      exfalso. eapply (Hn (NAttr a0)); [discriminate | exact Hf].
    + destruct (f (NShadowRoot s0)) eqn:Hf; try reflexivity.
      exfalso. eapply (Hn (NShadowRoot s0)); [discriminate | exact Hf].
  - rewrite list_lookup_alter_ne by exact Hne. reflexivity.
Qed.

Lemma shadow_slot_appendChild parent c σ el :
  shadow_slot (alter (push_child c) parent (detach c <$> σ)) el = shadow_slot σ el.
Proof.
  rewrite shadow_slot_alter.
  - unfold shadow_slot. rewrite list_lookup_fmap.
    destruct (σ !! el) as [[e| | | ]|]; reflexivity.
  - intros e. eexists. split; reflexivity.
  - intros [e| | | ] Hn e'; try discriminate. exfalso. eapply Hn. reflexivity.
Qed.

Lemma localName_of_appendChild parent c σ r :
  localName_of (alter (push_child c) parent (detach c <$> σ)) r = localName_of σ r.
Proof.
  unfold localName_of. destruct (decide (parent = r)) as [->|Hne].
  - rewrite list_lookup_alter_eq, list_lookup_fmap.
    destruct (σ !! r) as [[e| | | ]|]; reflexivity.
  - rewrite list_lookup_alter_ne, list_lookup_fmap by exact Hne.
    destruct (σ !! r) as [[e| | | ]|]; reflexivity.
Qed.

(** The loop that moves the nodes of a [Shadow] under the shadow root. *)
Lemma appendChildren_root l : forall σ root s,
  σ !! root = Some (NShadowRoot s) ->
  exists σ',
    for_each (fun childChild => appendChild root childChild ;;; ret tt) l σ
    = (Normal tt, σ') /\
    length σ' = length σ /\
    σ' !! root = Some (NShadowRoot
                         {| host := host s; mode := mode s;
                            adoptedStyleSheets := adoptedStyleSheets s;
                            rootChildNodes := foldl moved_last (rootChildNodes s) l |}) /\
    (forall el, shadow_slot σ' el = shadow_slot σ el) /\
    (forall r, localName_of σ' r = localName_of σ r).
Proof.
  induction l as [|c l IH]; intros σ root s Hroot.
  - exists σ. simpl. destruct s. auto.
  - simpl for_each. msimpl. unfold appendChild. msimpl.
    set (σ1 := alter (push_child c) root (detach c <$> σ)).
    assert (H1 : σ1 !! root = Some (NShadowRoot
                   {| host := host s; mode := mode s;
                      adoptedStyleSheets := adoptedStyleSheets s;
                      rootChildNodes := moved_last (rootChildNodes s) c |})).
    { unfold σ1. rewrite list_lookup_alter_eq, list_lookup_fmap, Hroot. reflexivity. }
    destruct (IH σ1 root _ H1) as (σ' & Hrun & Hlen & Hr & Hslot & Hname).
    exists σ'. split; [exact Hrun|]. split; [|split; [exact Hr|split]].
    + rewrite Hlen. unfold σ1. rewrite length_alter, length_fmap. reflexivity.
    + intros el. rewrite Hslot. apply shadow_slot_appendChild.
    + intros r. rewrite Hname. apply localName_of_appendChild.
Qed.

(** Installing the sheets replaces the list the root had. *)
Lemma set_adoptedStyleSheets_replaces σ root s l :
  σ !! root = Some (NShadowRoot s) ->
  forallb constructed l = true ->
  set_adoptedStyleSheets root l σ
  = (Normal tt, alter (set_sheets l) root σ) /\
  alter (set_sheets l) root σ !! root
  = Some (NShadowRoot {| host := host s; mode := mode s; adoptedStyleSheets := l;
                         rootChildNodes := rootChildNodes s |}).
Proof.
  intros Hroot Hall. split.
  - unfold set_adoptedStyleSheets. msimpl. rewrite Hall.
    replace (constructed_prefix l) with l; [reflexivity|].
    induction l as [|c l IH]; [reflexivity|]. simpl in *.
    apply andb_true_iff in Hall as [Hc Hl]. rewrite Hc, <- IH by exact Hl. reflexivity.
  - rewrite list_lookup_alter_eq, Hroot. reflexivity.
Qed.

(** A [Shadow] child on an element that may host a shadow root and has
    none. *)
Lemma process_child_shadow σ el e sh :
  σ !! el = Some (NElement e) ->
  valid_shadow_host_name (localName e) = true ->
  shadowRoot e = None ->
  forallb constructed (sheets sh) = true ->
  exists σ',
    process_child el (VShadow sh) σ = (Normal tt, σ') /\
    length σ' = S (length σ) /\
    shadow_slot σ' el = Some (length σ) /\
    σ' !! length σ
    = Some (NShadowRoot {| host := el; mode := open;
                           adoptedStyleSheets := sheets sh;
                           rootChildNodes := remove_dups (children sh) |}) /\
    (forall r, localName_of σ r = localName_of σ' r \/ localName_of σ r = None).
Proof.
  intros He Hv Hsr Hall. pose proof (lookup_lt_Some _ _ _ He) as Hlt.
  cbn [process_child]. unfold attachShadow. msimpl. rewrite He, Hv, Hsr. msimpl.
  set (root := NShadowRoot {| host := el; mode := open; adoptedStyleSheets := [];
                              rootChildNodes := [] |}).
  set (σ1 := alter (set_shadowRoot (length σ)) el (σ ++ [root])).
  assert (H1 : σ1 !! length σ = Some root).
  { unfold σ1. rewrite list_lookup_alter_ne by lia. apply list_lookup_middle. reflexivity. }
  destruct (set_adoptedStyleSheets_replaces σ1 (length σ) _ (sheets sh) H1 Hall)
    as [Hrun2 H2].
  rewrite Hrun2. simpl in H2.
  destruct (appendChildren_root (children sh) _ (length σ) _ H2)
    as (σ' & Hrun3 & Hlen & Hr & Hslot & Hname).
  exists σ'. split; [exact Hrun3|]. simpl in Hr.
  rewrite foldl_moved_last_nil in Hr.
  split; [|split; [|split; [exact Hr|]]].
  - rewrite Hlen, length_alter. unfold σ1.
    rewrite length_alter, length_app. simpl. lia.
  - rewrite Hslot. unfold shadow_slot.
    rewrite list_lookup_alter_ne by lia. unfold σ1.
    rewrite list_lookup_alter_eq, lookup_app_l, He by exact Hlt. reflexivity.
  - intros r. rewrite Hname. unfold localName_of.
    destruct (decide (r = length σ)) as [->|Hne].
    + right. rewrite lookup_ge_None_2 by lia. reflexivity.
    + left. rewrite list_lookup_alter_ne by auto. unfold σ1.
      destruct (decide (r = el)) as [->|Hne'].
      * rewrite list_lookup_alter_eq, lookup_app_l, He by exact Hlt. reflexivity.
      * rewrite list_lookup_alter_ne by auto.
        destruct (decide (r < length σ)).
        -- rewrite lookup_app_l by assumption. reflexivity.
        -- rewrite !lookup_ge_None_2; [reflexivity| |lia].
           rewrite length_app. simpl. lia.
Qed.

(** ** The factory as a whole *)

Lemma createElement_run name σ :
  valid_element_local_name name = true ->
  createElement name σ
  = (Normal (length σ), σ ++ [NElement (new_element (ascii_lowercase name))]).
Proof. intros Hv. unfold createElement. rewrite Hv. reflexivity. Qed.

Lemma createElement_invalid name σ :
  valid_element_local_name name = false ->
  createElement name σ = (Throw (DOMError InvalidCharacterError), σ).
Proof. intros Hv. unfold createElement. rewrite Hv. reflexivity. Qed.

Lemma assembling_start σ0 name :
  assembling σ0 (ascii_lowercase name) None
             (σ0 ++ [NElement (new_element (ascii_lowercase name))]).
Proof.
  split.
  - apply frame_alloc, frame_refl.
  - eexists. split; [apply list_lookup_middle; reflexivity|]. simpl. auto.
Qed.

(** [tag] from store [σ0]: a normal end returns the new element, node
    [length σ0], assembled with no shadow root or with one according to the
    number of [Shadow] children; an exception leaves the nodes of [σ0]
    framed, and is raised only when [C] fails, where [C] is any condition
    under which the host accepts the name and every child. *)
Lemma tag_assembles (C : Prop) name children σ0 :
  (C -> valid_element_local_name name = true /\
        accepted σ0 children = true /\
        (count_shadows children = 0 \/
         (count_shadows children = 1 /\
          valid_shadow_host_name (ascii_lowercase name) = true))) ->
  match tag name children σ0 with
  | (Normal el, σ') =>
      el = length σ0 /\
      ((count_shadows children = 0 /\
        assembling σ0 (ascii_lowercase name) None σ') \/
       (count_shadows children = 1 /\
        exists r, assembling σ0 (ascii_lowercase name) (Some r) σ'))
  | (Throw _, σ') => frame σ0 σ' /\ ~ C
  end.
Proof.
  intros HC. unfold tag.
  destruct (valid_element_local_name name) eqn:Hv.
  - unfold bind at 1. rewrite (createElement_run _ _ Hv).
    unfold bind at 1. rewrite process_flatten.
    pose proof (process_leaves_assembling σ0 (ascii_lowercase name) C
                  (flatten children) None (flatten_leaves children)) as Hp.
    assert (HC' : C -> forallb (accepted_leaf σ0) (flatten children) = true /\
              (shadow_leaves (flatten children) = 0 \/
               (shadow_leaves (flatten children) = 1 /\ @None Ref = None /\
                valid_shadow_host_name (ascii_lowercase name) = true))).
    { intros HCt. destruct (HC HCt) as (_ & Hacc & Hsh). split; [exact Hacc|].
      destruct Hsh as [?|[? ?]]; auto. }
    specialize (Hp HC' _ (assembling_start σ0 name)).
    destruct (process (length σ0) (flatten children) _) as [[[]|e] σ'].
    + simpl. split; [reflexivity|].
      destruct Hp as [[? ?]|(? & _ & ?)]; auto.
    + destruct Hp as [[sr [Hf _]] HnC]. split; assumption.
  - unfold bind. rewrite (createElement_invalid _ _ Hv). split.
    + apply frame_refl.
    + intros HCt. destruct (HC HCt) as [Hv' _]. congruence.
Qed.


Lemma tag_frame name children σ0 : frame σ0 (tag name children σ0).2.
Proof.
  pose proof (tag_assembles False name children σ0 (fun H => False_ind _ H)) as H.
  destruct (tag name children σ0) as [[el|e] σ']; simpl.
  - destruct H as [_ [[_ [Hf _]]|[_ [r [Hf _]]]]]; exact Hf.
  - destruct H as [H _]. exact H.
Qed.

(** What a normal end of [tag] says about shadow roots. *)
Lemma tag_shadow_slot name children σ0 el σ' :
  tag name children σ0 = (Normal el, σ') ->
  (count_shadows children = 0 /\ shadow_slot σ' el = None) \/
  (count_shadows children = 1 /\ exists r, shadow_slot σ' el = Some r).
Proof.
  intros Hrun.
  pose proof (tag_assembles False name children σ0 (fun H => False_ind _ H)) as H.
  rewrite Hrun in H. destruct H as [-> H]. unfold shadow_slot.
  destruct H as [[Hn [_ (e & He & _ & _ & Hs)]]|[Hn [r [_ (e & He & _ & _ & Hs)]]]];
    rewrite He, Hs; eauto.
Qed.

Lemma tag_localName name children σ0 el σ' :
  tag name children σ0 = (Normal el, σ') ->
  el = length σ0 /\ localName_of σ' el = Some (ascii_lowercase name).
Proof.
  intros Hrun.
  pose proof (tag_assembles False name children σ0 (fun H => False_ind _ H)) as H.
  rewrite Hrun in H. destruct H as [-> H]. split; [reflexivity|]. unfold localName_of.
  destruct H as [[Hn [_ (e & He & Hnm & _)]]|[Hn [r [_ (e & He & Hnm & _)]]]];
    rewrite He, Hnm; reflexivity.
Qed.

(** ** Text children *)

Lemma push_child_name c n : attr_name_of (push_child c n) = attr_name_of n.
Proof. destruct n; reflexivity. Qed.

Lemma lookup_snoc_text (σ : Heap) d r :
  (σ ++ [NText d]) !! r = σ !! r \/
  ((σ ++ [NText d]) !! r = Some (NText d) /\ σ !! r = None).
Proof.
  destruct (decide (r < length σ)) as [Hlt|Hge].
  - left. apply lookup_app_l. exact Hlt.
  - destruct (decide (r = length σ)) as [->|Hne].
    + right. split; [apply list_lookup_middle; reflexivity|].
      apply lookup_ge_None_2. lia.
    + left. rewrite !lookup_ge_None_2; [reflexivity|lia|].
      rewrite length_app. simpl. lia.
Qed.

Lemma attr_named_text_child σ parent c d qn r :
  attr_named (alter (push_child c) parent (detach c <$> (σ ++ [NText d]))) qn r
  = attr_named σ qn r.
Proof.
  rewrite attr_named_alter by apply push_child_name.
  unfold attr_named. rewrite list_lookup_fmap.
  destruct (lookup_snoc_text σ d r) as [->|[-> ->]]; [|reflexivity].
  destruct (σ !! r) as [[ | | | ]|]; reflexivity.
Qed.

Lemma attr_value_at_text_child σ parent c d r :
  parent <> r \/ (exists e, σ !! parent = Some (NElement e)) ->
  attr_value_at (alter (push_child c) parent (detach c <$> (σ ++ [NText d]))) r
  = attr_value_at σ r.
Proof.
  intros Hp. unfold attr_value_at.
  destruct (decide (parent = r)) as [->|Hne].
  - destruct Hp as [?|[e He]]; [congruence|].
    rewrite list_lookup_alter_eq, list_lookup_fmap,
      (lookup_app_l_Some _ _ _ _ He), He. reflexivity.
  - rewrite list_lookup_alter_ne, list_lookup_fmap by exact Hne.
    destruct (lookup_snoc_text σ d r) as [->|[-> ->]]; [|reflexivity].
    destruct (σ !! r) as [[ | | | ]|]; reflexivity.
Qed.

Lemma process_child_falls htmlTag v σ :
  falls_to_text v = true -> process_child htmlTag v σ = appendText htmlTag v σ.
Proof.
  intros Hv. destruct v; try discriminate Hv; try reflexivity.
  simpl in *. rewrite Hv. reflexivity.
Qed.

(** A child that is converted to text: a new text node, appended last;
    the attributes of the element are not touched. *)
Lemma process_child_text σ el e v data :
  σ !! el = Some (NElement e) ->
  falls_to_text v = true ->
  ToString v = Some data ->
  exists σ',
    process_child el v σ = (Normal tt, σ') /\
    length σ' = S (length σ) /\
    σ' !! length σ = Some (NText data) /\
    (exists e', σ' !! el = Some (NElement e') /\
                childNodes e' = without (length σ) (childNodes e) ++ [length σ] /\
                localName e' = localName e /\ attributes e' = attributes e /\
                eventListeners e' = eventListeners e /\ shadowRoot e' = shadowRoot e) /\
    (forall qn, get_attribute σ' el qn = get_attribute σ el qn).
Proof.
  intros He Hv Hs. pose proof (lookup_lt_Some _ _ _ He) as Hlt.
  exists (alter (push_child (length σ)) el (detach (length σ) <$> (σ ++ [NText data]))).
  assert (Hel : alter (push_child (length σ)) el
                  (detach (length σ) <$> (σ ++ [NText data])) !! el
                = Some (push_child (length σ) (detach (length σ) (NElement e)))).
  { rewrite list_lookup_alter_eq, list_lookup_fmap, lookup_app_l, He by exact Hlt.
    reflexivity. }
  split; [|split; [|split; [|split]]].
  - rewrite (process_child_falls _ _ _ Hv). unfold appendText. rewrite Hs. reflexivity.
  - rewrite length_alter, length_fmap, length_app. simpl. lia.
  - rewrite list_lookup_alter_ne, list_lookup_fmap, list_lookup_middle by (lia || reflexivity).
    reflexivity.
  - eexists. split; [exact Hel|]. simpl. repeat split.
  - intros qn. unfold get_attribute, find_attribute. rewrite Hel, He. simpl.
    rewrite (find_ext _ (attr_named σ (ascii_lowercase qn)))
      by (intros; apply attr_named_text_child).
    destruct (List.find _ (attributes e)) as [r|]; [|reflexivity]. simpl.
    apply attr_value_at_text_child. right. eauto.
Qed.


Lemma frame_attr_named σ σ' qn r :
  frame σ σ' -> r < length σ ->
  attr_named σ' qn r = attr_named σ qn r /\ attr_value_at σ' r = attr_value_at σ r.
Proof.
  intros Hf Hr. apply lookup_lt_is_Some in Hr as [n Hn].
  destruct (Hf _ _ Hn) as (n' & Hn' & Hu). unfold attr_named, attr_value_at.
  rewrite Hn, Hn'. destruct n, n'; simpl in Hu; try contradiction; subst; auto.
Qed.

(** An element of the framed part whose attributes are nodes of that part
    has the attribute values it had. *)
Lemma get_attribute_frame σ σ' el e qn :
  frame σ σ' ->
  σ !! el = Some (NElement e) ->
  Forall (fun r => r < length σ) (attributes e) ->
  get_attribute σ' el qn = get_attribute σ el qn.
Proof.
  intros Hf He Ha. destruct (Hf _ _ He) as (n' & Hn' & Hu).
  destruct n' as [e'| | | ]; simpl in Hu; try contradiction.
  destruct Hu as (_ & Hattrs & _).
  unfold get_attribute, find_attribute. rewrite He, Hn', Hattrs.
  rewrite Forall_forall in Ha.
  rewrite (find_ext _ (attr_named σ (ascii_lowercase qn))).
  - destruct (List.find _ (attributes e)) as [r|] eqn:Hfind; [|reflexivity]. simpl.
    apply find_some in Hfind as [Hin _].
    apply (frame_attr_named σ σ' qn r Hf). apply Ha, list_elem_of_In, Hin.
  - intros r Hin. apply (frame_attr_named σ σ' _ r Hf). apply Ha, list_elem_of_In, Hin.
Qed.

(** ** Running the factory step by step *)

Lemma alter_snoc (f : Node -> Node) (σ : Heap) n :
  alter f (length σ) (σ ++ [n]) = σ ++ [f n].
Proof.
  pose proof (alter_app_r f σ [n] 0) as H. rewrite Nat.add_0_r in H. exact H.
Qed.

Lemma alter_at_length (f : Node -> Node) (σ : Heap) n l :
  alter f (length σ) (σ ++ n :: l) = σ ++ f n :: l.
Proof.
  pose proof (alter_app_r f σ (n :: l) 0) as H. rewrite Nat.add_0_r in H. exact H.
Qed.

Lemma alter_after_length (f : Node -> Node) (σ : Heap) n m l :
  alter f (S (length σ)) (σ ++ n :: m :: l) = σ ++ n :: f m :: l.
Proof.
  pose proof (alter_app_r f σ (n :: m :: l) 1) as H. rewrite Nat.add_1_r in H. exact H.
Qed.

Lemma alter_second_after_length (f : Node -> Node) (σ : Heap) n m k l :
  alter f (S (S (length σ))) (σ ++ n :: m :: k :: l) = σ ++ n :: m :: f k :: l.
Proof.
  pose proof (alter_app_r f σ (n :: m :: k :: l) 2) as H.
  replace (length σ + 2) with (S (S (length σ))) in H by lia. exact H.
Qed.

Lemma length_string_app (s t : string) :
  String.length (s +:+ t) = String.length s + String.length t.
Proof. induction s as [|c s IH]; simpl; [reflexivity | rewrite IH; reflexivity]. Qed.

(** [attr(key, value)] makes a new attribute node, owned by no element,
    with the name in lower case. *)
Lemma attr_makes key v σ :
  valid_attribute_local_name key = true ->
  attr key v σ
  = (Normal (length σ),
     σ ++ [NAttr {| name := ascii_lowercase key; value := v; ownerElement := None |}]).
Proof.
  intros Hv. unfold attr, createAttribute. rewrite Hv. msimpl.
  rewrite alter_snoc. reflexivity.
Qed.

Lemma tag_run name children σ σ' :
  valid_element_local_name name = true ->
  process (length σ) children (σ ++ [NElement (new_element (ascii_lowercase name))])
  = (Normal tt, σ') ->
  tag name children σ = (Normal (length σ), σ').
Proof.
  intros Hv Hrun. unfold tag, bind. rewrite (createElement_run _ _ Hv), Hrun.
  reflexivity.
Qed.

Lemma tag_run_throw name children σ σ' ex :
  valid_element_local_name name = true ->
  process (length σ) children (σ ++ [NElement (new_element (ascii_lowercase name))])
  = (Throw ex, σ') ->
  tag name children σ = (Throw ex, σ').
Proof.
  intros Hv Hrun. unfold tag, bind. rewrite (createElement_run _ _ Hv), Hrun.
  reflexivity.
Qed.

Lemma process_cons_run htmlTag v rest σ σ1 :
  process_child htmlTag v σ = (Normal tt, σ1) ->
  process htmlTag (v :: rest) σ = process htmlTag rest σ1.
Proof. intros Hrun. rewrite process_cons. unfold bind. rewrite Hrun. reflexivity. Qed.

Lemma process_cons_throw htmlTag v rest σ σ1 ex :
  process_child htmlTag v σ = (Throw ex, σ1) ->
  process htmlTag (v :: rest) σ = (Throw ex, σ1).
Proof. intros Hrun. rewrite process_cons. unfold bind. rewrite Hrun. reflexivity. Qed.

Lemma get_attribute_no_attributes σ el e qn :
  σ !! el = Some (NElement e) -> attributes e = [] -> get_attribute σ el qn = None.
Proof.
  intros He Ha. unfold get_attribute, find_attribute. rewrite He, Ha. reflexivity.
Qed.

(** An [Attr] child of an element that has no attribute yet: the store
    after it, node by node. *)
Lemma handleAttributeNode_fresh σ el e r x :
  σ !! el = Some (NElement e) -> attributes e = [] ->
  σ !! r = Some (NAttr x) ->
  handleAttributeNode el r σ
  = (Normal tt,
     alter (set_attributes (fun l => l ++ [length σ])) el
       (alter (set_owner (Some el)) (length σ)
          (σ ++ [NAttr {| name := name x; value := value x; ownerElement := None |}]))).
Proof.
  intros He Ha Hx. pose proof (lookup_lt_Some _ _ _ He) as Hlt.
  unfold handleAttributeNode. msimpl. rewrite Hx. msimpl.
  unfold has_attribute, find_attribute. rewrite He, Ha. simpl List.find.
  rewrite bool_decide_eq_false_2 by (intros [? ?]; discriminate).
  msimpl. rewrite Hx. msimpl.
  unfold setAttributeNode. msimpl. rewrite list_lookup_middle by reflexivity. msimpl.
  cbn [ownerElement name value]. rewrite bool_decide_eq_true_2 by auto.
  unfold find_attribute. rewrite lookup_app_l, He, Ha by exact Hlt. reflexivity.
Qed.

(** The store after [tag(name, attrNode)]. *)
Lemma tag_single_attr σ r x name :
  σ !! r = Some (NAttr x) ->
  ascii_lowercase (DOM.name x) = DOM.name x ->
  valid_element_local_name name = true ->
  exists σ1 e c,
    tag name [VAttr r] σ = (Normal (length σ), σ1) /\
    σ1 !! length σ = Some (NElement e) /\
    localName e = ascii_lowercase name /\
    attributes e = [c] /\ c < length σ1 /\ c <> r /\
    σ1 !! c = Some (NAttr {| DOM.name := DOM.name x; value := value x;
                             ownerElement := Some (length σ) |}) /\
    get_attribute σ1 (length σ) (DOM.name x) = Some (value x) /\
    σ1 !! r = Some (NAttr x).
Proof.
  intros Hx Hlow Hv.
  pose proof (lookup_lt_Some _ _ _ Hx) as Hr.
  set (σa := σ ++ [NElement (new_element (ascii_lowercase name))]).
  assert (Ha : σa !! length σ = Some (NElement (new_element (ascii_lowercase name))))
    by (apply list_lookup_middle; reflexivity).
  assert (Hra : σa !! r = Some (NAttr x)) by (apply lookup_app_l_Some; exact Hx).
  assert (Hlen : length σa = S (length σ)) by (unfold σa; rewrite length_app; simpl; lia).
  pose proof (handleAttributeNode_fresh σa (length σ) _ r x Ha eq_refl Hra) as Hrun.
  set (clone := NAttr {| DOM.name := DOM.name x; value := value x; ownerElement := None |})
    in Hrun.
  set (σ1 := alter (set_attributes (fun l => l ++ [length σa])) (length σ)
               (alter (set_owner (Some (length σ))) (length σa) (σa ++ [clone]))) in Hrun.
  assert (H1e : σ1 !! length σ
                = Some (NElement {| localName := ascii_lowercase name;
                                    attributes := [length σa]; childNodes := [];
                                    eventListeners := []; shadowRoot := None |})).
  { unfold σ1. rewrite list_lookup_alter_eq, list_lookup_alter_ne by lia.
    rewrite (lookup_app_l_Some _ _ _ _ Ha). reflexivity. }
  assert (H1c : σ1 !! length σa
                = Some (NAttr {| DOM.name := DOM.name x; value := value x;
                                 ownerElement := Some (length σ) |})).
  { unfold σ1. rewrite list_lookup_alter_ne, list_lookup_alter_eq by lia.
    rewrite list_lookup_middle by reflexivity. reflexivity. }
  exists σ1. eexists. exists (length σa).
  split; [|split; [exact H1e|split; [reflexivity|split; [reflexivity|]]]].
  - apply (tag_run name); [exact Hv|]. fold σa.
    rewrite (process_cons_run _ (VAttr r) _ σa σ1 Hrun). reflexivity.
  - split; [|split; [lia|split; [exact H1c|split]]].
    + unfold σ1. rewrite !length_alter, length_app. simpl. lia.
    + unfold get_attribute, find_attribute. rewrite H1e, Hlow. simpl.
      unfold attr_named. rewrite H1c. simpl. rewrite String.eqb_refl. simpl.
      unfold attr_value_at. rewrite H1c. reflexivity.
    + unfold σ1. rewrite !list_lookup_alter_ne by lia.
      apply lookup_app_l_Some. exact Hra.
Qed.


(** * The claims *)

(** C3.  Flattening is transparent: [tag(name, [[x, [y]], z])] does what
    [tag(name, x, y, z)] does, from every store; an array child does what
    its items do in its place, and so a children list does what the list
    of its leaves, depth first and left to right, does. *)
Theorem flattening_is_transparent :
  (forall name x y z σ,
      tag name [VArray [VArray [x; VArray [y]]; z]] σ = tag name [x; y; z] σ) /\
  (forall name pre items post σ,
      tag name (pre ++ VArray items :: post) σ = tag name (pre ++ items ++ post) σ) /\
  (forall name children σ,
      tag name children σ = tag name (flatten children) σ /\
      Forall (fun v => is_array v = false) (flatten children)).
Proof.
  split; [|split].
  - intros name x y z σ. apply tag_process_ext. intros htmlTag σ'.
    rewrite (process_flatten _ [_]), (process_flatten _ [x; y; z]).
    f_equal. simpl. rewrite !app_nil_r, <- !app_assoc. reflexivity.
  - intros name pre items post σ. apply tag_process_ext. intros htmlTag σ'.
    apply process_inline.
  - intros name children σ. split; [|apply flatten_leaves].
    apply tag_process_ext. intros htmlTag σ'. apply process_flatten.
Qed.

(** C5.  [on(types, handler, options)] returns one [EventListener] per
    type in the space-separated string, in order, each with the handler
    and the options given: for the types [ts] joined with single spaces it
    is the list of the bindings of [ts]; for any string, the types are the
    pieces between the spaces (as many as there are spaces, plus one);
    [on("click touchstart", h, o)] is the two bindings for click and
    touchstart. *)
Theorem on_one_binding_per_type types handler opts :
  (forall ts,
      ts <> [] -> Forall (fun t => occurrences " " t = 0) ts ->
      on (join " " ts) handler opts
      = (fun t => {| type := t; callback := handler; options := opts |}) <$> ts) /\
  type <$> on types handler opts = split " " types /\
  Forall (fun l => callback l = handler /\ options l = opts) (on types handler opts) /\
  length (on types handler opts) = S (occurrences " " types) /\
  join " " (type <$> on types handler opts) = types /\
  Forall (fun l => occurrences " " (type l) = 0) (on types handler opts) /\
  on "click touchstart" handler opts
  = [ {| type := "click"; callback := handler; options := opts |};
      {| type := "touchstart"; callback := handler; options := opts |} ].
Proof.
  assert (Htypes : type <$> on types handler opts = split " " types).
  { unfold on. rewrite <- list_fmap_compose. apply list_fmap_id. }
  split; [|split; [exact Htypes|]; split; [|split; [|split; [|split]]]].
  - intros ts Hne Hfree. unfold on. rewrite (split_join " "%char ts Hne Hfree).
    reflexivity.
  - unfold on. apply Forall_fmap, Forall_true. intros t. simpl. auto.
  - unfold on. rewrite length_fmap. apply length_split.
  - rewrite Htypes. apply (join_split " "%char).
  - unfold on. apply Forall_fmap. simpl. apply split_pieces_free.
  - reflexivity.
Qed.

Lemma on_one_binding_per_type_witness :
  on (join " " ["click"; "touchstart"; "keydown"]) 7 None
  = [ {| type := "click"; callback := 7; options := None |};
      {| type := "touchstart"; callback := 7; options := None |};
      {| type := "keydown"; callback := 7; options := None |} ].
Proof.
  apply (proj1 (on_one_binding_per_type "" 7 None) ["click"; "touchstart"; "keydown"]).
  - discriminate.
  - repeat constructor.
Defined.

(** C9.  The closure [shortTag(name, ...x)] applied to [y] is
    [tag(name, ...x, ...y)]: the element is created, the preset children
    are processed, then the children of the call. *)
Theorem shortTag_prepends_presets name x y σ :
  shortTag name x y σ = tag name (x ++ y) σ /\
  shortTag name x y σ
  = (htmlTag <- createElement name ;;
     process htmlTag x ;;; process htmlTag y ;;; ret htmlTag) σ.
Proof.
  split; [reflexivity|]. unfold shortTag, tag. apply bind_ext. intros htmlTag σ'.
  etransitivity; [apply bind_cong; [apply process_app | reflexivity]|].
  apply bind_assoc.
Qed.

(** C10.  The shortcut [h5] builds an element named h6: [h5(...children)]
    is [tag('h6', ...children)], which is what [h6] is. *)
Theorem h5_builds_h6 children σ :
  h5 children σ = tag "h6" children σ /\
  h5 children σ = h6 children σ /\
  (forall el σ', h5 children σ = (Normal el, σ') -> localName_of σ' el = Some "h6").
Proof.
  split; [reflexivity|]. split; [reflexivity|].
  intros el σ' Hrun. apply (tag_localName "h6" children σ el σ' Hrun).
Qed.

Lemma h5_builds_h6_witness :
  localName_of (h5 [VString "title"] []).2 (length (@nil Node)) = Some "h6".
Proof.
  exact (proj2 (proj2 (h5_builds_h6 [VString "title"] [])) 0 _ eq_refl).
Defined.

(** C7.  [tag("div", attr("class", "a"), {class: ["b", "c"]}, "hi")]
    yields, from every store, a div whose class attribute is "a b c" and
    whose only child is the text node "hi".  In general the strings of a
    sequence-valued entry of an attribute object are joined with one space
    before the merge, and a string child becomes a new text node appended
    as the last child. *)
Theorem div_class_text_example :
  (forall σ0, exists el text σ',
      (a <- attr "class" "a" ;;
       tag "div" [VAttr a; VObject [("class", Many ["b"; "c"])]; VString "hi"]) σ0
      = (Normal el, σ') /\
      localName_of σ' el = Some "div" /\
      get_attribute σ' el "class" = Some "a b c" /\
      children_of σ' el = [text] /\
      σ' !! text = Some (NText "hi")) /\
  (forall σ el e key l,
      σ !! el = Some (NElement e) ->
      valid_attribute_local_name key = true ->
      exists σ', handleAttributeObject el [(key, Many l)] σ = (Normal tt, σ') /\
                 get_attribute σ' el key
                 = Some (merged (get_attribute σ el key) (join " " l))) /\
  (forall σ el e s,
      σ !! el = Some (NElement e) ->
      exists σ', process_child el (VString s) σ = (Normal tt, σ') /\
                 σ' !! length σ = Some (NText s) /\
                 children_of σ' el = without (length σ) (childNodes e) ++ [length σ]).
Proof.
  split; [|split].
  - intros σ0.
    set (σ1 := σ0 ++ [NAttr {| name := "class"; value := "a"; ownerElement := None |}]).
    set (σ2 := σ1 ++ [NElement (new_element "div")]).
    assert (H2el : σ2 !! length σ1 = Some (NElement (new_element "div")))
      by (apply list_lookup_middle; reflexivity).
    assert (H2a : σ2 !! length σ0
                  = Some (NAttr {| name := "class"; value := "a"; ownerElement := None |})).
    { unfold σ2. apply lookup_app_l_Some. apply list_lookup_middle. reflexivity. }
    destruct (handleAttributeNode_merge σ2 (length σ1) _ (length σ0) _ H2el H2a
                eq_refl eq_refl) as (σ3 & Hrun3 & Hget3 & e3 & He3 & Hsame3).
    rewrite (get_attribute_no_attributes σ2 _ _ _ H2el eq_refl) in Hget3.
    cbn [name value merged] in Hget3.
    destruct (handleAttributeObject_entry σ3 (length σ1) e3 "class" (Many ["b"; "c"])
                He3 eq_refl) as (σ4 & Hrun4 & Hget4 & e4 & He4 & Hsame4).
    rewrite Hget3 in Hget4. cbn [merged newValue_of join] in Hget4.
    destruct (process_child_text σ4 (length σ1) e4 (VString "hi") "hi" He4 eq_refl eq_refl)
      as (σ5 & Hrun5 & Hlen5 & Htext & (e5 & He5 & Hch & Hnm & _) & Hget5).
    exists (length σ1), (length σ4), σ5. split; [|split; [|split; [|split]]].
    + unfold bind at 1. rewrite (attr_makes "class" "a" σ0 eq_refl). fold σ1.
      apply (tag_run "div"); [reflexivity|]. fold σ2.
      rewrite (process_cons_run _ (VAttr _) _ σ2 σ3 Hrun3).
      rewrite (process_cons_run _ (VObject [("class", Many ["b"; "c"])]) _ σ3 σ4 Hrun4).
      rewrite (process_cons_run _ (VString _) _ σ4 σ5 Hrun5).
      reflexivity.
    + unfold localName_of. rewrite He5, Hnm.
      destruct Hsame4 as [-> _], Hsame3 as [-> _]. reflexivity.
    + rewrite Hget5. exact Hget4.
    + unfold children_of. rewrite He5, Hch.
      destruct Hsame4 as (_ & -> & _), Hsame3 as (_ & -> & _). reflexivity.
    + exact Htext.
  - intros σ el e key l He Hv.
    destruct (handleAttributeObject_entry σ el e key (Many l) He Hv)
      as (σ' & Hrun & Hget & _). eauto.
  - intros σ el e s He.
    destruct (process_child_text σ el e (VString s) s He eq_refl eq_refl)
      as (σ' & Hrun & _ & Htext & (e' & He' & Hch & _) & _).
    exists σ'. split; [exact Hrun|]. split; [exact Htext|].
    unfold children_of. rewrite He'. exact Hch.
Qed.

Lemma div_class_text_example_witness :
  (exists σ', handleAttributeObject 0 [("class", Many ["b"; "c"])]
                [NElement (new_element "div")] = (Normal tt, σ') /\
              get_attribute σ' 0 "class" = Some "b c") /\
  (exists σ', process_child 0 (VString "hi") [NElement (new_element "div")]
              = (Normal tt, σ') /\
              σ' !! 1 = Some (NText "hi") /\
              children_of σ' 0 = [1]).
Proof.
  destruct div_class_text_example as (_ & Hentry & Htext). split.
  - exact (Hentry [NElement (new_element "div")] 0 _ "class" ["b"; "c"] eq_refl eq_refl).
  - exact (Htext [NElement (new_element "div")] 0 _ "hi" eq_refl).
Defined.

(** C6.  A [Shadow] child, on an element that may host a shadow root and
    has none, with sheets the host adopts: exactly one node is created,
    an open shadow root hosted by the element; its adopted style sheets are
    the sheets of the [Shadow] (whatever list a root had, the assignment
    replaces it); its children are the nodes of the [Shadow] in their
    order (a node listed twice stands once, where it was listed last).
    Attaching [shadow(sheet1, tag("span", "s"))] to a div gives a div with
    one shadow root that has the one sheet and the span as its one child. *)
Theorem shadow_child_attaches_root :
  (forall σ el e sh,
      σ !! el = Some (NElement e) ->
      valid_shadow_host_name (localName e) = true ->
      shadowRoot e = None ->
      forallb constructed (sheets sh) = true ->
      exists σ',
        process_child el (VShadow sh) σ = (Normal tt, σ') /\
        length σ' = S (length σ) /\
        shadow_slot σ' el = Some (length σ) /\
        σ' !! length σ
        = Some (NShadowRoot {| host := el; mode := open;
                               adoptedStyleSheets := sheets sh;
                               rootChildNodes := remove_dups (children sh) |}) /\
        (NoDup (children sh) -> remove_dups (children sh) = children sh)) /\
  (forall σ root s l,
      σ !! root = Some (NShadowRoot s) ->
      forallb constructed l = true ->
      exists σ',
        set_adoptedStyleSheets root l σ = (Normal tt, σ') /\
        σ' !! root
        = Some (NShadowRoot {| host := host s; mode := mode s; adoptedStyleSheets := l;
                               rootChildNodes := rootChildNodes s |})) /\
  (forall σ0 sheet1,
      constructed sheet1 = true ->
      exists sp dv root σ',
        (sp <- tag "span" [VString "s"] ;;
         sh <- shadow [VStyleSheet sheet1; VElement sp] ;;
         dv <- tag "div" [VShadow sh] ;;
         ret (sp, dv)) σ0 = (Normal (sp, dv), σ') /\
        localName_of σ' dv = Some "div" /\
        shadow_slot σ' dv = Some root /\
        σ' !! root
        = Some (NShadowRoot {| host := dv; mode := open;
                               adoptedStyleSheets := [sheet1];
                               rootChildNodes := [sp] |}) /\
        localName_of σ' sp = Some "span").
Proof.
  split; [|split].
  - intros σ el e sh He Hv Hs Hall.
    destruct (process_child_shadow σ el e sh He Hv Hs Hall)
      as (σ' & Hrun & Hlen & Hslot & Hroot & _).
    exists σ'. repeat (split; [assumption|]).
    apply remove_dups_distinct.
  - intros σ root s l Hroot Hall.
    destruct (set_adoptedStyleSheets_replaces σ root s l Hroot Hall) as [Hrun Hafter].
    eauto.
  - intros σ0 sheet1 Hc.
    set (σa := σ0 ++ [NElement (new_element "span")]).
    assert (Ha : σa !! length σ0 = Some (NElement (new_element "span")))
      by (apply list_lookup_middle; reflexivity).
    destruct (process_child_text σa (length σ0) _ (VString "s") "s" Ha eq_refl eq_refl)
      as (σ1 & Hrun1 & Hlen1 & _ & (e1 & He1 & _ & Hnm1 & _) & _).
    assert (Htag1 : tag "span" [VString "s"] σ0 = (Normal (length σ0), σ1)).
    { apply (tag_run "span"); [reflexivity|]. fold σa.
      rewrite (process_cons_run _ _ _ σa σ1 Hrun1). reflexivity. }
    set (sh := {| children := [length σ0]; sheets := [sheet1] |}).
    set (σb := σ1 ++ [NElement (new_element "div")]).
    assert (Hb : σb !! length σ1 = Some (NElement (new_element "div")))
      by (apply list_lookup_middle; reflexivity).
    assert (Hall : forallb constructed (sheets sh) = true)
      by (simpl; rewrite Hc; reflexivity).
    destruct (process_child_shadow σb (length σ1) _ sh Hb eq_refl eq_refl Hall)
      as (σ' & Hrun2 & Hlen2 & Hslot & Hroot & Hnames).
    assert (Htag2 : tag "div" [VShadow sh] σ1 = (Normal (length σ1), σ')).
    { apply (tag_run "div"); [reflexivity|]. fold σb.
      rewrite (process_cons_run _ _ _ σb σ' Hrun2). reflexivity. }
    exists (length σ0), (length σ1), (length σb), σ'.
    split; [|split; [|split; [|split]]].
    + unfold bind at 1. rewrite Htag1. unfold bind at 1.
      change (shadow [VStyleSheet sheet1; VElement (length σ0)] σ1)
        with (@Normal Shadow sh, σ1).
      cbv beta iota. unfold bind. rewrite Htag2. reflexivity.
    + destruct (Hnames (length σ1)) as [<-|Hn].
      * unfold localName_of. rewrite Hb. reflexivity.
      * unfold localName_of in Hn. rewrite Hb in Hn. discriminate.
    + exact Hslot.
    + exact Hroot.
    + assert (Hsp : localName_of σb (length σ0) = Some "span").
      { unfold localName_of, σb. rewrite (lookup_app_l_Some _ _ _ _ He1), Hnm1.
        reflexivity. }
      destruct (Hnames (length σ0)) as [<-|Hn]; [exact Hsp | congruence].
Qed.

Lemma shadow_child_attaches_root_witness :
  (exists σ',
      process_child 0 (VShadow {| children := [1]; sheets := [sample_sheet] |})
        [NElement (new_element "div"); NText "s"] = (Normal tt, σ') /\
      length σ' = 3 /\
      shadow_slot σ' 0 = Some 2 /\
      σ' !! 2 = Some (NShadowRoot {| host := 0; mode := open;
                                     adoptedStyleSheets := [sample_sheet];
                                     rootChildNodes := [1] |})) /\
  (exists σ',
      set_adoptedStyleSheets 0 [sample_sheet]
        [NShadowRoot {| host := 7; mode := open; adoptedStyleSheets := [];
                        rootChildNodes := [] |}] = (Normal tt, σ') /\
      σ' !! 0 = Some (NShadowRoot {| host := 7; mode := open;
                                     adoptedStyleSheets := [sample_sheet];
                                     rootChildNodes := [] |})) /\
  (exists sp dv root σ',
      (sp <- tag "span" [VString "s"] ;;
       sh <- shadow [VStyleSheet sample_sheet; VElement sp] ;;
       dv <- tag "div" [VShadow sh] ;;
       ret (sp, dv)) [] = (Normal (sp, dv), σ') /\
      localName_of σ' dv = Some "div" /\
      shadow_slot σ' dv = Some root /\
      σ' !! root = Some (NShadowRoot {| host := dv; mode := open;
                                        adoptedStyleSheets := [sample_sheet];
                                        rootChildNodes := [sp] |}) /\
      localName_of σ' sp = Some "span").
Proof.
  destruct shadow_child_attaches_root as (Hchild & Hsheets & Hexample).
  split; [|split].
  - destruct (Hchild [NElement (new_element "div"); NText "s"] 0 _
                {| children := [1]; sheets := [sample_sheet] |} eq_refl eq_refl eq_refl eq_refl)
      as (σ' & Hrun & Hlen & Hslot & Hroot & _).
    exists σ'. auto.
  - exact (Hsheets [NShadowRoot {| host := 7; mode := open; adoptedStyleSheets := [];
                                     rootChildNodes := [] |}] 0 _ [sample_sheet] eq_refl eq_refl).
  - exact (Hexample [] sample_sheet eq_refl).
Defined.

(** C8.  An [Attr] given as a child is never attached itself: [tag]
    leaves every node the store had as it was, child lists apart, so the
    [Attr] keeps its name, value and owner; the element gets a copy, a new
    node that it owns.  The same [Attr] can therefore be given to one
    construction after the other, and each element made carries the
    attribute. *)
Theorem attr_child_is_cloned :
  (forall name children σ,
      frame σ (tag name children σ).2 /\
      forall r x, σ !! r = Some (NAttr x) ->
                  (tag name children σ).2 !! r = Some (NAttr x)) /\
  (forall σ r x name,
      σ !! r = Some (NAttr x) ->
      ascii_lowercase (DOM.name x) = DOM.name x ->
      valid_element_local_name name = true ->
      exists σ1 c,
        tag name [VAttr r] σ = (Normal (length σ), σ1) /\
        find_attribute σ1 (length σ) (DOM.name x) = Some c /\ c <> r /\
        σ1 !! c = Some (NAttr {| DOM.name := DOM.name x; value := value x;
                                 ownerElement := Some (length σ) |}) /\
        σ1 !! r = Some (NAttr x)) /\
  (forall σ r x name1 name2,
      σ !! r = Some (NAttr x) ->
      ascii_lowercase (DOM.name x) = DOM.name x ->
      valid_element_local_name name1 = true ->
      valid_element_local_name name2 = true ->
      exists el1 el2 σ1 σ2,
        tag name1 [VAttr r] σ = (Normal el1, σ1) /\
        tag name2 [VAttr r] σ1 = (Normal el2, σ2) /\
        el1 <> el2 /\
        get_attribute σ2 el1 (DOM.name x) = Some (value x) /\
        get_attribute σ2 el2 (DOM.name x) = Some (value x) /\
        σ2 !! r = Some (NAttr x)) /\
  (forall σ0 key v name1 name2,
      valid_attribute_local_name key = true ->
      valid_element_local_name name1 = true ->
      valid_element_local_name name2 = true ->
      exists a el1 el2 σ',
        (a <- attr key v ;;
         el1 <- tag name1 [VAttr a] ;;
         el2 <- tag name2 [VAttr a] ;;
         ret (a, el1, el2)) σ0 = (Normal (a, el1, el2), σ') /\
        el1 <> el2 /\
        get_attribute σ' el1 key = Some v /\
        get_attribute σ' el2 key = Some v /\
        σ' !! a = Some (NAttr {| DOM.name := ascii_lowercase key; value := v;
                                 ownerElement := None |})).
Proof.
  assert (Hreuse : forall σ r x name1 name2,
      σ !! r = Some (NAttr x) ->
      ascii_lowercase (DOM.name x) = DOM.name x ->
      valid_element_local_name name1 = true ->
      valid_element_local_name name2 = true ->
      exists el1 el2 σ1 σ2,
        tag name1 [VAttr r] σ = (Normal el1, σ1) /\
        tag name2 [VAttr r] σ1 = (Normal el2, σ2) /\
        el1 <> el2 /\
        get_attribute σ2 el1 (DOM.name x) = Some (value x) /\
        get_attribute σ2 el2 (DOM.name x) = Some (value x) /\
        σ2 !! r = Some (NAttr x)).
  { intros σ r x name1 name2 Hx Hlow Hv1 Hv2.
    destruct (tag_single_attr σ r x name1 Hx Hlow Hv1)
      as (σ1 & e1 & c1 & Hrun1 & He1 & _ & Ha1 & Hc1 & _ & _ & Hget1 & Hr1).
    destruct (tag_single_attr σ1 r x name2 Hr1 Hlow Hv2)
      as (σ2 & e2 & c2 & Hrun2 & He2 & _ & _ & _ & _ & _ & Hget2 & Hr2).
    exists (length σ), (length σ1), σ1, σ2.
    split; [exact Hrun1|]. split; [exact Hrun2|].
    pose proof (lookup_lt_Some _ _ _ He1) as Hlt.
    split; [lia|]. split; [|split; [exact Hget2 | exact Hr2]].
    rewrite <- Hget1.
    pose proof (tag_frame name2 [VAttr r] σ1) as Hf. rewrite Hrun2 in Hf.
    apply (get_attribute_frame σ1 σ2 (length σ) e1 _ Hf He1).
    rewrite Ha1. repeat constructor. exact Hc1. }
  split; [|split; [|split; [exact Hreuse|]]].
  - intros name children σ. split; [apply tag_frame|].
    intros r x Hx. eapply frame_attr; [apply tag_frame | exact Hx].
  - intros σ r x name Hx Hlow Hv.
    destruct (tag_single_attr σ r x name Hx Hlow Hv)
      as (σ1 & e & c & Hrun & He & _ & Ha & _ & Hne & Hc & _ & Hr).
    exists σ1, c. repeat (split; [assumption|]). split; [|split; [|split]]; try assumption.
    unfold find_attribute. rewrite He, Ha. simpl. unfold attr_named. rewrite Hc.
    simpl. rewrite String.eqb_refl. reflexivity.
  - intros σ0 key v name1 name2 Hk Hv1 Hv2.
    set (x := {| DOM.name := ascii_lowercase key; value := v; ownerElement := None |}).
    destruct (Hreuse (σ0 ++ [NAttr x]) (length σ0) x name1 name2)
      as (el1 & el2 & σ1 & σ2 & Hrun1 & Hrun2 & Hne & Hget1 & Hget2 & Hr);
      [apply list_lookup_middle; reflexivity | apply ascii_lowercase_idempotent
      | exact Hv1 | exact Hv2 |].
    exists (length σ0), el1, el2, σ2. split; [|split; [exact Hne|]].
    + unfold bind at 1. rewrite (attr_makes key v σ0 Hk). fold x.
      unfold bind at 1. rewrite Hrun1. unfold bind. rewrite Hrun2. reflexivity.
    + simpl in Hget1, Hget2. rewrite get_attribute_lowercase in Hget1, Hget2. auto.
Qed.

Lemma attr_child_is_cloned_witness :
  (tag "div" [VAttr 0; VString "x"] [sample_attr]).2 !! 0 = Some sample_attr /\
  (exists σ1 c,
      tag "div" [VAttr 0] [sample_attr] = (Normal 1, σ1) /\
      find_attribute σ1 1 "class" = Some c /\ c <> 0 /\
      σ1 !! c = Some (NAttr {| DOM.name := "class"; value := "a";
                               ownerElement := Some 1 |}) /\
      σ1 !! 0 = Some sample_attr) /\
  (exists el1 el2 σ1 σ2,
      tag "p" [VAttr 0] [sample_attr] = (Normal el1, σ1) /\
      tag "span" [VAttr 0] σ1 = (Normal el2, σ2) /\
      el1 <> el2 /\
      get_attribute σ2 el1 "class" = Some "a" /\
      get_attribute σ2 el2 "class" = Some "a" /\
      σ2 !! 0 = Some sample_attr) /\
  (exists a el1 el2 σ',
      (a <- attr "id" "x" ;;
       el1 <- tag "p" [VAttr a] ;;
       el2 <- tag "span" [VAttr a] ;;
       ret (a, el1, el2)) [] = (Normal (a, el1, el2), σ') /\
      el1 <> el2 /\
      get_attribute σ' el1 "id" = Some "x" /\
      get_attribute σ' el2 "id" = Some "x" /\
      σ' !! a = Some (NAttr {| DOM.name := "id"; value := "x"; ownerElement := None |})).
Proof.
  destruct attr_child_is_cloned as (Hframe & Hcopy & Hreuse & Hmade).
  split; [|split; [|split; [|exact (Hmade [] "id" "x" "p" "span" eq_refl eq_refl eq_refl)]]].
  - exact (proj2 (Hframe "div" [VAttr 0; VString "x"] [sample_attr]) 0 _ eq_refl).
  - exact (Hcopy [sample_attr] 0 _ "div" eq_refl eq_refl eq_refl).
  - exact (Hreuse [sample_attr] 0 _ "p" "span" eq_refl eq_refl eq_refl eq_refl).
Defined.

(** C4, as the code has it.  An element that [tag] returns has no shadow
    root when no [Shadow] is among the children and one when there is
    exactly one; with two or more [Shadow]s the call raises and returns no
    element.  With two [Shadow] children the first root is attached with
    its content and the second [attachShadow] raises NotSupportedError. *)
Theorem at_most_one_shadow_root :
  (forall name children σ el σ',
      tag name children σ = (Normal el, σ') ->
      (count_shadows children = 0 /\ shadow_slot σ' el = None) \/
      (count_shadows children = 1 /\ exists r, shadow_slot σ' el = Some r)) /\
  (forall name children σ,
      2 <= count_shadows children ->
      exists ex σ', tag name children σ = (Throw ex, σ')) /\
  (forall name s1 s2 σ,
      valid_element_local_name name = true ->
      valid_shadow_host_name (ascii_lowercase name) = true ->
      forallb constructed (sheets s1) = true ->
      exists σ',
        tag name [VShadow s1; VShadow s2] σ = (Throw (DOMError NotSupportedError), σ') /\
        shadow_slot σ' (length σ) = Some (S (length σ)) /\
        σ' !! S (length σ)
        = Some (NShadowRoot {| host := length σ; mode := open;
                               adoptedStyleSheets := sheets s1;
                               rootChildNodes := remove_dups (children s1) |})).
Proof.
  split; [|split].
  - intros name children σ el σ' Hrun. eapply tag_shadow_slot. exact Hrun.
  - intros name children σ Hn.
    destruct (tag name children σ) as [[el|ex] σ'] eqn:Hrun; [|eauto].
    destruct (tag_shadow_slot _ _ _ _ _ Hrun) as [[? _]|[? _]]; lia.
  - intros name s1 s2 σ Hv Hhost Hall.
    set (σa := σ ++ [NElement (new_element (ascii_lowercase name))]).
    assert (Ha : σa !! length σ = Some (NElement (new_element (ascii_lowercase name))))
      by (apply list_lookup_middle; reflexivity).
    assert (Hlen : length σa = S (length σ)) by (unfold σa; rewrite length_app; simpl; lia).
    destruct (process_child_shadow σa (length σ) _ s1 Ha Hhost eq_refl Hall)
      as (σ1 & Hrun1 & _ & Hslot & Hroot & Hnames).
    rewrite Hlen in Hslot, Hroot.
    exists σ1. split; [|split; [exact Hslot | exact Hroot]].
    apply (tag_run_throw name); [exact Hv|]. fold σa.
    rewrite (process_cons_run _ _ _ σa σ1 Hrun1). apply process_cons_throw.
    assert (Hnm : localName_of σ1 (length σ) = Some (ascii_lowercase name)).
    { destruct (Hnames (length σ)) as [<-|Hn];
        unfold localName_of in *; rewrite Ha in *; [reflexivity | discriminate]. }
    unfold shadow_slot in Hslot. unfold localName_of in Hnm.
    cbn [process_child]. unfold attachShadow. msimpl.
    destruct (σ1 !! length σ) as [[e1| | | ]|]; try discriminate.
    injection Hnm as ->. rewrite Hhost, Hslot. reflexivity.
Qed.

Lemma at_most_one_shadow_root_witness :
  ((count_shadows [VString "x"; VShadow empty_shadow] = 0 /\
    shadow_slot [NElement {| localName := "div"; attributes := []; childNodes := [1];
                             eventListeners := []; shadowRoot := Some 2 |};
                 NText "x";
                 NShadowRoot {| host := 0; mode := open; adoptedStyleSheets := [];
                                rootChildNodes := [] |}] 0 = None) \/
   (count_shadows [VString "x"; VShadow empty_shadow] = 1 /\
    exists r,
      shadow_slot [NElement {| localName := "div"; attributes := []; childNodes := [1];
                               eventListeners := []; shadowRoot := Some 2 |};
                   NText "x";
                   NShadowRoot {| host := 0; mode := open; adoptedStyleSheets := [];
                                  rootChildNodes := [] |}] 0 = Some r)) /\
  (exists ex σ', tag "div" [VShadow empty_shadow; VArray [VShadow empty_shadow]] [] = (Throw ex, σ')) /\
  (exists σ',
      tag "div" [VShadow empty_shadow; VShadow empty_shadow] [] = (Throw (DOMError NotSupportedError), σ') /\
      shadow_slot σ' 0 = Some 1 /\
      σ' !! 1 = Some (NShadowRoot {| host := 0; mode := open; adoptedStyleSheets := [];
                                     rootChildNodes := [] |})).
Proof.
  destruct at_most_one_shadow_root as (Hslot & Hmany & Htwo).
  split; [|split].
  - exact (Hslot "div" [VString "x"; VShadow empty_shadow] [] 0 _ eq_refl).
  - apply (Hmany "div" [VShadow empty_shadow; VArray [VShadow empty_shadow]] []). vm_compute. lia.
  - exact (Htwo "div" empty_shadow empty_shadow [] eq_refl eq_refl eq_refl).
Defined.

(** C4, as the claim has it, fails: with two [Shadow] children the call
    raises, and the root that stays attached is the first one. *)
Lemma second_shadow_is_refused :
  tag "div" [VShadow {| children := []; sheets := [{| sheet_id := 1; constructed := true |}] |};
             VShadow {| children := []; sheets := [{| sheet_id := 2; constructed := true |}] |}]
      []
  = (Throw (DOMError NotSupportedError),
     [NElement {| localName := "div"; attributes := []; childNodes := [];
                  eventListeners := []; shadowRoot := Some 1 |};
      NShadowRoot {| host := 0; mode := open;
                     adoptedStyleSheets := [{| sheet_id := 1; constructed := true |}];
                     rootChildNodes := [] |}]).
Proof. vm_compute. reflexivity. Qed.




(** * Further properties of the code *)

(** ** tag: the name *)

(** X1.  The name decides how [tag] ends before any child is looked
    at: with a name that [document.createElement] refuses it raises
    InvalidCharacterError and the store is left as it was, whatever the
    children are; and whenever it returns, the name was a valid one and
    the result is a node that the store did not have, an element whose
    local name is the name in lower case. *)
Theorem tag_name_decides name children σ :
  (valid_element_local_name name = false ->
   tag name children σ = (Throw (DOMError InvalidCharacterError), σ)) /\
  (forall el σ',
      tag name children σ = (Normal el, σ') ->
      valid_element_local_name name = true /\
      el = length σ /\ length σ < length σ' /\
      localName_of σ' el = Some (ascii_lowercase name)).
Proof.
  assert (Hrefused : valid_element_local_name name = false ->
            tag name children σ = (Throw (DOMError InvalidCharacterError), σ)).
  { intros Hv. unfold tag, bind. rewrite (createElement_invalid _ _ Hv). reflexivity. }
  split; [exact Hrefused|]. intros el σ' Hrun.
  destruct (tag_localName _ _ _ _ _ Hrun) as [-> Hname].
  split; [|split; [reflexivity|split; [|exact Hname]]].
  - destruct (valid_element_local_name name); [reflexivity|].
    rewrite (Hrefused eq_refl) in Hrun. discriminate Hrun.
  - unfold localName_of in Hname.
    destruct (σ' !! length σ) as [n|] eqn:Hn; [|discriminate Hname].
    apply lookup_lt_Some in Hn. exact Hn.
Qed.

Lemma tag_name_decides_witness :
  tag "my tag" [VString "x"; VShadow empty_shadow] [sample_attr]
  = (Throw (DOMError InvalidCharacterError), [sample_attr]) /\
  localName_of (tag "DIV" mixed_children mixed_store).2 2 = Some "div".
Proof.
  split.
  - apply (proj1 (tag_name_decides "my tag" [VString "x"; VShadow empty_shadow]
                    [sample_attr])). reflexivity.
  - apply (proj2 (tag_name_decides "DIV" mixed_children mixed_store) 2
             (tag "DIV" mixed_children mixed_store).2 eq_refl).
Defined.

(** ** tag: element and text children *)

Lemma process_nodes htmlTag children : forall σ,
  Forall (fun v => is_Some (node_ref v)) children ->
  process htmlTag children σ
  = (Normal tt, foldl (appended htmlTag) σ (omap node_ref children)).
Proof.
  induction children as [|v children IH]; intros σ Hall; [reflexivity|].
  inversion Hall as [|? ? [r Hr] Hrest]; subst.
  assert (Hrun : process_child htmlTag v σ = (Normal tt, appended htmlTag σ r)).
  { destruct v; try discriminate Hr; injection Hr as ->; reflexivity. }
  rewrite (process_cons_run _ _ _ _ _ Hrun), (IH _ Hrest).
  simpl omap. rewrite Hr. reflexivity.
Qed.

Lemma length_foldl_appended el rs : forall σ,
  length (foldl (appended el) σ rs) = length σ.
Proof.
  induction rs as [|r rs IH]; intros σ; [reflexivity|].
  simpl. rewrite IH. unfold appended. rewrite length_alter, length_fmap. reflexivity.
Qed.

Lemma foldl_appended_parent el rs : forall σ e,
  σ !! el = Some (NElement e) ->
  foldl (appended el) σ rs !! el
  = Some (NElement {| localName := localName e; attributes := attributes e;
                      childNodes := foldl moved_last (childNodes e) rs;
                      eventListeners := eventListeners e;
                      shadowRoot := shadowRoot e |}).
Proof.
  induction rs as [|r rs IH]; intros σ e He; simpl.
  - rewrite He. destruct e. reflexivity.
  - rewrite (IH _ {| localName := localName e; attributes := attributes e;
                     childNodes := moved_last (childNodes e) r;
                     eventListeners := eventListeners e;
                     shadowRoot := shadowRoot e |}).
    + reflexivity.
    + unfold appended.
      rewrite list_lookup_alter_eq, list_lookup_fmap, He. reflexivity.
Qed.

Lemma children_of_appended_other el σ r p :
  p <> el -> children_of (appended el σ r) p = without r (children_of σ p).
Proof.
  intros Hp. unfold children_of, appended.
  rewrite list_lookup_alter_ne, list_lookup_fmap by auto.
  destruct (σ !! p) as [[e| | |s]|]; reflexivity.
Qed.

Lemma foldl_appended_other el rs p : forall σ,
  p <> el ->
  children_of (foldl (appended el) σ rs) p
  = filter (fun c => c ∉ rs) (children_of σ p).
Proof.
  induction rs as [|r rs IH]; intros σ Hp; simpl.
  - induction (children_of σ p) as [|x l IHl]; [reflexivity|].
    rewrite filter_cons_True by apply not_elem_of_nil. congruence.
  - rewrite IH by exact Hp. rewrite children_of_appended_other by exact Hp.
    unfold without. rewrite list_filter_filter. apply list_filter_iff.
    intros x. rewrite not_elem_of_cons. tauto.
Qed.

(** X2.  Children that are elements or text nodes are appended as they
    are, in the order given: the child list of the new element is the
    list of these nodes, a node given more than once standing once, at
    its last place.  The nodes are moved, not copied: every other parent
    loses the ones it had.  No node is created but the element. *)
Theorem tag_moves_nodes name children σ :
  valid_element_local_name name = true ->
  Forall (fun v => is_Some (node_ref v)) children ->
  exists σ',
    tag name children σ = (Normal (length σ), σ') /\
    length σ' = S (length σ) /\
    children_of σ' (length σ) = remove_dups (omap node_ref children) /\
    (NoDup (omap node_ref children) ->
     children_of σ' (length σ) = omap node_ref children) /\
    (forall parent,
        parent <> length σ ->
        children_of σ' parent
        = filter (fun c => c ∉ omap node_ref children) (children_of σ parent)).
Proof.
  intros Hv Hall.
  set (σa := σ ++ [NElement (new_element (ascii_lowercase name))]).
  set (rs := omap node_ref children).
  exists (foldl (appended (length σ)) σa rs).
  assert (Ha : σa !! length σ = Some (NElement (new_element (ascii_lowercase name))))
    by (apply list_lookup_middle; reflexivity).
  assert (Hch : children_of (foldl (appended (length σ)) σa rs) (length σ)
                = remove_dups rs).
  { unfold children_of. rewrite (foldl_appended_parent _ _ _ _ Ha). simpl.
    apply foldl_moved_last_nil. }
  split; [|split; [|split; [exact Hch|split]]].
  - apply (tag_run name); [exact Hv|]. apply process_nodes. exact Hall.
  - rewrite length_foldl_appended. unfold σa. rewrite length_app. simpl. lia.
  - intros Hnd. rewrite Hch. apply remove_dups_distinct. exact Hnd.
  - intros parent Hp. rewrite foldl_appended_other by exact Hp. f_equal.
    unfold children_of, σa. destruct (decide (parent < length σ)).
    + rewrite lookup_app_l by assumption. reflexivity.
    + rewrite !lookup_ge_None_2; [reflexivity|lia|].
      rewrite length_app. simpl. lia.
Qed.

Lemma tag_moves_nodes_witness :
  exists σ',
    tag "ul" [VElement 1; VText 2; VElement 1]
        [NElement {| localName := "div"; attributes := []; childNodes := [1; 2];
                     eventListeners := []; shadowRoot := None |};
         NElement (new_element "li"); NText "x"]
    = (Normal 3, σ') /\
    children_of σ' 3 = [2; 1] /\
    children_of σ' 0 = [].
Proof.
  destruct (tag_moves_nodes "ul" [VElement 1; VText 2; VElement 1]
              [NElement {| localName := "div"; attributes := []; childNodes := [1; 2];
                           eventListeners := []; shadowRoot := None |};
               NElement (new_element "li"); NText "x"] eq_refl)
    as (σ' & Hrun & _ & Hch & _ & Hother).
  - repeat constructor; eexists; reflexivity.
  - exists σ'. split; [exact Hrun|]. split; [exact Hch|].
    exact (Hother 0 ltac:(discriminate)).
Defined.

(** ** tag: children that become text *)

Lemma process_child_text_run htmlTag v data σ :
  falls_to_text v = true -> ToString v = Some data ->
  process_child htmlTag v σ
  = (Normal tt, appended htmlTag (σ ++ [NText data]) (length σ)).
Proof.
  intros Hv Hs. rewrite (process_child_falls _ _ _ Hv). unfold appendText.
  rewrite Hs. reflexivity.
Qed.

Lemma appended_text_kept el σ c j d :
  σ !! j = Some (NText d) -> appended el σ c !! j = Some (NText d).
Proof.
  intros Hj. unfold appended. destruct (decide (el = j)) as [->|Hne].
  - rewrite list_lookup_alter_eq, list_lookup_fmap, Hj. reflexivity.
  - rewrite list_lookup_alter_ne, list_lookup_fmap, Hj by exact Hne. reflexivity.
Qed.

Lemma without_absent c (l : list Ref) : Forall (fun r => r < c) l -> without c l = l.
Proof.
  intros Hall. unfold without. induction Hall as [|x l Hx _ IH]; [reflexivity|].
  rewrite filter_cons_True by lia. rewrite IH. reflexivity.
Qed.

Lemma process_texts el children : forall σ e,
  σ !! el = Some (NElement e) ->
  Forall (fun r => r < length σ) (childNodes e) ->
  Forall (fun v => falls_to_text v = true /\ is_Some (ToString v)) children ->
  exists σ' e',
    process el children σ = (Normal tt, σ') /\
    length σ' = length σ + length children /\
    σ' !! el = Some (NElement e') /\
    childNodes e' = childNodes e ++ seq (length σ) (length children) /\
    attributes e' = attributes e /\
    (forall i v, children !! i = Some v ->
                 σ' !! (length σ + i) = NText <$> ToString v) /\
    (forall j d, σ !! j = Some (NText d) -> σ' !! j = Some (NText d)).
Proof.
  induction children as [|v children IH]; intros σ e He Hch Hall.
  - exists σ, e. simpl. rewrite app_nil_r, Nat.add_0_r.
    repeat split; auto. intros i v Hi. discriminate.
  - inversion Hall as [|? ? [Hv [data Hs]] Hrest]; subst.
    pose proof (lookup_lt_Some _ _ _ He) as Hlt.
    set (σ1 := appended el (σ ++ [NText data]) (length σ)).
    assert (Hlen1 : length σ1 = S (length σ)).
    { unfold σ1, appended. rewrite length_alter, length_fmap, length_app. simpl. lia. }
    assert (He1 : σ1 !! el
                  = Some (NElement {| localName := localName e;
                                      attributes := attributes e;
                                      childNodes := childNodes e ++ [length σ];
                                      eventListeners := eventListeners e;
                                      shadowRoot := shadowRoot e |})).
    { unfold σ1, appended.
      rewrite list_lookup_alter_eq, list_lookup_fmap, lookup_app_l, He by exact Hlt.
      simpl. rewrite (without_absent _ _ Hch). reflexivity. }
    assert (Ht1 : σ1 !! length σ = Some (NText data)).
    { apply appended_text_kept. apply list_lookup_middle. reflexivity. }
    destruct (IH σ1 _ He1) as (σ' & e' & Hrun & Hlen & He' & Hch' & Ha' & Hnew & Hold).
    + simpl. rewrite Hlen1. apply Forall_app. split.
      * eapply Forall_impl; [exact Hch|]. simpl. lia.
      * repeat constructor.
    + exact Hrest.
    + exists σ', e'. split; [|split; [|split; [exact He'|split; [|split; [exact Ha'|split]]]]].
      * rewrite (process_cons_run _ _ _ _ _ (process_child_text_run el v data σ Hv Hs)).
        exact Hrun.
      * rewrite Hlen, Hlen1. simpl. lia.
      * rewrite Hch', Hlen1. simpl. rewrite <- app_assoc. reflexivity.
      * intros [|i] w Hi; simpl in Hi.
        -- injection Hi as <-. rewrite Nat.add_0_r, Hs. apply Hold. exact Ht1.
        -- replace (length σ + S i) with (length σ1 + i) by lia. apply Hnew. exact Hi.
      * intros j d Hj. apply Hold. apply appended_text_kept.
        apply lookup_app_l_Some. exact Hj.
Qed.

(** X3.  Children that [tag] converts to text (strings, booleans,
    numbers and the like, each with a string conversion) give one new text
    node each, in the order given: they are the nodes that follow the
    element in the store, the child list of the element is the list of
    them, and the i-th holds the string of the i-th child. *)
Theorem tag_texts_in_order name children σ :
  valid_element_local_name name = true ->
  Forall (fun v => falls_to_text v = true /\ is_Some (ToString v)) children ->
  exists σ',
    tag name children σ = (Normal (length σ), σ') /\
    length σ' = S (length σ) + length children /\
    children_of σ' (length σ) = seq (S (length σ)) (length children) /\
    (forall i v, children !! i = Some v ->
                 σ' !! (S (length σ) + i) = NText <$> ToString v).
Proof.
  intros Hv Hall.
  set (σa := σ ++ [NElement (new_element (ascii_lowercase name))]).
  assert (Ha : σa !! length σ = Some (NElement (new_element (ascii_lowercase name))))
    by (apply list_lookup_middle; reflexivity).
  assert (Hlen : length σa = S (length σ)) by (unfold σa; rewrite length_app; simpl; lia).
  destruct (process_texts (length σ) children σa _ Ha (Forall_nil_2 _) Hall)
    as (σ' & e' & Hrun & Hlen' & He' & Hch & _ & Hnew & _).
  rewrite Hlen in *. exists σ'. split; [|split; [exact Hlen'|split; [|exact Hnew]]].
  - apply (tag_run name); [exact Hv | exact Hrun].
  - unfold children_of. rewrite He'. exact Hch.
Qed.

Lemma tag_texts_in_order_witness :
  exists σ',
    tag "p" [VString "a"; VBoolean false; VOther (Some "3"); VString ""] [sample_attr]
    = (Normal 1, σ') /\
    children_of σ' 1 = [2; 3; 4; 5] /\
    σ' !! 3 = Some (NText "false") /\
    σ' !! 5 = Some (NText "").
Proof.
  destruct (tag_texts_in_order "p"
              [VString "a"; VBoolean false; VOther (Some "3"); VString ""]
              [sample_attr] eq_refl)
    as (σ' & Hrun & _ & Hch & Hnew).
  - repeat constructor; eexists; reflexivity.
  - exists σ'. split; [exact Hrun|]. split; [exact Hch|]. split.
    + exact (Hnew 1 _ eq_refl).
    + exact (Hnew 3 _ eq_refl).
Defined.

(** ** tag: event listeners *)

Lemma foldl_registered_NoDup l : forall acc,
  NoDup acc -> NoDup (foldl registered acc l).
Proof.
  induction l as [|x l IH]; intros acc Hacc; [exact Hacc|].
  simpl. apply IH. unfold registered. destruct (decide (x ∈ acc)) as [Hin|Hout].
  - exact Hacc.
  - apply NoDup_app. split; [exact Hacc|]. split.
    + intros y Hy Hy'. apply list_elem_of_singleton in Hy'. subst. contradiction.
    + apply NoDup_singleton.
Qed.

Lemma foldl_registered_elem l : forall acc x,
  x ∈ foldl registered acc l <-> x ∈ acc \/ x ∈ l.
Proof.
  induction l as [|y l IH]; intros acc x; simpl.
  - split; [auto|]. intros [H|H]; [exact H|]. inversion H.
  - rewrite IH. unfold registered. destruct (decide (y ∈ acc)) as [Hin|Hout].
    + rewrite elem_of_cons. split; [tauto|]. intros [H|[->|H]]; auto.
    + rewrite elem_of_app, list_elem_of_singleton, elem_of_cons. tauto.
Qed.

Lemma foldl_registered_distinct l : forall acc,
  NoDup (acc ++ l) -> foldl registered acc l = acc ++ l.
Proof.
  induction l as [|y l IH]; intros acc Hnd; simpl.
  - rewrite app_nil_r. reflexivity.
  - unfold registered. destruct (decide (y ∈ acc)) as [Hin|Hout].
    + apply NoDup_app in Hnd as (_ & Hdis & _). exfalso.
      apply (Hdis y Hin). left.
    + rewrite IH; rewrite <- app_assoc; [reflexivity | exact Hnd].
Qed.

Lemma process_listeners ls : forall σ e,
  process (length σ) (VEventListener <$> ls) (σ ++ [NElement e])
  = (Normal tt,
     σ ++ [NElement (listening e (foldl registered (eventListeners e)
                                        (to_listener <$> ls)))]).
Proof.
  induction ls as [|l ls IH]; intros σ e.
  - destruct e. reflexivity.
  - rewrite fmap_cons.
    rewrite (process_cons_run _ _ _ _
               (σ ++ [NElement (listening e (registered (eventListeners e)
                                                        (to_listener l)))])).
    + rewrite IH. reflexivity.
    + simpl. unfold addEventListener, modify. rewrite alter_snoc. reflexivity.
Qed.

(** X4.  [tag] with event listeners for children registers them on the
    new element and touches nothing else: the store gains the one element,
    with no attribute and no child.  A binding whose type, callback and
    capture flag are those of an earlier one is not registered again, so
    the listener list has no duplicate and holds exactly the bindings
    given; when these are distinct it is the list of them, in order. *)
Theorem tag_registers_listeners name ls σ :
  valid_element_local_name name = true ->
  let registry := foldl registered [] (to_listener <$> ls) in
  tag name (VEventListener <$> ls) σ
  = (Normal (length σ),
     σ ++ [NElement (listening (new_element (ascii_lowercase name)) registry)]) /\
  NoDup registry /\
  (forall x, x ∈ registry <-> x ∈ to_listener <$> ls) /\
  (NoDup (to_listener <$> ls) -> registry = to_listener <$> ls).
Proof.
  intros Hv registry. split; [|split; [|split]].
  - apply (tag_run name); [exact Hv|]. apply process_listeners.
  - apply foldl_registered_NoDup. constructor.
  - intros x. unfold registry. rewrite foldl_registered_elem.
    split; [intros [H|H]; [inversion H | exact H] | auto].
  - intros Hnd. apply (foldl_registered_distinct _ []). exact Hnd.
Qed.

Lemma tag_registers_listeners_witness :
  tag "button"
      [ VEventListener {| type := "click"; callback := 7; options := None |};
        VEventListener {| type := "click"; callback := 7;
                          options := Some {| capture := Some false |} |};
        VEventListener {| type := "click"; callback := 8; options := None |} ] []
  = (Normal 0,
     [ NElement {| localName := "button"; attributes := []; childNodes := [];
                   eventListeners :=
                     [ {| listener_type := "click"; listener_callback := 7;
                          listener_capture := false |};
                       {| listener_type := "click"; listener_callback := 8;
                          listener_capture := false |} ];
                   shadowRoot := None |} ]).
Proof.
  exact (proj1 (tag_registers_listeners "button"
                  [ {| type := "click"; callback := 7; options := None |};
                    {| type := "click"; callback := 7;
                       options := Some {| capture := Some false |} |};
                    {| type := "click"; callback := 8; options := None |} ]
                  [] eq_refl)).
Defined.

(** X5.  [tag(name, on(types, handler, options))] for distinct types
    joined with single spaces registers one listener per type on the new
    element, in the order of the string, each with the handler and with
    the capture flag of the options. *)
Theorem tag_on_registers_each_type name ts handler opts σ :
  valid_element_local_name name = true ->
  ts <> [] -> Forall (fun t => occurrences " " t = 0) ts -> NoDup ts ->
  tag name [VArray (VEventListener <$> on (join " " ts) handler opts)] σ
  = (Normal (length σ),
     σ ++ [NElement
             (listening (new_element (ascii_lowercase name))
                ((fun t => {| listener_type := t; listener_callback := handler;
                              listener_capture := flatten_options opts |}) <$> ts))]).
Proof.
  intros Hv Hne Hfree Hnd. apply (tag_run name); [exact Hv|].
  etransitivity; [exact (process_inline _ [] _ [] _)|].
  simpl app. rewrite app_nil_r, process_listeners. unfold on.
  rewrite (split_join " "%char ts Hne Hfree), <- list_fmap_compose.
  rewrite (foldl_registered_distinct _ []); [reflexivity|].
  simpl app. apply NoDup_fmap_2; [|exact Hnd].
  intros t1 t2 Heq. injection Heq as ->. reflexivity.
Qed.

Lemma tag_on_registers_each_type_witness :
  tag "button"
      [VArray (VEventListener <$> on "click touchstart" 7 (Some {| capture := Some true |}))]
      [sample_attr]
  = (Normal 1,
     [ sample_attr;
       NElement {| localName := "button"; attributes := []; childNodes := [];
                   eventListeners :=
                     [ {| listener_type := "click"; listener_callback := 7;
                          listener_capture := true |};
                       {| listener_type := "touchstart"; listener_callback := 7;
                          listener_capture := true |} ];
                   shadowRoot := None |} ]).
Proof.
  apply (tag_on_registers_each_type "button" ["click"; "touchstart"] 7
           (Some {| capture := Some true |}) [sample_attr] eq_refl).
  - discriminate.
  - repeat constructor.
  - apply (bool_decide_unpack (NoDup ["click"; "touchstart"])). vm_compute. reflexivity.
Defined.

(** ** tag: the attributes of the new element *)

Lemma built_element σ nm attrs :
  built σ nm attrs !! length σ
  = Some (NElement {| localName := nm;
                      attributes := seq (S (length σ)) (length attrs);
                      childNodes := []; eventListeners := [];
                      shadowRoot := None |}).
Proof. unfold built. apply list_lookup_middle. reflexivity. Qed.

Lemma built_attr σ nm attrs i :
  built σ nm attrs !! (S (length σ) + i) = owned_attr (length σ) <$> attrs !! i.
Proof.
  unfold built. rewrite lookup_app_r by lia.
  replace (S (length σ) + i - length σ) with (S i) by lia.
  simpl. rewrite list_lookup_fmap. reflexivity.
Qed.

Lemma built_old σ nm attrs r : r < length σ -> built σ nm attrs !! r = σ !! r.
Proof. intros Hr. unfold built. apply lookup_app_l. exact Hr. Qed.

Lemma length_built σ nm attrs :
  length (built σ nm attrs) = S (length σ) + length attrs.
Proof. unfold built. rewrite length_app. simpl. rewrite length_fmap. lia. Qed.

Lemma find_built_from σ nm attrs q : forall todo done,
  attrs = done ++ todo ->
  List.find (attr_named (built σ nm attrs) q)
            (seq (S (length σ) + length done) (length todo))
  = (fun i => S (length σ) + length done + i) <$> index_of q todo.
Proof.
  induction todo as [|[k c] todo IH]; intros done Heq; [reflexivity|].
  cbn [length seq List.find index_of].
  assert (Hk : attr_named (built σ nm attrs) q (S (length σ) + length done)
               = String.eqb k q).
  { unfold attr_named. rewrite built_attr, Heq, lookup_app_r, Nat.sub_diag by lia.
    reflexivity. }
  rewrite Hk. destruct (String.eqb k q).
  - simpl. f_equal. lia.
  - specialize (IH (done ++ [(k, c)])).
    rewrite length_app in IH. simpl length in IH.
    replace (S (S (length σ) + length done))
      with (S (length σ) + (length done + 1)) by lia.
    rewrite IH by (rewrite <- app_assoc; exact Heq).
    destruct (index_of q todo); simpl; [f_equal; lia | reflexivity].
Qed.

Lemma find_built σ nm attrs q :
  find_attribute (built σ nm attrs) (length σ) q
  = (fun i => S (length σ) + i) <$> index_of q attrs.
Proof.
  unfold find_attribute. rewrite built_element. cbn [attributes].
  pose proof (find_built_from σ nm attrs q attrs [] eq_refl) as H.
  simpl length in H. rewrite Nat.add_0_r in H. rewrite H.
  destruct (index_of q attrs); simpl; [f_equal; lia | reflexivity].
Qed.

Lemma index_of_Some q v attrs : forall i,
  index_of q attrs = Some i ->
  exists c, attrs !! i = Some (q, c) /\
            assoc q attrs = Some c /\
            upsert q v attrs = <[i := (q, c +:+ " " +:+ v)]> attrs.
Proof.
  induction attrs as [|[k c] attrs IH]; intros i Hi; [discriminate|].
  simpl in *. destruct (String.eqb k q) eqn:Hk.
  - apply String.eqb_eq in Hk. subst k. injection Hi as <-. exists c. auto.
  - destruct (index_of q attrs) as [j|]; [|discriminate]. injection Hi as <-.
    destruct (IH j eq_refl) as (c' & Hj & Ha & Hup). exists c'.
    simpl. rewrite Hup. auto.
Qed.

Lemma index_of_None q v attrs :
  index_of q attrs = None ->
  assoc q attrs = None /\ upsert q v attrs = attrs ++ [(q, v)].
Proof.
  induction attrs as [|[k c] attrs IH]; intros Hi; [auto|].
  simpl in *. destruct (String.eqb k q); [discriminate|].
  destruct (index_of q attrs); [discriminate|].
  destruct (IH eq_refl) as [Ha Hup]. rewrite Hup. auto.
Qed.

Lemma alter_owned el w : forall (attrs : list (string * string)) (i : nat) q c,
  attrs !! i = Some (q, c) ->
  alter (set_value w) i (owned_attr el <$> attrs)
  = owned_attr el <$> <[i := (q, w)]> attrs.
Proof.
  induction attrs as [|a attrs IH]; intros [|i] q c Hi; try discriminate.
  - injection Hi as ->. reflexivity.
  - simpl in Hi. cbn. f_equal. apply (IH i q c Hi).
Qed.

Lemma built_set_value σ nm attrs i q c w :
  attrs !! i = Some (q, c) ->
  alter (set_value w) (S (length σ) + i) (built σ nm attrs)
  = built σ nm (<[i := (q, w)]> attrs).
Proof.
  intros Hi. unfold built.
  replace (S (length σ) + i) with (length σ + S i) by lia.
  rewrite alter_app_r, length_insert. cbn [alter list_alter].
  change (list_alter (set_value w) i) with (alter (M := list Node) (set_value w) i).
  rewrite (alter_owned _ _ _ _ _ _ Hi). reflexivity.
Qed.

Lemma built_snoc σ nm attrs q v :
  alter (set_attributes (fun l => l ++ [S (length σ) + length attrs])) (length σ)
        (built σ nm attrs ++ [owned_attr (length σ) (q, v)])
  = built σ nm (attrs ++ [(q, v)]).
Proof.
  unfold built. rewrite <- app_assoc.
  pose proof (alter_app_r
                (set_attributes (fun l => l ++ [S (length σ) + length attrs])) σ
                ((NElement {| localName := nm;
                              attributes := seq (S (length σ)) (length attrs);
                              childNodes := []; eventListeners := [];
                              shadowRoot := None |}
                    :: (owned_attr (length σ) <$> attrs))
                   ++ [owned_attr (length σ) (q, v)]) 0) as H.
  rewrite Nat.add_0_r in H. rewrite H. f_equal.
  rewrite length_app, seq_app, fmap_app. reflexivity.
Qed.

Lemma find_attribute_snoc σ el n q :
  el < length σ ->
  (forall e, σ !! el = Some (NElement e) ->
             Forall (fun r => r < length σ) (attributes e)) ->
  find_attribute (σ ++ [n]) el q = find_attribute σ el q.
Proof.
  intros Hel Hattrs. unfold find_attribute. rewrite lookup_app_l by exact Hel.
  destruct (σ !! el) as [[e| | | ]|] eqn:He; try reflexivity.
  apply find_ext. intros r Hr. unfold attr_named.
  rewrite lookup_app_l; [reflexivity|].
  specialize (Hattrs e eq_refl). rewrite Forall_forall in Hattrs.
  apply Hattrs, list_elem_of_In. exact Hr.
Qed.

(** One contribution through [hasAttribute], [getAttribute] and
    [setAttribute], as both handlers make it when the attribute exists
    and as [handleAttributeObject] makes it when it does not. *)
Lemma contribute_built σ nm attrs key v :
  valid_attribute_local_name key = true ->
  (has <- hasAttribute (length σ) key ;;
   if has then
     currentValue <- getAttribute (length σ) key ;;
     setAttribute (length σ) key (concat_value currentValue v)
   else setAttribute (length σ) key v) (built σ nm attrs)
  = (Normal tt, built σ nm (upsert (ascii_lowercase key) v attrs)).
Proof.
  intros Hv. msimpl. unfold has_attribute, get_attribute, setAttribute.
  rewrite Hv, find_built. msimpl.
  destruct (index_of (ascii_lowercase key) attrs) as [i|] eqn:Hidx.
  - destruct (index_of_Some _ v _ _ Hidx) as (c & Hi & _ & Hup).
    rewrite bool_decide_eq_true_2 by (simpl; eauto). cbv beta.
    rewrite find_built, Hidx. cbn [fmap option_fmap option_map mbind option_bind].
    unfold attr_value_at. rewrite built_attr, Hi.
    cbn [fmap option_fmap option_map owned_attr value snd].
    rewrite (built_set_value _ _ _ _ _ _ _ Hi), Hup. reflexivity.
  - destruct (index_of_None _ v _ Hidx) as [_ Hup].
    rewrite bool_decide_eq_false_2 by (simpl; intros [? ?]; discriminate).
    cbv beta. rewrite find_built, Hidx. cbn [fmap option_fmap option_map].
    rewrite length_built, Hup.
    apply (f_equal (pair (Normal tt))). apply built_snoc.
Qed.

Lemma handleAttributeObject_built σ nm o : forall attrs,
  forallb (fun entry => valid_attribute_local_name entry.1) o = true ->
  handleAttributeObject (length σ) o (built σ nm attrs)
  = (Normal tt, built σ nm (foldl contribute attrs (entries o))).
Proof.
  induction o as [|[key v] o IH]; intros attrs Hall; [reflexivity|].
  simpl in Hall. apply andb_true_iff in Hall as [Hv Hall].
  change (handleAttributeObject (length σ) ((key, v) :: o) (built σ nm attrs))
    with (((has <- hasAttribute (length σ) key ;;
            if has then
              currentValue <- getAttribute (length σ) key ;;
              setAttribute (length σ) key (concat_value currentValue (newValue_of v))
            else setAttribute (length σ) key (newValue_of v)) ;;;
           handleAttributeObject (length σ) o) (built σ nm attrs)).
  unfold bind at 1. rewrite (contribute_built _ _ _ _ _ Hv).
  rewrite (IH _ Hall). reflexivity.
Qed.

Lemma handleAttributeNode_built σ nm attrs r x :
  σ !! r = Some (NAttr x) ->
  ascii_lowercase (name x) = name x ->
  valid_attribute_local_name (name x) = true ->
  handleAttributeNode (length σ) r (built σ nm attrs)
  = (Normal tt, built σ nm (upsert (name x) (value x) attrs)).
Proof.
  intros Hx Hlow Hv. pose proof (lookup_lt_Some _ _ _ Hx) as Hr.
  destruct (index_of (name x) attrs) as [i|] eqn:Hidx.
  - pose proof (contribute_built σ nm attrs (name x) (value x) Hv) as Hrun.
    rewrite Hlow in Hrun. rewrite <- Hrun.
    unfold handleAttributeNode. msimpl. rewrite (built_old _ _ _ _ Hr), Hx.
    unfold has_attribute. rewrite Hlow, find_built, Hidx.
    rewrite bool_decide_eq_true_2 by (simpl; eauto). reflexivity.
  - destruct (index_of_None _ (value x) _ Hidx) as [_ Hup]. rewrite Hup.
    unfold handleAttributeNode. msimpl. rewrite (built_old _ _ _ _ Hr), Hx.
    unfold has_attribute. rewrite Hlow, find_built, Hidx.
    rewrite bool_decide_eq_false_2 by (simpl; intros [? ?]; discriminate).
    msimpl. rewrite (built_old _ _ _ _ Hr), Hx. msimpl.
    unfold setAttributeNode. msimpl. rewrite list_lookup_middle by reflexivity.
    msimpl. cbn [ownerElement name value].
    rewrite bool_decide_eq_true_2 by auto.
    rewrite find_attribute_snoc, find_built, Hidx.
    + cbn [fmap option_fmap option_map]. rewrite alter_snoc, length_built.
      apply (f_equal (pair (Normal tt))). apply (built_snoc σ nm attrs (name x) (value x)).
    + rewrite length_built. lia.
    + intros e He. rewrite built_element in He. injection He as <-.
      cbn [attributes]. apply Forall_forall. intros c Hc.
      apply list_elem_of_In, in_seq in Hc. rewrite length_built. lia.
Qed.

Lemma process_attr_sources σ nm children : forall attrs,
  forallb (attr_source σ) children = true ->
  process (length σ) children (built σ nm attrs)
  = (Normal tt, built σ nm (foldl contribute attrs (children ≫= contribution σ))).
Proof.
  induction children as [|v children IH]; intros attrs Hall; [reflexivity|].
  simpl in Hall. apply andb_true_iff in Hall as [Hv Hall].
  rewrite bind_cons, foldl_app.
  rewrite (process_cons_run _ _ _ _
             (built σ nm (foldl contribute attrs (contribution σ v)))).
  - apply IH. exact Hall.
  - destruct v; try discriminate Hv.
    + simpl in Hv. simpl contribution.
      destruct (σ !! _) as [[| |x|]|] eqn:Hx; try discriminate Hv.
      apply andb_true_iff in Hv as [Hlow Hvalid]. apply String.eqb_eq in Hlow.
      apply (handleAttributeNode_built _ _ _ _ _ Hx Hlow Hvalid).
    + simpl in Hv. apply andb_true_iff in Hv as [Hc Hkeys].
      apply negb_true_iff in Hc. cbn [process_child contribution]. rewrite Hc.
      apply handleAttributeObject_built. exact Hkeys.
Qed.

Lemma upsert_keys q v acc :
  (upsert q v acc).*1 = if decide (q ∈ acc.*1) then acc.*1 else acc.*1 ++ [q].
Proof.
  induction acc as [|[k c] acc IH]; [reflexivity|].
  simpl. destruct (String.eqb k q) eqn:Hk.
  - apply String.eqb_eq in Hk. subst k.
    rewrite decide_True by left. reflexivity.
  - apply String.eqb_neq in Hk. cbn [fmap list_fmap fst]. 
    change (list_fmap _ _ fst (upsert q v acc)) with ((upsert q v acc).*1).
    rewrite IH. destruct (decide (q ∈ acc.*1)) as [Hin|Hout].
    + rewrite decide_True by (right; exact Hin). reflexivity.
    + rewrite decide_False; [reflexivity|].
      intros Hin. apply elem_of_cons in Hin as [Heq|Hin]; [congruence | contradiction].
Qed.

Lemma contribute_NoDup entries : forall acc,
  NoDup acc.*1 -> NoDup (foldl contribute acc entries).*1.
Proof.
  induction entries as [|[q v] entries IH]; intros acc Hacc; [exact Hacc|].
  simpl. apply IH. unfold contribute. simpl. rewrite upsert_keys.
  destruct (decide (q ∈ acc.*1)) as [Hin|Hout]; [exact Hacc|].
  apply NoDup_app. split; [exact Hacc|]. split; [|apply NoDup_singleton].
  intros y Hy Hy'. apply list_elem_of_singleton in Hy'. subst. contradiction.
Qed.

Lemma get_attribute_built σ nm attrs key :
  get_attribute (built σ nm attrs) (length σ) key = assoc (ascii_lowercase key) attrs.
Proof.
  unfold get_attribute. rewrite find_built.
  destruct (index_of (ascii_lowercase key) attrs) as [i|] eqn:Hidx.
  - destruct (index_of_Some _ "" _ _ Hidx) as (c & Hi & Ha & _).
    cbn [fmap option_fmap option_map mbind option_bind].
    unfold attr_value_at. rewrite built_attr, Hi, Ha. reflexivity.
  - destruct (index_of_None _ "" _ Hidx) as [Ha _]. rewrite Ha. reflexivity.
Qed.

(** X6.  [tag] with attribute contributions for children ([Attr] nodes
    with a valid name in lower case, as [attr] makes them, and attribute
    objects with valid keys), from any store: the call returns a new
    element, the store gains that element and one new attribute node per
    distinct name (keys count in lower case), owned by the element, in
    the order in which the names first occur; the value under a name is
    the contributions to it in order, joined with single spaces.  The
    store the call started from is unchanged, no two attributes of the
    element share a name, and [getAttribute] reads the pairs. *)
Theorem tag_attribute_list name children σ :
  valid_element_local_name name = true ->
  forallb (attr_source σ) children = true ->
  let attrs := attribute_list σ children in
  let σ' := built σ (ascii_lowercase name) attrs in
  tag name children σ = (Normal (length σ), σ') /\
  NoDup attrs.*1 /\
  (forall key, get_attribute σ' (length σ) key = assoc (ascii_lowercase key) attrs).
Proof.
  intros Hv Hall attrs σ'. split; [|split].
  - apply (tag_run name); [exact Hv|].
    apply (process_attr_sources σ (ascii_lowercase name) children [] Hall).
  - apply contribute_NoDup. constructor.
  - intros key. apply get_attribute_built.
Qed.

Lemma tag_attribute_list_witness :
  tag "div"
      [ VAttr 0; VObject [("id", One "x"); ("Class", Many ["b"; "c"])];
        VObject [("class", One "d")] ]
      [NAttr {| name := "class"; value := "a"; ownerElement := None |}]
  = (Normal 1,
     [ NAttr {| name := "class"; value := "a"; ownerElement := None |};
       NElement {| localName := "div"; attributes := [2; 3]; childNodes := [];
                   eventListeners := []; shadowRoot := None |};
       NAttr {| name := "class"; value := "a b c d"; ownerElement := Some 1 |};
       NAttr {| name := "id"; value := "x"; ownerElement := Some 1 |} ]).
Proof.
  exact (proj1 (tag_attribute_list "div"
                  [ VAttr 0; VObject [("id", One "x"); ("Class", Many ["b"; "c"])];
                    VObject [("class", One "d")] ]
                  [NAttr {| name := "class"; value := "a"; ownerElement := None |}]
                  eq_refl eq_refl)).
Defined.

Lemma contribute_refused key v σ el :
  valid_attribute_local_name key = false ->
  (has <- hasAttribute el key ;;
   if has then
     currentValue <- getAttribute el key ;;
     setAttribute el key (concat_value currentValue v)
   else setAttribute el key v) σ
  = (Throw (DOMError InvalidCharacterError), σ).
Proof.
  intros Hv. msimpl. unfold setAttribute. rewrite Hv.
  destruct (has_attribute σ el key); reflexivity.
Qed.

Lemma handleAttributeObject_refused σ nm key v o2 : forall o1 attrs,
  forallb (fun entry => valid_attribute_local_name entry.1) o1 = true ->
  valid_attribute_local_name key = false ->
  handleAttributeObject (length σ) (o1 ++ (key, v) :: o2) (built σ nm attrs)
  = (Throw (DOMError InvalidCharacterError),
     built σ nm (foldl contribute attrs (entries o1))).
Proof.
  intros o1 attrs Hall Hv. unfold handleAttributeObject. rewrite for_each_app.
  unfold bind at 1.
  pose proof (handleAttributeObject_built σ nm o1 attrs Hall) as Hrun.
  unfold handleAttributeObject in Hrun. rewrite Hrun.
  cbn [for_each]. unfold bind at 1.
  rewrite (contribute_refused key (newValue_of v) _ _ Hv). reflexivity.
Qed.

(** X7.  An attribute object with a key that is no valid attribute name
    makes [tag] raise InvalidCharacterError at that key.  Nothing is
    undone and nothing after it is done: the contributions of the children
    before the object and of the entries before the key are in the store,
    on the element that is not returned; the entries and children after
    it are not looked at. *)
Theorem tag_refused_key name before o1 key v o2 after σ :
  valid_element_local_name name = true ->
  forallb (attr_source σ) before = true ->
  forallb (fun entry => valid_attribute_local_name entry.1) o1 = true ->
  has_key "constructor" (o1 ++ (key, v) :: o2) = false ->
  valid_attribute_local_name key = false ->
  tag name (before ++ VObject (o1 ++ (key, v) :: o2) :: after) σ
  = (Throw (DOMError InvalidCharacterError),
     built σ (ascii_lowercase name) (attribute_list σ (before ++ [VObject o1]))).
Proof.
  intros Hname Hbefore Ho1 Hc Hkey. apply (tag_run_throw name); [exact Hname|].
  change (σ ++ [NElement (new_element (ascii_lowercase name))])
    with (built σ (ascii_lowercase name) []).
  rewrite process_app. unfold bind.
  rewrite (process_attr_sources σ (ascii_lowercase name) before [] Hbefore).
  apply process_cons_throw. cbn [process_child]. rewrite Hc.
  unfold attribute_list. rewrite bind_app, foldl_app.
  rewrite bind_cons. change ([] ≫= contribution σ) with (@nil (string * string)).
  rewrite app_nil_r. cbn [contribution].
  replace (has_key "constructor" o1) with false.
  - apply handleAttributeObject_refused; assumption.
  - unfold has_key in *. rewrite fmap_app, existsb_app in Hc.
    apply orb_false_iff in Hc as [Hc _]. symmetry. exact Hc.
Qed.

Lemma tag_refused_key_witness :
  tag "div"
      [ VObject [("id", One "x")];
        VObject [("class", One "a"); ("data x", One "b"); ("title", One "c")];
        VString "text" ] []
  = (Throw (DOMError InvalidCharacterError),
     [ NElement {| localName := "div"; attributes := [1; 2]; childNodes := [];
                   eventListeners := []; shadowRoot := None |};
       NAttr {| name := "id"; value := "x"; ownerElement := Some 0 |};
       NAttr {| name := "class"; value := "a"; ownerElement := Some 0 |} ]).
Proof.
  exact (tag_refused_key "div" [VObject [("id", One "x")]]
           [("class", One "a")] "data x" (One "b") [("title", One "c")]
           [VString "text"] [] eq_refl eq_refl eq_refl eq_refl eq_refl).
Defined.

(** X8.  [attr(key, value)] either raises InvalidCharacterError, when the
    key is no valid attribute name, leaving the store as it was, or
    returns a new node, an attribute owned by no element whose name is
    the key in lower case and whose value is the value given. *)
Theorem attr_result key v σ :
  attr key v σ
  = if valid_attribute_local_name key
    then (Normal (length σ),
          σ ++ [NAttr {| name := ascii_lowercase key; value := v;
                         ownerElement := None |}])
    else (Throw (DOMError InvalidCharacterError), σ).
Proof.
  destruct (valid_attribute_local_name key) eqn:Hv.
  - apply attr_makes. exact Hv.
  - unfold attr, createAttribute. rewrite Hv. reflexivity.
Qed.

(** ** tag: a Shadow child on an element that cannot host one *)

Lemma process_shadow_refused σ0 nm l : forall sr σ,
  valid_shadow_host_name nm = false ->
  Forall (fun v => is_array v = false) l ->
  Exists (fun v => is_shadow v = true) l ->
  assembling σ0 nm sr σ ->
  exists ex σ', process (length σ0) l σ = (Throw ex, σ').
Proof.
  induction l as [|v l IH]; intros sr σ Hhost Hleaves Hex Hasm.
  - inversion Hex.
  - inversion Hleaves as [|? ? Hv Hl]; subst.
    destruct (is_shadow v) eqn:Hs.
    + destruct v; try discriminate Hs.
      destruct Hasm as [_ (e & He & Hn & _)].
      exists (DOMError NotSupportedError), σ. apply process_cons_throw.
      cbn [process_child]. unfold attachShadow. msimpl.
      rewrite He, Hn, Hhost. reflexivity.
    + assert (Hrest : Exists (fun v => is_shadow v = true) l).
      { inversion Hex; subst; [congruence | assumption]. }
      pose proof (process_leaf_assembling σ0 nm False sr v Hv
                    (fun H => False_ind _ H) σ Hasm) as Hstep.
      rewrite Hs in Hstep.
      destruct (process_child (length σ0) v σ) as [[[]|ex] σ1] eqn:Hrun.
      * rewrite (process_cons_run _ _ _ _ _ Hrun).
        apply (IH sr σ1 Hhost Hl Hrest Hstep).
      * exists ex, σ1. apply process_cons_throw. exact Hrun.
Qed.

(** X9.  An element whose name is no valid shadow host name (the names
    of the shortcuts [a], [button], [ul], [li], [form], [table] and
    others) cannot be given a Shadow: [tag] raises whenever a Shadow is
    among its children, at any depth, so it never returns such an
    element; and with the Shadow first, the exception is the host's
    NotSupportedError and the store holds the new element, empty. *)
Theorem shadow_needs_host name σ :
  valid_shadow_host_name (ascii_lowercase name) = false ->
  (forall children,
      1 <= count_shadows children ->
      exists ex σ', tag name children σ = (Throw ex, σ')) /\
  (valid_element_local_name name = true ->
   forall sh rest,
     tag name (VShadow sh :: rest) σ
     = (Throw (DOMError NotSupportedError),
        σ ++ [NElement (new_element (ascii_lowercase name))])).
Proof.
  intros Hhost. split.
  - intros children Hn. destruct (valid_element_local_name name) eqn:Hv.
    + destruct (process_shadow_refused σ (ascii_lowercase name) (flatten children)
                  None (σ ++ [NElement (new_element (ascii_lowercase name))])
                  Hhost (flatten_leaves children)) as (ex & σ' & Hrun).
      * unfold count_shadows in Hn. apply Exists_exists.
        destruct (List.filter is_shadow (flatten children)) as [|v l] eqn:Hf;
          [simpl in Hn; lia|].
        assert (Hin : In v (List.filter is_shadow (flatten children)))
          by (rewrite Hf; left; reflexivity).
        apply filter_In in Hin as [Hin Hs]. exists v.
        split; [apply list_elem_of_In; exact Hin | exact Hs].
      * apply assembling_start.
      * exists ex, σ'. apply (tag_run_throw name); [exact Hv|].
        rewrite process_flatten. exact Hrun.
    + exists (DOMError InvalidCharacterError), σ.
      unfold tag, bind. rewrite (createElement_invalid _ _ Hv). reflexivity.
  - intros Hv sh rest. apply (tag_run_throw name); [exact Hv|].
    apply process_cons_throw. cbn [process_child]. unfold attachShadow. msimpl.
    rewrite list_lookup_middle by reflexivity. cbn [new_element localName].
    rewrite Hhost. reflexivity.
Qed.

Lemma shadow_needs_host_witness :
  (exists ex σ',
      tag "button" [VString "ok"; VArray [VShadow empty_shadow]] [sample_attr]
      = (Throw ex, σ')) /\
  tag "ul" [VShadow empty_shadow; VString "x"] []
  = (Throw (DOMError NotSupportedError), [NElement (new_element "ul")]).
Proof.
  split.
  - apply (proj1 (shadow_needs_host "button" [sample_attr] eq_refl)).
    vm_compute. lia.
  - exact (proj2 (shadow_needs_host "ul" [] eq_refl) eq_refl empty_shadow [VString "x"]).
Defined.

(** ** shadow *)

Lemma fold_each_app {A S} (body : A -> S -> M S) (l1 l2 : list A) s σ :
  fold_each body (l1 ++ l2) s σ
  = (s' <- fold_each body l1 s ;; fold_each body l2 s') σ.
Proof.
  revert s σ. induction l1 as [|x l1 IH]; intros s σ; simpl.
  - reflexivity.
  - rewrite bind_assoc. apply bind_ext. intros s' σ'. apply IH.
Qed.

Lemma bind_ret_r {A} (m : M A) σ : (x <- m ;; ret x) σ = m σ.
Proof. unfold bind, ret. destruct (m σ) as [[a|e] σ']; reflexivity. Qed.

Lemma shadow_process_child_flatten v : forall acc σ,
  shadow_process_child v acc σ
  = fold_each shadow_process_child (flatten_value v) acc σ.
Proof.
  induction v as [ | | | | | | | | | | | items IH | | ] using Value_nested_ind;
    intros acc σ;
    try (symmetry; apply (bind_ret_r (shadow_process_child _ acc))).
  rewrite flatten_value_array.
  change (shadow_process_child (VArray items) acc σ)
    with ((let '(components, sheets) := acc in
           fold_each shadow_process_child items acc) σ).
  destruct acc as [components sheets].
  generalize (components, sheets). clear components sheets. intros acc.
  revert acc σ. induction IH as [|x items Hx _ IH']; intros acc σ; [reflexivity|].
  change (flatten (x :: items)) with (flatten_value x ++ flatten items).
  rewrite fold_each_app.
  change (fold_each shadow_process_child (x :: items) acc σ)
    with ((acc' <- shadow_process_child x acc ;;
           fold_each shadow_process_child items acc') σ).
  apply bind_cong; [apply Hx | intros acc' σ'; apply IH'].
Qed.

Lemma shadow_fold_flatten children : forall acc σ,
  fold_each shadow_process_child children acc σ
  = fold_each shadow_process_child (flatten children) acc σ.
Proof.
  induction children as [|v children IH]; intros acc σ; [reflexivity|].
  change (flatten (v :: children)) with (flatten_value v ++ flatten children).
  rewrite fold_each_app.
  change (fold_each shadow_process_child (v :: children) acc σ)
    with ((acc' <- shadow_process_child v acc ;;
           fold_each shadow_process_child children acc') σ).
  apply bind_cong; [apply shadow_process_child_flatten | intros acc' σ'; apply IH].
Qed.

Lemma shadow_fold_skip_nullish leaves : forall acc σ,
  fold_each shadow_process_child leaves acc σ
  = fold_each shadow_process_child
      (List.filter (fun v => negb (is_nullish v)) leaves) acc σ.
Proof.
  induction leaves as [|v leaves IH]; intros acc σ; [reflexivity|].
  simpl List.filter. destruct (is_nullish v) eqn:Hv; simpl negb; cbv iota.
  - destruct v; try discriminate Hv; destruct acc; apply IH.
  - change (fold_each shadow_process_child (v :: leaves) acc σ)
      with ((acc' <- shadow_process_child v acc ;;
             fold_each shadow_process_child leaves acc') σ).
    apply bind_ext. intros acc' σ'. apply IH.
Qed.

(** X10.  [shadow] sees through nested arrays and skips [null] and
    [undefined]: it is the same computation on the children as on the
    list of their leaves, in depth-first order, without the nullish
    ones. *)
Theorem shadow_flattening_is_transparent children σ :
  shadow children σ = shadow (flatten children) σ /\
  shadow children σ
  = shadow (List.filter (fun v => negb (is_nullish v)) (flatten children)) σ.
Proof.
  assert (H1 : shadow children σ = shadow (flatten children) σ).
  { unfold shadow. apply bind_cong; [apply shadow_fold_flatten | reflexivity]. }
  split; [exact H1|]. rewrite H1. unfold shadow.
  apply bind_cong; [apply shadow_fold_skip_nullish | reflexivity].
Qed.

Lemma shadow_leaves_run leaves : forall acc σ,
  Forall (fun v => is_array v = false) leaves ->
  Forall (fun v => shadow_text v = true -> is_Some (ToString v)) leaves ->
  fold_each shadow_process_child leaves acc σ
  = (Normal (acc.1 ++ shadow_nodes (length σ) leaves,
             acc.2 ++ omap sheet_of leaves),
     σ ++ (NText <$> shadow_texts leaves)).
Proof.
  induction leaves as [|v leaves IH]; intros [components sheets] σ Hleaves Hconv.
  - simpl. rewrite !app_nil_r. reflexivity.
  - inversion Hleaves as [|? ? Hv Hl]; subst.
    inversion Hconv as [|? ? Hs Hc]; subst.
    change (fold_each shadow_process_child (v :: leaves) (components, sheets) σ)
      with ((acc' <- shadow_process_child v (components, sheets) ;;
             fold_each shadow_process_child leaves acc') σ).
    assert (Htext : forall data, shadow_text v = true -> node_ref v = None ->
              sheet_of v = None -> ToString v = Some data ->
              shadow_process_child v (components, sheets)
              = (text <- createTextNode data ;; ret (components ++ [text], sheets)) ->
              (acc' <- shadow_process_child v (components, sheets) ;;
               fold_each shadow_process_child leaves acc') σ
              = (Normal ((components, sheets).1 ++ shadow_nodes (length σ) (v :: leaves),
                         (components, sheets).2 ++ omap sheet_of (v :: leaves)),
                 σ ++ (NText <$> shadow_texts (v :: leaves)))).
    { intros data Ht Hn Hsh Hstr Hrun. rewrite Hrun. msimpl.
      rewrite (IH _ _ Hl Hc). unfold shadow_texts. cbn [omap list_omap shadow_nodes fst snd].
      rewrite Ht, Hn, Hsh, Hstr, length_app. cbn [length fmap list_fmap].
      rewrite <- !app_assoc, Nat.add_1_r. reflexivity. }
    destruct v; try discriminate Hv;
      try (destruct (Hs eq_refl) as [data Hstr];
           apply (Htext data eq_refl eq_refl eq_refl Hstr);
           cbn [shadow_process_child]; rewrite Hstr; reflexivity);
      unfold bind; cbn [shadow_process_child ret]; rewrite (IH _ _ Hl Hc);
      unfold shadow_texts; cbn [omap list_omap shadow_nodes shadow_text node_ref sheet_of fst snd];
      rewrite <- ?app_assoc; reflexivity.
Qed.

(** X11.  [shadow] on children whose text leaves have a string
    conversion, from any store: style sheets go to the sheet list and
    elements and text nodes to the node list, in order; every other leaf
    (a string, and also an [Attr], an [EventListener], a [Shadow] or a
    plain object, which [tag] would treat as such) becomes a new text
    node at its place in the node list; the store gains these text nodes
    in order and nothing else changes. *)
Theorem shadow_collects children σ :
  Forall (fun v => shadow_text v = true -> is_Some (ToString v)) (flatten children) ->
  shadow children σ
  = (Normal {| children := shadow_nodes (length σ) (flatten children);
               sheets := omap sheet_of (flatten children) |},
     σ ++ (NText <$> shadow_texts (flatten children))).
Proof.
  intros Hconv. unfold shadow, bind.
  rewrite shadow_fold_flatten.
  rewrite (shadow_leaves_run _ _ _ (flatten_leaves children) Hconv). reflexivity.
Qed.

Lemma shadow_collects_witness :
  shadow [ VString "a"; VArray [VStyleSheet sample_sheet; VNull; VElement 0];
           VAttr 0; VObject [("class", One "x")]; VText 0 ]
         [sample_attr]
  = (Normal {| children := [1; 0; 2; 3; 0]; sheets := [sample_sheet] |},
     [ sample_attr; NText "a"; NText "[object Attr]"; NText "[object Object]" ]).
Proof.
  apply (shadow_collects
           [ VString "a"; VArray [VStyleSheet sample_sheet; VNull; VElement 0];
             VAttr 0; VObject [("class", One "x")]; VText 0 ] [sample_attr]).
  repeat constructor; intros _; eexists; reflexivity.
Defined.

(** X12.  [shadow] raises TypeError at the first text leaf that has no
    string conversion (a symbol); the text nodes made for the leaves
    before it stay in the store. *)
Theorem shadow_refuses_unconvertible children before v after σ :
  flatten children = before ++ v :: after ->
  Forall (fun v => shadow_text v = true -> is_Some (ToString v)) before ->
  shadow_text v = true -> ToString v = None ->
  shadow children σ = (Throw TypeError, σ ++ (NText <$> shadow_texts before)).
Proof.
  intros Hsplit Hconv Hv Hstr. unfold shadow. unfold bind at 1.
  rewrite shadow_fold_flatten, Hsplit, fold_each_app. unfold bind at 1.
  pose proof (flatten_leaves children) as Hleaves. rewrite Hsplit in Hleaves.
  apply Forall_app in Hleaves as [Hbefore _].
  rewrite (shadow_leaves_run _ _ _ Hbefore Hconv).
  change (fold_each shadow_process_child (v :: after)) with
    (fun acc => acc' <- shadow_process_child v acc ;;
                fold_each shadow_process_child after acc').
  cbv beta. unfold bind at 1.
  destruct v; try discriminate Hv; cbn [shadow_process_child fst snd app];
    rewrite Hstr; reflexivity.
Qed.

Lemma shadow_refuses_unconvertible_witness :
  shadow [VString "a"; VArray [VSymbol]; VString "b"] []
  = (Throw TypeError, [NText "a"]).
Proof.
  apply (shadow_refuses_unconvertible
           [VString "a"; VArray [VSymbol]; VString "b"]
           [VString "a"] VSymbol [VString "b"] [] eq_refl);
    [|reflexivity|reflexivity].
  repeat constructor; intros _; eexists; reflexivity.
Defined.

(** ** tag: a Shadow with a sheet the host refuses *)

(** X13.  A Shadow with a style sheet that was not constructed (one
    that belongs to a style element or a link) makes [tag] raise the
    host's NotAllowedError.  By then the shadow root is attached to the
    new element; it has the sheets before the refused one and no child:
    the nodes of the Shadow were not moved, and the children after it
    were not processed. *)
Theorem tag_refused_sheet name sh rest σ :
  valid_element_local_name name = true ->
  valid_shadow_host_name (ascii_lowercase name) = true ->
  forallb constructed (sheets sh) = false ->
  tag name (VShadow sh :: rest) σ
  = (Throw (DOMError NotAllowedError),
     σ ++ [ NElement {| localName := ascii_lowercase name; attributes := [];
                        childNodes := []; eventListeners := [];
                        shadowRoot := Some (S (length σ)) |};
            NShadowRoot {| host := length σ; mode := open;
                           adoptedStyleSheets := constructed_prefix (sheets sh);
                           rootChildNodes := [] |} ]).
Proof.
  intros Hv Hhost Hsheets. apply (tag_run_throw name); [exact Hv|].
  apply process_cons_throw. cbn [process_child]. unfold attachShadow. msimpl.
  rewrite list_lookup_middle by reflexivity. cbn [new_element localName shadowRoot].
  rewrite Hhost. msimpl. unfold set_adoptedStyleSheets. msimpl. rewrite Hsheets.
  rewrite length_app, Nat.add_1_r, <- app_assoc. cbn [length app].
  rewrite alter_at_length, alter_after_length. reflexivity.
Qed.

Lemma tag_refused_sheet_witness :
  tag "div"
      [ VShadow {| children := [0];
                   sheets := [sample_sheet; {| sheet_id := 2; constructed := false |}] |};
        VString "x" ]
      [NText "t"]
  = (Throw (DOMError NotAllowedError),
     [ NText "t";
       NElement {| localName := "div"; attributes := []; childNodes := [];
                   eventListeners := []; shadowRoot := Some 2 |};
       NShadowRoot {| host := 1; mode := open; adoptedStyleSheets := [sample_sheet];
                      rootChildNodes := [] |} ]).
Proof.
  exact (tag_refused_sheet "div"
           {| children := [0];
              sheets := [sample_sheet; {| sheet_id := 2; constructed := false |}] |}
           [VString "x"] [NText "t"] eq_refl eq_refl eq_refl).
Defined.

(** ** shortTag: presets and arguments *)

(** X14.  The attributes preset in a shortcut and those given at the
    call are merged: [shortTag(name, ...x)(...y)], with attribute
    contributions for [x] and [y], builds the element whose attribute
    list is that of [x] continued with the contributions of [y], so a
    preset class comes first in the class value and the classes of the
    call follow it. *)
Theorem shortTag_presets_merge name x y σ :
  valid_element_local_name name = true ->
  forallb (attr_source σ) x = true ->
  forallb (attr_source σ) y = true ->
  shortTag name x y σ
  = (Normal (length σ),
     built σ (ascii_lowercase name)
       (foldl contribute (attribute_list σ x) (y ≫= contribution σ))).
Proof.
  intros Hv Hx Hy. unfold shortTag. apply (tag_run name); [exact Hv|].
  change (σ ++ [NElement (new_element (ascii_lowercase name))])
    with (built σ (ascii_lowercase name) []).
  rewrite process_app. unfold bind.
  rewrite (process_attr_sources σ (ascii_lowercase name) x [] Hx).
  apply (process_attr_sources σ (ascii_lowercase name) y _ Hy).
Qed.

Lemma shortTag_presets_merge_witness :
  shortTag "div" [VObject [("class", One "card")]]
           [VObject [("class", One "wide"); ("id", One "c1")]] []
  = (Normal 0,
     [ NElement {| localName := "div"; attributes := [1; 2]; childNodes := [];
                   eventListeners := []; shadowRoot := None |};
       NAttr {| name := "class"; value := "card wide"; ownerElement := Some 0 |};
       NAttr {| name := "id"; value := "c1"; ownerElement := Some 0 |} ]).
Proof.
  exact (shortTag_presets_merge "div" [VObject [("class", One "card")]]
           [VObject [("class", One "wide"); ("id", One "c1")]] []
           eq_refl eq_refl eq_refl).
Defined.

(** ** tag: what the element carries, whatever the children are *)

Section Carries.
Variable σ0 : Heap.
Local Abbreviation el := (length σ0).

Lemma neutral_push_child c : neutral (push_child c).
Proof. split; [reflexivity|]. intros e. eexists. split; [reflexivity|]. auto. Qed.

Lemma neutral_detach c : neutral (detach c).
Proof. split; [reflexivity|]. intros e. eexists. split; [reflexivity|]. auto. Qed.

Lemma neutral_set_shadowRoot r : neutral (set_shadowRoot r).
Proof. split; [reflexivity|]. intros e. eexists. split; [reflexivity|]. auto. Qed.

Lemma neutral_set_sheets l : neutral (set_sheets l).
Proof. split; [reflexivity|]. intros e. eexists. split; [reflexivity|]. auto. Qed.

Lemma carries_transport attrs ls ls' (σ σ' : Heap) :
  (forall r x, σ !! r = Some (NAttr x) -> σ' !! r = Some (NAttr x)) ->
  (forall e, σ !! el = Some (NElement e) -> eventListeners e = ls ->
             exists e', σ' !! el = Some (NElement e') /\
                        attributes e' = attributes e /\ eventListeners e' = ls') ->
  carries σ0 attrs ls σ -> carries σ0 attrs ls' σ'.
Proof.
  intros Hattr Hel [Hsrc (e & He & Hls & Hnd & Hall)].
  destruct (Hel e He Hls) as (e' & He' & Ha' & Hls'). split.
  - intros r x Hr. apply Hattr, Hsrc, Hr.
  - exists e'. rewrite Ha'. split; [exact He'|]. split; [exact Hls'|].
    split; [exact Hnd|]. eapply Forall2_impl; [exact Hall|].
    intros r pair [Hlt [o Hr]]. split; [exact Hlt|]. exists o. apply Hattr, Hr.
Qed.

Lemma carries_alter f r attrs ls σ :
  neutral f -> carries σ0 attrs ls σ -> carries σ0 attrs ls (alter f r σ).
Proof.
  intros [Hfa Hfe]. apply carries_transport.
  - intros r' x Hr'. destruct (decide (r = r')) as [->|Hne].
    + rewrite list_lookup_alter_eq, Hr'. simpl. rewrite Hfa. reflexivity.
    + rewrite list_lookup_alter_ne by exact Hne. exact Hr'.
  - intros e He Hls. destruct (decide (r = el)) as [->|Hne].
    + destruct (Hfe e) as (e' & Hfe' & Ha & Hl). exists e'.
      rewrite list_lookup_alter_eq, He. simpl. rewrite Hfe'.
      split; [reflexivity|]. split; [exact Ha | congruence].
    + exists e. rewrite list_lookup_alter_ne by exact Hne. auto.
Qed.

Lemma carries_fmap f attrs ls (σ : Heap) :
  neutral f -> carries σ0 attrs ls σ -> carries σ0 attrs ls (f <$> σ).
Proof.
  intros [Hfa Hfe]. apply carries_transport.
  - intros r' x Hr'. rewrite list_lookup_fmap, Hr'. simpl. rewrite Hfa. reflexivity.
  - intros e He Hls. destruct (Hfe e) as (e' & Hfe' & Ha & Hl). exists e'.
    rewrite list_lookup_fmap, He. simpl. rewrite Hfe'.
    split; [reflexivity|]. split; [exact Ha | congruence].
Qed.

Lemma carries_alloc n attrs ls (σ : Heap) :
  carries σ0 attrs ls σ -> carries σ0 attrs ls (σ ++ [n]).
Proof.
  apply carries_transport.
  - intros r x Hr. apply lookup_app_l_Some. exact Hr.
  - intros e He Hls. exists e. split; [apply lookup_app_l_Some; exact He | auto].
Qed.

Lemma carries_appendChild parent c attrs ls :
  hoare (fun _ => True) (carries σ0 attrs ls) (appendChild parent c)
        (fun _ => carries σ0 attrs ls).
Proof.
  intros σ H. simpl. apply carries_alter; [apply neutral_push_child|].
  apply carries_fmap; [apply neutral_detach | exact H].
Qed.

Lemma carries_addEventListener l attrs ls :
  hoare (fun _ => True) (carries σ0 attrs ls)
        (addEventListener el (type l) (callback l) (options l))
        (fun _ => carries σ0 attrs (registered ls (to_listener l))).
Proof.
  intros σ H. simpl. revert H. apply carries_transport.
  - intros r x Hr. destruct (decide (el = r)) as [<-|Hne].
    + rewrite list_lookup_alter_eq, Hr. reflexivity.
    + rewrite list_lookup_alter_ne by exact Hne. exact Hr.
  - intros e He Hls. rewrite list_lookup_alter_eq, He. simpl.
    eexists. split; [reflexivity|]. simpl. rewrite Hls. auto.
Qed.

Lemma carries_appendText v attrs ls :
  hoare (fun _ => True) (carries σ0 attrs ls) (appendText el v)
        (fun _ => carries σ0 attrs ls).
Proof.
  unfold appendText. destruct (ToString v) as [data|]; [|apply hoare_throw; auto].
  eapply hoare_bind with (Q := fun _ => carries σ0 attrs ls).
  - apply hoare_alloc. intros σ H. apply carries_alloc. exact H.
  - intros text. eapply hoare_bind with (Q := fun _ => carries σ0 attrs ls).
    + apply carries_appendChild.
    + intros _. apply hoare_ret. auto.
Qed.

Lemma carries_shadow sh attrs ls :
  hoare (fun _ => True) (carries σ0 attrs ls) (process_child el (VShadow sh))
        (fun _ => carries σ0 attrs ls).
Proof.
  cbn [process_child].
  eapply hoare_bind with (Q := fun _ => carries σ0 attrs ls).
  - intros σ H. unfold attachShadow. msimpl.
    destruct (σ !! el) as [[e| | | ]|]; try exact I.
    destruct (valid_shadow_host_name (localName e)); [|exact I].
    destruct (shadowRoot e); [exact I|]. msimpl.
    apply carries_alter; [apply neutral_set_shadowRoot|].
    apply carries_alloc. exact H.
  - intros root. eapply hoare_bind with (Q := fun _ => carries σ0 attrs ls).
    + intros σ H. unfold set_adoptedStyleSheets. msimpl.
      destruct (forallb constructed (sheets sh)); [|exact I].
      apply carries_alter; [apply neutral_set_sheets | exact H].
    + intros []. induction (children sh) as [|c l IH].
      * apply hoare_ret. auto.
      * simpl for_each. eapply hoare_bind with (Q := fun _ => carries σ0 attrs ls).
        -- eapply hoare_bind with (Q := fun _ => carries σ0 attrs ls).
           ++ apply carries_appendChild.
           ++ intros _. apply hoare_ret. auto.
        -- intros []. exact IH.
Qed.

Lemma find_carried (σ : Heap) q : forall l attrs,
  Forall2 (fun r pair =>
             el < r /\
             exists o, σ !! r = Some (NAttr {| name := pair.1; value := pair.2;
                                               ownerElement := o |})) l attrs ->
  match index_of q attrs with
  | Some i =>
      exists r c, List.find (attr_named σ q) l = Some r /\ l !! i = Some r /\
                  attrs !! i = Some (q, c) /\ assoc q attrs = Some c
  | None => List.find (attr_named σ q) l = None /\ assoc q attrs = None
  end.
Proof.
  intros l attrs Hall. induction Hall as [|r [k c] l attrs [_ [o Hr]] _ IH].
  - simpl. auto.
  - simpl. unfold attr_named at 1 3. rewrite Hr. cbn [name fst].
    destruct (String.eqb k q) eqn:Hk.
    + apply String.eqb_eq in Hk. subst k. exists r, c. auto.
    + destruct (index_of q attrs) as [i|]; simpl.
      * destruct IH as (r' & c' & Hf & Hl & Ha & Hs). exists r', c'. auto.
      * exact IH.
Qed.

Lemma carries_present attrs ls (σ : Heap) e i r q c w :
  carries σ0 attrs ls σ ->
  σ !! el = Some (NElement e) -> attributes e !! i = Some r ->
  attrs !! i = Some (q, c) ->
  carries σ0 (<[i := (q, w)]> attrs) ls (alter (set_value w) r σ).
Proof.
  intros [Hsrc (e' & He' & Hls & Hnd & Hall)] He Hi Hc.
  rewrite He in He'. injection He' as <-.
  pose proof (Forall2_lookup_lr _ _ _ _ _ _ Hall Hi Hc) as [Hlt [o Hr]].
  split.
  - intros r' x Hr'. pose proof (lookup_lt_Some _ _ _ Hr').
    rewrite list_lookup_alter_ne by lia. apply Hsrc, Hr'.
  - exists e. split; [rewrite list_lookup_alter_ne by lia; exact He|].
    split; [exact Hls|]. split; [exact Hnd|].
    apply Forall2_same_length_lookup. split.
    + rewrite length_insert. eapply Forall2_length. exact Hall.
    + intros j r' pair Hj Hpair. destruct (decide (i = j)) as [<-|Hne].
      * rewrite Hi in Hj. injection Hj as <-.
        rewrite list_lookup_insert_eq in Hpair
          by (apply lookup_lt_Some in Hc; exact Hc).
        injection Hpair as <-. split; [exact Hlt|]. exists o.
        rewrite list_lookup_alter_eq, Hr. reflexivity.
      * rewrite list_lookup_insert_ne in Hpair by exact Hne.
        pose proof (Forall2_lookup_lr _ _ _ _ _ _ Hall Hj Hpair) as [Hlt' [o' Hr']].
        split; [exact Hlt'|]. exists o'.
        rewrite list_lookup_alter_ne; [exact Hr'|].
        intros ->. apply Hne. eapply NoDup_lookup; eassumption.
Qed.

Lemma carries_absent attrs ls (σ : Heap) q w o :
  carries σ0 attrs ls σ ->
  carries σ0 (attrs ++ [(q, w)]) ls
    (alter (set_attributes (fun l => l ++ [length σ])) el
       (σ ++ [NAttr {| name := q; value := w; ownerElement := o |}])).
Proof.
  intros [Hsrc (e & He & Hls & Hnd & Hall)].
  pose proof (lookup_lt_Some _ _ _ He) as Hel.
  assert (Hkeep : forall r x, σ !! r = Some (NAttr x) ->
            alter (set_attributes (fun l => l ++ [length σ])) el
              (σ ++ [NAttr {| name := q; value := w; ownerElement := o |}]) !! r
            = Some (NAttr x)).
  { intros r x Hr. rewrite list_lookup_alter_ne by congruence.
    apply lookup_app_l_Some. exact Hr. }
  split.
  - intros r x Hr. apply Hkeep, Hsrc, Hr.
  - eexists. split.
    + rewrite list_lookup_alter_eq, lookup_app_l, He by exact Hel. reflexivity.
    + cbn [eventListeners attributes]. split; [exact Hls|]. split.
      * apply NoDup_app. split; [exact Hnd|]. split; [|apply NoDup_singleton].
        intros r Hr Hr'. apply list_elem_of_singleton in Hr'. subst r.
        apply list_elem_of_lookup in Hr as [j Hj].
        destruct (Forall2_lookup_l _ _ _ _ _ Hall Hj) as (pair & _ & _ & o' & Hr).
        apply lookup_lt_Some in Hr. lia.
      * apply Forall2_app.
        -- eapply Forall2_impl; [exact Hall|].
           intros r pair [Hlt [o' Hr]]. split; [exact Hlt|]. exists o'.
           apply Hkeep, Hr.
        -- constructor; [|constructor]. split; [exact Hel|]. exists o.
           rewrite list_lookup_alter_ne by lia. apply list_lookup_middle. reflexivity.
Qed.

Lemma carries_contribute attrs ls key v :
  hoare (fun _ => True) (carries σ0 attrs ls)
        (has <- hasAttribute el key ;;
         if has then
           currentValue <- getAttribute el key ;;
           setAttribute el key (concat_value currentValue v)
         else setAttribute el key v)
        (fun _ => carries σ0 (upsert (ascii_lowercase key) v attrs) ls).
Proof.
  intros σ H. pose proof H as [_ (e & He & _ & _ & Hall)].
  pose proof (find_carried σ (ascii_lowercase key) _ _ Hall) as Hfind.
  msimpl. unfold has_attribute, get_attribute, setAttribute, find_attribute.
  rewrite He. destruct (valid_attribute_local_name key);
    [|destruct (bool_decide _); exact I].
  destruct (index_of (ascii_lowercase key) attrs) as [i|] eqn:Hidx.
  - destruct Hfind as (r & c & Hf & Hi & Hc & _).
    destruct (index_of_Some _ v _ _ Hidx) as (c' & Hc' & _ & Hup).
    rewrite Hc in Hc'. injection Hc' as <-.
    pose proof (Forall2_lookup_lr _ _ _ _ _ _ Hall Hi Hc) as [_ [o Hr]].
    rewrite Hf. rewrite bool_decide_eq_true_2 by eauto. msimpl. rewrite He, Hf.
    cbn [mbind option_bind]. unfold attr_value_at. rewrite Hr. cbn [value snd].
    rewrite Hup. apply (carries_present _ _ _ _ _ _ _ _ _ H He Hi Hc).
  - destruct Hfind as [Hf _]. destruct (index_of_None _ v _ Hidx) as [_ Hup].
    rewrite Hf. rewrite bool_decide_eq_false_2 by (intros [? ?]; discriminate).
    msimpl. rewrite He, Hf, Hup. apply carries_absent. exact H.
Qed.

Lemma carries_handleAttributeObject o : forall attrs ls,
  hoare (fun _ => True) (carries σ0 attrs ls) (handleAttributeObject el o)
        (fun _ => carries σ0 (foldl contribute attrs (entries o)) ls).
Proof.
  induction o as [|[key v] o IH]; intros attrs ls.
  - apply hoare_ret. auto.
  - change (handleAttributeObject el ((key, v) :: o))
      with ((has <- hasAttribute el key ;;
             if has then
               currentValue <- getAttribute el key ;;
               setAttribute el key (concat_value currentValue (newValue_of v))
             else setAttribute el key (newValue_of v)) ;;;
            handleAttributeObject el o).
    eapply hoare_bind.
    + apply carries_contribute.
    + intros []. apply IH.
Qed.

Lemma carries_handleAttributeNode r x attrs ls :
  σ0 !! r = Some (NAttr x) -> ascii_lowercase (name x) = name x ->
  hoare (fun _ => True) (carries σ0 attrs ls) (handleAttributeNode el r)
        (fun _ => carries σ0 (upsert (name x) (value x) attrs) ls).
Proof.
  intros Hx Hlow σ H. pose proof H as [Hsrc (e & He & _ & _ & Hall)].
  pose proof (Hsrc _ _ Hx) as Hr.
  destruct (index_of (name x) attrs) as [i|] eqn:Hidx.
  - pose proof (carries_contribute attrs ls (name x) (value x) σ H) as Hrun.
    rewrite Hlow in Hrun.
    pose proof (find_carried σ (name x) _ _ Hall) as Hfind. rewrite Hidx in Hfind.
    destruct Hfind as (r' & c & Hf & _).
    unfold handleAttributeNode. revert Hrun. msimpl. rewrite Hr.
    unfold has_attribute, find_attribute. rewrite Hlow, He, Hf.
    rewrite bool_decide_eq_true_2 by eauto. auto.
  - pose proof (find_carried σ (name x) _ _ Hall) as Hfind. rewrite Hidx in Hfind.
    destruct Hfind as [Hf _]. destruct (index_of_None _ (value x) _ Hidx) as [_ Hup].
    pose proof (lookup_lt_Some _ _ _ He) as Hel.
    unfold handleAttributeNode. msimpl. rewrite Hr.
    unfold has_attribute, find_attribute. rewrite Hlow, He, Hf.
    rewrite bool_decide_eq_false_2 by (intros [? ?]; discriminate).
    msimpl. rewrite Hr. msimpl.
    unfold setAttributeNode. msimpl. rewrite list_lookup_middle by reflexivity.
    msimpl. cbn [ownerElement name value].
    rewrite bool_decide_eq_true_2 by auto.
    unfold find_attribute. rewrite lookup_app_l, He by exact Hel.
    rewrite (find_ext _ (attr_named σ (name x))), Hf.
    + cbn [fmap option_fmap option_map]. rewrite alter_snoc, Hup.
      apply (carries_absent attrs ls σ (name x) (value x) (Some el) H).
    + intros r' Hr'. unfold attr_named. rewrite lookup_app_l; [reflexivity|].
      apply list_elem_of_In, list_elem_of_lookup in Hr' as [j Hj].
      destruct (Forall2_lookup_l _ _ _ _ _ Hall Hj) as (pair & _ & _ & o' & Hr'').
      apply lookup_lt_Some in Hr''. exact Hr''.
Qed.

Lemma carries_leaf v attrs ls :
  is_array v = false -> attr_lowercase σ0 v = true ->
  hoare (fun _ => True) (carries σ0 attrs ls) (process_child el v)
        (fun _ => carries σ0 (foldl contribute attrs (contribution σ0 v))
                          (foldl registered ls (omap listener_of [v]))).
Proof.
  intros Hleaf Hlow.
  destruct v; try discriminate Hleaf;
    try (apply carries_appendText); try (apply hoare_ret; auto; fail).
  - eapply hoare_bind; [apply carries_appendChild | intros c; apply hoare_ret; auto].
  - eapply hoare_bind; [apply carries_appendChild | intros c; apply hoare_ret; auto].
  - simpl in Hlow. cbn [contribution process_child].
    destruct (σ0 !! _) as [[| |x|]|] eqn:Hx; try discriminate Hlow.
    apply String.eqb_eq in Hlow.
    apply (carries_handleAttributeNode _ _ _ _ Hx Hlow).
  - apply carries_addEventListener.
  - apply carries_shadow.
  - cbn [process_child contribution]. destruct (has_key "constructor" _).
    + apply carries_appendText.
    + apply carries_handleAttributeObject.
Qed.

Lemma carries_leaves l : forall attrs ls,
  Forall (fun v => is_array v = false) l ->
  forallb (attr_lowercase σ0) l = true ->
  hoare (fun _ => True) (carries σ0 attrs ls) (process el l)
        (fun _ => carries σ0 (foldl contribute attrs (l ≫= contribution σ0))
                          (foldl registered ls (omap listener_of l))).
Proof.
  induction l as [|v l IH]; intros attrs ls Hleaves Hlow.
  - apply hoare_ret. auto.
  - inversion Hleaves as [|? ? Hv Hl]; subst.
    simpl in Hlow. apply andb_true_iff in Hlow as [Hlv Hll].
    rewrite bind_cons, foldl_app.
    replace (omap listener_of (v :: l))
      with (omap listener_of [v] ++ omap listener_of l)
      by (symmetry; apply (omap_app _ [v] l)).
    rewrite foldl_app.
    change (process el (v :: l)) with (process_child el v ;;; process el l).
    eapply hoare_bind.
    + apply (carries_leaf v attrs ls Hv Hlv).
    + intros []. apply IH; assumption.
Qed.

End Carries.

Lemma tag_carries name children σ el σ' :
  forallb (attr_lowercase σ) (flatten children) = true ->
  tag name children σ = (Normal el, σ') ->
  el = length σ /\
  carries σ (attribute_list σ (flatten children))
            (listener_list (flatten children)) σ'.
Proof.
  intros Hlow Hrun. unfold tag in Hrun.
  destruct (valid_element_local_name name) eqn:Hv.
  - unfold bind at 1 in Hrun. rewrite (createElement_run _ _ Hv) in Hrun.
    unfold bind at 1 in Hrun. rewrite process_flatten in Hrun.
    pose proof (carries_leaves σ (flatten children) [] []
                  (flatten_leaves children) Hlow
                  (σ ++ [NElement (new_element (ascii_lowercase name))])) as H.
    destruct (process (length σ) (flatten children) _) as [[[]|ex] σ1];
      [|discriminate Hrun].
    injection Hrun as <- <-. split; [reflexivity|]. apply H. split.
    + intros r x Hr. apply lookup_app_l_Some. exact Hr.
    + eexists. split; [apply list_lookup_middle; reflexivity|].
      simpl. repeat split; constructor.
  - unfold bind in Hrun. rewrite (createElement_invalid _ _ Hv) in Hrun.
    discriminate Hrun.
Qed.

(** X15.  Whatever else the children hold (text, nodes, a Shadow, at any
    depth), the attributes and the listeners of the element that [tag]
    returns are those of the attribute contributions and of the
    [EventListener]s among the leaves, taken in order: the attribute list
    has one attribute per distinct name in the order of first mention,
    with the contributions to the name joined by single spaces, which is
    what [getAttribute] reads; the listener list is the bindings without
    repetitions.  The [Attr] children are attributes of the store with a
    name in lower case, as [attr] makes them. *)
Theorem tag_carries_contributions name children σ el σ' :
  forallb (attr_lowercase σ) (flatten children) = true ->
  tag name children σ = (Normal el, σ') ->
  attribute_pairs σ' el = attribute_list σ (flatten children) /\
  (forall key,
      get_attribute σ' el key
      = assoc (ascii_lowercase key) (attribute_list σ (flatten children))) /\
  listeners_of σ' el = listener_list (flatten children).
Proof.
  intros Hlow Hrun.
  destruct (tag_carries name children σ el σ' Hlow Hrun)
    as [-> [_ (e & He & Hls & _ & Hall)]].
  split; [|split].
  - unfold attribute_pairs. rewrite He.
    induction Hall as [|r [k c] l attrs [_ [o Hr]] _ IH]; [reflexivity|].
    cbn [omap list_omap]. rewrite Hr. cbn [DOM.name DOM.value fst snd].
    f_equal. exact IH.
  - intros key. unfold get_attribute, find_attribute. rewrite He.
    pose proof (find_carried σ σ' (ascii_lowercase key) _ _ Hall) as Hfind.
    destruct (index_of (ascii_lowercase key) _) as [i|].
    + destruct Hfind as (r & c & Hf & Hi & Hc & Ha). rewrite Hf, Ha.
      pose proof (Forall2_lookup_lr _ _ _ _ _ _ Hall Hi Hc) as [_ [o Hr]].
      cbn [mbind option_bind]. unfold attr_value_at. rewrite Hr. reflexivity.
    + destruct Hfind as [Hf Ha]. rewrite Hf, Ha. reflexivity.
  - unfold listeners_of. rewrite He. exact Hls.
Qed.

Lemma tag_carries_contributions_witness :
  attribute_pairs (tag "div" mixed_children mixed_store).2 2
  = [("class", "a a c d"); ("id", "i")] /\
  get_attribute (tag "div" mixed_children mixed_store).2 2 "CLASS" = Some "a a c d" /\
  listeners_of (tag "div" mixed_children mixed_store).2 2
  = [ {| listener_type := "click"; listener_callback := 7;
         listener_capture := false |} ].
Proof.
  destruct (tag_carries_contributions "div" mixed_children mixed_store 2
              (tag "div" mixed_children mixed_store).2 eq_refl eq_refl)
    as (Hpairs & Hget & Hls).
  split; [exact Hpairs|]. split; [exact (Hget "CLASS") | exact Hls].
Defined.

(** ** tag: the children of the element, whatever the children are *)

Section Nests.
Variable σ0 : Heap.
Local Abbreviation el := (length σ0).

Lemma quiet_set_value v : quiet (set_value v).
Proof. split; [reflexivity|]. intros e. eexists. split; reflexivity. Qed.

Lemma quiet_set_owner o : quiet (set_owner o).
Proof. split; [reflexivity|]. intros e. eexists. split; reflexivity. Qed.

Lemma quiet_set_attributes f : quiet (set_attributes f).
Proof. split; [reflexivity|]. intros e. eexists. split; reflexivity. Qed.

Lemma quiet_add_listener l : quiet (add_listener l).
Proof. split; [reflexivity|]. intros e. eexists. split; reflexivity. Qed.

Lemma quiet_set_shadowRoot r : quiet (set_shadowRoot r).
Proof. split; [reflexivity|]. intros e. eexists. split; reflexivity. Qed.

Lemma quiet_set_sheets l : quiet (set_sheets l).
Proof. split; [reflexivity|]. intros e. eexists. split; reflexivity. Qed.

Lemma nests_transport kids (σ σ' : Heap) :
  (forall r data, σ !! r = Some (NText data) -> σ' !! r = Some (NText data)) ->
  (forall e, σ !! el = Some (NElement e) ->
             exists e', σ' !! el = Some (NElement e') /\ childNodes e' = childNodes e) ->
  nests σ0 kids σ -> nests σ0 kids σ'.
Proof.
  intros Htext Hel (e & He & Hall). destruct (Hel e He) as (e' & He' & Hc).
  exists e'. rewrite Hc. split; [exact He'|].
  eapply Forall2_impl; [exact Hall|].
  intros r [given|data]; simpl; [auto|]. intros [Hlt Hr]. auto.
Qed.

Lemma nests_alter f r kids σ :
  quiet f -> nests σ0 kids σ -> nests σ0 kids (alter f r σ).
Proof.
  intros [Hft Hfe]. apply nests_transport.
  - intros r' data Hr'. destruct (decide (r = r')) as [->|Hne].
    + rewrite list_lookup_alter_eq, Hr'. simpl. rewrite Hft. reflexivity.
    + rewrite list_lookup_alter_ne by exact Hne. exact Hr'.
  - intros e He. destruct (decide (r = el)) as [->|Hne].
    + destruct (Hfe e) as (e' & Hfe' & Hc). exists e'.
      rewrite list_lookup_alter_eq, He. simpl. rewrite Hfe'. auto.
    + exists e. rewrite list_lookup_alter_ne by exact Hne. auto.
Qed.

Lemma nests_alloc n kids (σ : Heap) : nests σ0 kids σ -> nests σ0 kids (σ ++ [n]).
Proof.
  apply nests_transport.
  - intros r data Hr. apply lookup_app_l_Some. exact Hr.
  - intros e He. exists e. split; [apply lookup_app_l_Some; exact He | reflexivity].
Qed.

Lemma nests_push_elsewhere c root kids σ :
  root <> el -> nests σ0 kids σ -> nests σ0 kids (alter (push_child c) root σ).
Proof.
  intros Hne. apply nests_transport.
  - intros r data Hr. destruct (decide (root = r)) as [->|Hne'].
    + rewrite list_lookup_alter_eq, Hr. reflexivity.
    + rewrite list_lookup_alter_ne by exact Hne'. exact Hr.
  - intros e He. exists e. rewrite list_lookup_alter_ne by exact Hne. auto.
Qed.

Lemma nests_bound kids (σ : Heap) e :
  σ !! el = Some (NElement e) -> Forall2 (kid_at σ0 σ) (childNodes e) kids ->
  Forall (fun r => r < length σ) (childNodes e).
Proof.
  intros He Hall. pose proof (lookup_lt_Some _ _ _ He) as Hel.
  induction Hall as [|r k l kids Hk _ IH]; constructor; [|exact IH].
  destruct k as [given|data]; simpl in Hk.
  - destruct Hk as [-> Hlt]. lia.
  - destruct Hk as [_ Hr]. apply lookup_lt_Some in Hr. exact Hr.
Qed.

Lemma nests_detach_given c kids (σ : Heap) :
  c < el -> nests σ0 kids σ ->
  nests σ0 (filter (fun k => k <> inl c) kids) (detach c <$> σ).
Proof.
  intros Hc (e & He & Hall). eexists. split.
  - rewrite list_lookup_fmap, He. reflexivity.
  - cbn [childNodes]. unfold without.
    induction Hall as [|r k l kids Hk _ IH]; [constructor|].
    destruct k as [given|data]; simpl in Hk.
    + destruct Hk as [-> Hlt]. destruct (decide (given = c)) as [->|Hne].
      * rewrite filter_cons_False by auto.
        rewrite (filter_cons_False (fun k : Kid => k <> inl c)) by auto. exact IH.
      * rewrite filter_cons_True by exact Hne.
        rewrite (filter_cons_True (fun k : Kid => k <> inl c)) by congruence.
        constructor; [simpl; auto | exact IH].
    + destruct Hk as [Hlt Hr].
      rewrite filter_cons_True by lia.
      rewrite (filter_cons_True (fun k : Kid => k <> inl c)) by discriminate.
      constructor; [|exact IH]. simpl. split; [exact Hlt|].
      rewrite list_lookup_fmap, Hr. reflexivity.
Qed.

Lemma nests_push_given c kids (σ : Heap) :
  c < el -> nests σ0 kids σ ->
  nests σ0 (kids ++ [inl c]) (alter (push_child c) el σ).
Proof.
  intros Hc (e & He & Hall). eexists. split.
  - rewrite list_lookup_alter_eq, He. reflexivity.
  - cbn [childNodes]. apply Forall2_app.
    + eapply Forall2_impl; [exact Hall|].
      intros r [given|data]; simpl; [auto|]. intros [Hlt Hr].
      split; [exact Hlt|]. rewrite list_lookup_alter_ne by lia. exact Hr.
    + constructor; [|constructor]. simpl. auto.
Qed.

Lemma nests_append_text data kids (σ : Heap) :
  nests σ0 kids σ ->
  nests σ0 (kids ++ [inr data])
        (alter (push_child (length σ)) el (detach (length σ) <$> (σ ++ [NText data]))).
Proof.
  intros (e & He & Hall). pose proof (lookup_lt_Some _ _ _ He) as Hel.
  pose proof (nests_bound _ _ _ He Hall) as Hbound.
  eexists. split.
  - rewrite list_lookup_alter_eq, list_lookup_fmap, lookup_app_l, He by exact Hel.
    reflexivity.
  - cbn [childNodes]. rewrite (without_absent _ _ Hbound). apply Forall2_app.
    + eapply Forall2_impl; [exact Hall|].
      intros r [given|d]; simpl; [auto|]. intros [Hlt Hr].
      split; [exact Hlt|]. pose proof (lookup_lt_Some _ _ _ Hr).
      rewrite list_lookup_alter_ne, list_lookup_fmap, lookup_app_l, Hr by lia.
      reflexivity.
    + constructor; [|constructor]. simpl. split; [exact Hel|].
      rewrite list_lookup_alter_ne, list_lookup_fmap, list_lookup_middle by lia.
      reflexivity.
Qed.

Lemma nests_setAttribute qn v kids :
  hoare (fun _ => True) (nests σ0 kids) (setAttribute el qn v) (fun _ => nests σ0 kids).
Proof.
  intros σ H. unfold setAttribute.
  destruct (valid_attribute_local_name qn); [|exact I]. msimpl.
  destruct (find_attribute σ el (ascii_lowercase qn)).
  - apply nests_alter; [apply quiet_set_value | exact H].
  - apply nests_alter; [apply quiet_set_attributes|]. apply nests_alloc. exact H.
Qed.

Lemma nests_contribute key v kids :
  hoare (fun _ => True) (nests σ0 kids)
        (has <- hasAttribute el key ;;
         if has then
           currentValue <- getAttribute el key ;;
           setAttribute el key (concat_value currentValue v)
         else setAttribute el key v)
        (fun _ => nests σ0 kids).
Proof.
  intros σ H. msimpl. destruct (has_attribute σ el key); apply nests_setAttribute, H.
Qed.

Lemma nests_handleAttributeObject o kids :
  hoare (fun _ => True) (nests σ0 kids) (handleAttributeObject el o)
        (fun _ => nests σ0 kids).
Proof.
  induction o as [|[key v] o IH].
  - apply hoare_ret. auto.
  - change (handleAttributeObject el ((key, v) :: o))
      with ((has <- hasAttribute el key ;;
             if has then
               currentValue <- getAttribute el key ;;
               setAttribute el key (concat_value currentValue (newValue_of v))
             else setAttribute el key (newValue_of v)) ;;;
            handleAttributeObject el o).
    eapply hoare_bind; [apply nests_contribute | intros []; exact IH].
Qed.

Lemma nests_handleAttributeNode r kids :
  hoare (fun _ => True) (nests σ0 kids) (handleAttributeNode el r)
        (fun _ => nests σ0 kids).
Proof.
  intros σ H. unfold handleAttributeNode. msimpl.
  destruct (σ !! r) as [[| |x|]|] eqn:Hx; try exact I. msimpl.
  destruct (has_attribute σ el (name x)).
  - apply nests_setAttribute, H.
  - msimpl. rewrite Hx. msimpl. unfold setAttributeNode. msimpl.
    rewrite list_lookup_middle by reflexivity. msimpl. cbn [ownerElement name].
    rewrite bool_decide_eq_true_2 by auto.
    pose proof (nests_alloc (NAttr {| name := name x; value := value x;
                                      ownerElement := None |}) _ _ H) as H1.
    destruct (find_attribute _ el (name x)) as [old|].
    + destruct (decide (old = length σ)); [exact H1|]. msimpl.
      repeat (apply nests_alter;
              [first [apply quiet_set_owner | apply quiet_set_attributes]|]).
      exact H1.
    + msimpl.
      repeat (apply nests_alter;
              [first [apply quiet_set_owner | apply quiet_set_attributes]|]).
      exact H1.
Qed.

Lemma nests_appendText v kids :
  falls_to_text v = true ->
  hoare (fun _ => True) (nests σ0 kids) (appendText el v) (fun _ => nests σ0 (nest kids v)).
Proof.
  intros Hv σ H.
  assert (Hnest : nest kids v = match ToString v with
                                | Some data => kids ++ [inr data]
                                | None => kids
                                end).
  { destruct v; try discriminate Hv; unfold nest; rewrite ?Hv; reflexivity. }
  rewrite Hnest. unfold appendText. destruct (ToString v) as [data|]; [|exact I].
  msimpl. unfold appendChild. msimpl. apply nests_append_text. exact H.
Qed.

Lemma nests_shadow sh kids :
  forallb (fun c => bool_decide (c < el)) (children sh) = true ->
  hoare (fun _ => True) (nests σ0 kids) (process_child el (VShadow sh))
        (fun _ => nests σ0 (nest kids (VShadow sh))).
Proof.
  intros Hin. cbn [process_child nest].
  eapply hoare_bind with (Q := fun root σ => el < root /\ nests σ0 kids σ).
  - intros σ H. unfold attachShadow. msimpl.
    destruct (σ !! el) as [[e| | | ]|] eqn:He; try exact I.
    destruct (valid_shadow_host_name (localName e)); [|exact I].
    destruct (shadowRoot e); [exact I|]. msimpl.
    split; [apply lookup_lt_Some in He; exact He|].
    apply nests_alter; [apply quiet_set_shadowRoot|]. apply nests_alloc. exact H.
  - intros root.
    eapply hoare_bind with (Q := fun _ σ => el < root /\ nests σ0 kids σ).
    + intros σ [Hroot H]. unfold set_adoptedStyleSheets. msimpl.
      destruct (forallb constructed (sheets sh)); [|exact I].
      split; [exact Hroot|]. apply nests_alter; [apply quiet_set_sheets | exact H].
    + intros []. revert kids. induction (children sh) as [|c l IH]; intros kids.
      * apply hoare_ret. intros σ [_ H]. exact H.
      * simpl in Hin. apply andb_true_iff in Hin as [Hc Hl].
        apply bool_decide_eq_true in Hc.
        simpl for_each. cbn [foldl].
        eapply hoare_bind
          with (Q := fun _ σ => el < root /\
                                nests σ0 (filter (fun k => k <> inl c) kids) σ).
        -- intros σ [Hroot H]. unfold appendChild. msimpl.
           split; [exact Hroot|]. apply nests_push_elsewhere; [lia|].
           apply nests_detach_given; assumption.
        -- intros []. apply IH. exact Hl.
Qed.

Lemma nests_leaf v kids :
  is_array v = false -> nodes_in σ0 v = true ->
  hoare (fun _ => True) (nests σ0 kids) (process_child el v)
        (fun _ => nests σ0 (nest kids v)).
Proof.
  intros Hleaf Hin.
  assert (Hnode : forall r, bool_decide (r < el) = true ->
            hoare (fun _ => True) (nests σ0 kids) (appendChild el r ;;; ret tt)
                  (fun _ => nests σ0 (filter (fun k => k <> inl r) kids ++ [inl r]))).
  { intros r Hr σ H. apply bool_decide_eq_true in Hr. unfold appendChild. msimpl.
    apply nests_push_given; [exact Hr|]. apply nests_detach_given; assumption. }
  destruct v; try discriminate Hleaf;
    try (apply nests_appendText; reflexivity);
    try (apply hoare_ret; auto; fail).
  - apply Hnode, Hin.
  - apply Hnode, Hin.
  - apply nests_handleAttributeNode.
  - intros σ H. simpl. apply nests_alter; [apply quiet_add_listener | exact H].
  - apply nests_shadow, Hin.
  - cbn [process_child]. destruct (has_key "constructor" _) eqn:Hc.
    + apply nests_appendText. exact Hc.
    + unfold nest. cbn [falls_to_text]. rewrite Hc. apply nests_handleAttributeObject.
Qed.

Lemma nests_leaves l : forall kids,
  Forall (fun v => is_array v = false) l ->
  forallb (nodes_in σ0) l = true ->
  hoare (fun _ => True) (nests σ0 kids) (process el l)
        (fun _ => nests σ0 (foldl nest kids l)).
Proof.
  induction l as [|v l IH]; intros kids Hleaves Hin.
  - apply hoare_ret. auto.
  - inversion Hleaves as [|? ? Hv Hl]; subst.
    simpl in Hin. apply andb_true_iff in Hin as [Hiv Hil].
    change (process el (v :: l)) with (process_child el v ;;; process el l).
    eapply hoare_bind.
    + apply (nests_leaf v kids Hv Hiv).
    + intros []. apply IH; assumption.
Qed.

End Nests.

(** X16.  Whatever the children are, the child list of the element that
    [tag] returns is made of the nodes and of the text among the leaves,
    in the order of the arguments: a node that was given stands at the
    place of its last mention, a value that falls to text stands as a new
    text node with its string, attributes and listeners leave no child,
    and a node that is also given to a [Shadow] later in the list has
    left the element for the shadow root.  The nodes given are nodes of
    the store. *)
Theorem tag_children_in_order name children σ el σ' :
  forallb (nodes_in σ) (flatten children) = true ->
  tag name children σ = (Normal el, σ') ->
  child_view (length σ) σ' el = child_list (flatten children).
Proof.
  intros Hin Hrun. unfold tag in Hrun.
  destruct (valid_element_local_name name) eqn:Hv.
  - unfold bind at 1 in Hrun. rewrite (createElement_run _ _ Hv) in Hrun.
    unfold bind at 1 in Hrun. rewrite process_flatten in Hrun.
    pose proof (nests_leaves σ (flatten children) []
                  (flatten_leaves children) Hin
                  (σ ++ [NElement (new_element (ascii_lowercase name))])) as H.
    destruct (process (length σ) (flatten children) _) as [[[]|ex] σ1];
      [|discriminate Hrun].
    injection Hrun as <- <-.
    destruct H as (e & He & Hall).
    { eexists. split; [apply list_lookup_middle; reflexivity|]. constructor. }
    unfold child_view, children_of, child_list. rewrite He.
    induction Hall as [|r k l kids Hk _ IH]; [reflexivity|].
    rewrite fmap_cons, IH. f_equal.
    destruct k as [given|data]; simpl in Hk.
    + destruct Hk as [-> Hlt]. rewrite decide_True by exact Hlt. reflexivity.
    + destruct Hk as [Hlt Hr]. rewrite decide_False by lia. rewrite Hr. reflexivity.
  - unfold bind in Hrun. rewrite (createElement_invalid _ _ Hv) in Hrun.
    discriminate Hrun.
Qed.

Lemma tag_children_in_order_witness :
  child_view 2
    (tag "p" [ VString "Hello "; VElement 1; VObject [("class", One "a")];
               VArray [VString "!"; VElement 1]; VOther (Some "3") ]
         mixed_store).2 2
  = [inr "Hello "; inr "!"; inl 1; inr "3"].
Proof.
  exact (tag_children_in_order "p"
           [ VString "Hello "; VElement 1; VObject [("class", One "a")];
             VArray [VString "!"; VElement 1]; VOther (Some "3") ]
           mixed_store 2 _ eq_refl eq_refl).
Defined.

(** ** shadow and tag together *)

(** X17.  [tag(name, shadow(...children))] on a name that may host a
    shadow root, with constructed sheets and text leaves that have a
    string conversion, from any store: the call returns a new element of
    that name with an open shadow root whose adopted sheets are the style
    sheets among the leaves, in order, and whose children are the nodes
    and the new text nodes of the leaves, in order (a node given twice
    standing once, at its last place). *)
Theorem tag_of_shadow name children σ :
  valid_element_local_name name = true ->
  valid_shadow_host_name (ascii_lowercase name) = true ->
  Forall (fun v => shadow_text v = true -> is_Some (ToString v)) (flatten children) ->
  forallb constructed (omap sheet_of (flatten children)) = true ->
  exists el root σ',
    (sh <- shadow children ;; tag name [VShadow sh]) σ = (Normal el, σ') /\
    localName_of σ' el = Some (ascii_lowercase name) /\
    shadow_slot σ' el = Some root /\
    σ' !! root
    = Some (NShadowRoot
              {| host := el; mode := open;
                 adoptedStyleSheets := omap sheet_of (flatten children);
                 rootChildNodes :=
                   remove_dups (shadow_nodes (length σ) (flatten children)) |}).
Proof.
  intros Hv Hhost Hconv Hsheets.
  set (σ1 := σ ++ (NText <$> shadow_texts (flatten children))).
  set (sh := {| children := shadow_nodes (length σ) (flatten children);
                sheets := omap sheet_of (flatten children) |}).
  assert (Hshadow : shadow children σ = (Normal sh, σ1)).
  { unfold shadow, bind. rewrite shadow_fold_flatten.
    rewrite (shadow_leaves_run _ _ _ (flatten_leaves children) Hconv). reflexivity. }
  set (σ2 := σ1 ++ [NElement (new_element (ascii_lowercase name))]).
  assert (He : σ2 !! length σ1 = Some (NElement (new_element (ascii_lowercase name))))
    by (apply list_lookup_middle; reflexivity).
  destruct (process_child_shadow σ2 (length σ1) _ sh He Hhost eq_refl Hsheets)
    as (σ' & Hrun & _ & Hslot & Hroot & Hnames).
  exists (length σ1), (length σ2), σ'.
  split; [|split; [|split; [exact Hslot | exact Hroot]]].
  - unfold bind at 1. rewrite Hshadow. apply (tag_run name); [exact Hv|].
    apply (process_cons_run _ _ [] _ _ Hrun).
  - destruct (Hnames (length σ1)) as [<-|Hnone];
      unfold localName_of in *; rewrite He in *; [reflexivity | discriminate].
Qed.

Lemma tag_of_shadow_witness :
  exists el root σ',
    (sh <- shadow [VStyleSheet sample_sheet; VElement 1; VString "s"; VElement 1] ;;
     tag "div" [VShadow sh]) mixed_store = (Normal el, σ') /\
    localName_of σ' el = Some "div" /\
    shadow_slot σ' el = Some root /\
    σ' !! root
    = Some (NShadowRoot {| host := el; mode := open;
                           adoptedStyleSheets := [sample_sheet];
                           rootChildNodes := [2; 1] |}).
Proof.
  apply (tag_of_shadow "div"
           [VStyleSheet sample_sheet; VElement 1; VString "s"; VElement 1]
           mixed_store eq_refl eq_refl).
  - repeat constructor; try discriminate; intros _; eexists; reflexivity.
  - reflexivity.
Defined.

(** * Attribute contributions and the case of the name *)

(** ** An Attr whose name is not in lower case *)

(** C1.  An attribute contribution is to set the attribute when the
    element has none of that name and to add to its value otherwise.  For
    an [Attr] whose name has an upper-case letter the code does not do
    that: [hasAttribute] looks for the name in lower case and misses the
    attribute that the first contribution attached under the name as it
    is, so the second contribution goes to [setAttributeNode], which
    matches the name exactly and replaces the attribute.  [tag] with such
    an [Attr] given twice returns an element whose attribute has the
    value given once, not the value, one space, and the value; the same
    name and value given twice in attribute objects accumulate. *)
Theorem mixed_case_attr_is_overwritten name r x σ :
  valid_element_local_name name = true ->
  σ !! r = Some (NAttr x) ->
  ascii_lowercase (DOM.name x) <> DOM.name x ->
  tag name [VAttr r] σ
  = (Normal (length σ),
     σ ++ [ NElement {| localName := ascii_lowercase name;
                        attributes := [S (length σ)]; childNodes := [];
                        eventListeners := []; shadowRoot := None |};
            NAttr {| DOM.name := DOM.name x; value := value x;
                     ownerElement := Some (length σ) |} ]) /\
  tag name [VAttr r; VAttr r] σ
  = (Normal (length σ),
     σ ++ [ NElement {| localName := ascii_lowercase name;
                        attributes := [S (S (length σ))]; childNodes := [];
                        eventListeners := []; shadowRoot := None |};
            NAttr {| DOM.name := DOM.name x; value := value x; ownerElement := None |};
            NAttr {| DOM.name := DOM.name x; value := value x;
                     ownerElement := Some (length σ) |} ]) /\
  attribute_pairs (tag name [VAttr r; VAttr r] σ).2 (length σ)
  = [(DOM.name x, value x)] /\
  value x <> merged (Some (value x)) (value x) /\
  (valid_attribute_local_name (DOM.name x) = true ->
   tag name [ VObject [(DOM.name x, One (value x))];
              VObject [(DOM.name x, One (value x))] ] σ
   = (Normal (length σ),
      built σ (ascii_lowercase name)
        [(ascii_lowercase (DOM.name x), merged (Some (value x)) (value x))])).
Proof.
  intros Hv Hx Hne. pose proof (lookup_lt_Some _ _ _ Hx) as Hr.
  set (σa := σ ++ [NElement (new_element (ascii_lowercase name))]).
  set (e1 := {| localName := ascii_lowercase name; attributes := [S (length σ)];
                childNodes := []; eventListeners := []; shadowRoot := None |}).
  set (a1 := {| DOM.name := DOM.name x; value := value x;
                ownerElement := Some (length σ) |}).
  assert (Hfirst : process_child (length σ) (VAttr r) σa
                   = (Normal tt, σ ++ [NElement e1; NAttr a1])).
  { cbn [process_child].
    rewrite (handleAttributeNode_fresh σa (length σ) (new_element (ascii_lowercase name)) r x).
    - unfold σa. rewrite alter_snoc, length_app, Nat.add_1_r, <- app_assoc.
      cbn [length app set_owner]. rewrite alter_at_length. reflexivity.
    - apply list_lookup_middle. reflexivity.
    - reflexivity.
    - apply lookup_app_l_Some. exact Hx. }
  assert (Hsecond : process_child (length σ) (VAttr r) (σ ++ [NElement e1; NAttr a1])
                    = (Normal tt,
                       σ ++ [ NElement {| localName := ascii_lowercase name;
                                          attributes := [S (S (length σ))];
                                          childNodes := []; eventListeners := [];
                                          shadowRoot := None |};
                              NAttr {| DOM.name := DOM.name x; value := value x;
                                       ownerElement := None |};
                              NAttr a1 ])).
  { assert (Hel : (σ ++ [NElement e1; NAttr a1]) !! length σ = Some (NElement e1))
      by (apply list_lookup_middle; reflexivity).
    assert (Hat : forall n : Node,
              ((σ ++ [NElement e1; NAttr a1]) ++ [n]) !! S (length σ) = Some (NAttr a1)).
    { intros n. rewrite <- app_assoc. rewrite lookup_app_r by lia.
      replace (S (length σ) - length σ) with 1 by lia. reflexivity. }
    assert (Hsrc : forall l, (σ ++ l) !! r = Some (NAttr x))
      by (intros l; apply lookup_app_l_Some; exact Hx).
    assert (Hhas : has_attribute (σ ++ [NElement e1; NAttr a1]) (length σ) (DOM.name x)
                   = false).
    { apply bool_decide_eq_false_2. unfold find_attribute. rewrite Hel.
      cbn [attributes e1 List.find]. unfold attr_named.
      rewrite lookup_app_r by lia.
      replace (S (length σ) - length σ) with 1 by lia. cbn [lookup list_lookup a1 DOM.name].
      rewrite (proj2 (String.eqb_neq _ _)) by congruence.
      intros [? H]. discriminate H. }
    assert (Hfind : forall n : Node,
              find_attribute ((σ ++ [NElement e1; NAttr a1]) ++ [n]) (length σ)
                             (DOM.name x) = Some (S (length σ))).
    { intros n. unfold find_attribute.
      rewrite (lookup_app_l_Some _ [n] _ _ Hel).
      cbn [attributes e1 List.find]. unfold attr_named. rewrite Hat.
      cbn [a1 DOM.name]. rewrite String.eqb_refl. reflexivity. }
    cbn [process_child]. unfold handleAttributeNode. msimpl.
    rewrite Hsrc. msimpl. rewrite Hhas. msimpl. rewrite Hsrc. msimpl.
    unfold setAttributeNode. msimpl. rewrite list_lookup_middle by reflexivity.
    msimpl. cbn [ownerElement DOM.name value].
    rewrite bool_decide_eq_true_2 by auto. rewrite Hfind.
    rewrite length_app. cbn [length]. replace (length σ + 2) with (S (S (length σ))) by lia.
    rewrite decide_False by lia. msimpl.
    rewrite <- app_assoc. cbn [app].
    rewrite alter_after_length, alter_second_after_length, alter_at_length.
    cbn [set_owner set_attributes a1 e1 replace_ref fmap list_fmap DOM.name value
         attributes localName childNodes eventListeners shadowRoot].
    rewrite decide_True by reflexivity. reflexivity. }
  assert (Htwice : tag name [VAttr r; VAttr r] σ
                   = (Normal (length σ),
                      σ ++ [ NElement {| localName := ascii_lowercase name;
                                         attributes := [S (S (length σ))];
                                         childNodes := []; eventListeners := [];
                                         shadowRoot := None |};
                             NAttr {| DOM.name := DOM.name x; value := value x;
                                      ownerElement := None |};
                             NAttr a1 ])).
  { apply (tag_run name); [exact Hv|]. fold σa.
    rewrite (process_cons_run _ _ _ _ _ Hfirst).
    apply (process_cons_run _ _ [] _ _ Hsecond). }
  split; [|split; [exact Htwice|split; [|split]]].
  - apply (tag_run name); [exact Hv|]. fold σa.
    apply (process_cons_run _ _ [] _ _ Hfirst).
  - rewrite Htwice. unfold attribute_pairs. cbn [snd].
    rewrite list_lookup_middle by reflexivity. cbn [attributes omap list_omap].
    rewrite lookup_app_r by lia.
    replace (S (S (length σ)) - length σ) with 2 by lia. reflexivity.
  - unfold merged. intros Heq. apply (f_equal String.length) in Heq.
    rewrite !length_string_app in Heq. simpl in Heq. lia.
  - intros Hkey.
    assert (Hc : has_key "constructor" [(DOM.name x, One (value x))] = false).
    { unfold has_key. cbn [fmap list_fmap fst existsb]. rewrite orb_false_r.
      apply String.eqb_neq.
      intros Heq. apply Hne. rewrite <- Heq. reflexivity. }
    apply (tag_run name); [exact Hv|].
    change (σ ++ [NElement (new_element (ascii_lowercase name))])
      with (built σ (ascii_lowercase name) []).
    rewrite (process_attr_sources σ (ascii_lowercase name) _ []).
    + cbn [mbind list_bind app contribution]. rewrite Hc.
      cbn [entries fmap list_fmap app foldl contribute upsert fst snd newValue_of].
      rewrite String.eqb_refl. reflexivity.
    + cbn [forallb attr_source]. rewrite Hc. cbn [forallb fst negb andb].
      rewrite Hkey. reflexivity.
Qed.

Lemma mixed_case_attr_is_overwritten_witness :
  tag "div" [VAttr 0; VAttr 0]
      [NAttr {| name := "Foo"; value := "a"; ownerElement := None |}]
  = (Normal 1,
     [ NAttr {| name := "Foo"; value := "a"; ownerElement := None |};
       NElement {| localName := "div"; attributes := [3]; childNodes := [];
                   eventListeners := []; shadowRoot := None |};
       NAttr {| name := "Foo"; value := "a"; ownerElement := None |};
       NAttr {| name := "Foo"; value := "a"; ownerElement := Some 1 |} ]) /\
  attribute_pairs
    (tag "div" [VAttr 0; VAttr 0]
         [NAttr {| name := "Foo"; value := "a"; ownerElement := None |}]).2 1
  = [("Foo", "a")] /\
  "a" <> merged (Some "a") "a" /\
  tag "div" [VObject [("Foo", One "a")]; VObject [("Foo", One "a")]]
      [NAttr {| name := "Foo"; value := "a"; ownerElement := None |}]
  = (Normal 1,
     [ NAttr {| name := "Foo"; value := "a"; ownerElement := None |};
       NElement {| localName := "div"; attributes := [2]; childNodes := [];
                   eventListeners := []; shadowRoot := None |};
       NAttr {| name := "foo"; value := "a a"; ownerElement := Some 1 |} ]).
Proof.
  destruct (mixed_case_attr_is_overwritten "div" 0
              {| name := "Foo"; value := "a"; ownerElement := None |}
              [NAttr {| name := "Foo"; value := "a"; ownerElement := None |}]
              eq_refl eq_refl)
    as (_ & Htwice & Hpairs & Hne & Hbag).
  - apply (bool_decide_unpack (ascii_lowercase "Foo" <> "Foo")). vm_compute. reflexivity.
  - split; [exact Htwice|]. split; [exact Hpairs|]. split; [exact Hne|].
    exact (Hbag eq_refl).
Defined.

(** ** Attribute contributions that accumulate *)

(** X18.  Where the attribute contributions accumulate, on any element
    of any store: an entry of an attribute object with a valid key, an
    [Attr] that [attr(key, value)] makes, and any [Attr] of the store with
    a valid name in lower case set the attribute to the supplied value
    when the element has no attribute of that name, and otherwise to the
    existing value, one space, and the new value ([merged]);
    [hasAttribute] is false exactly when [getAttribute] gives [null]; the
    same object [{class: "a"}] merged twice gives "a a". *)
Theorem attribute_merge_accumulates σ el e :
  σ !! el = Some (NElement e) ->
  (forall qn, has_attribute σ el qn = false <-> get_attribute σ el qn = None) /\
  (forall r x,
      σ !! r = Some (NAttr x) ->
      ascii_lowercase (name x) = name x ->
      valid_attribute_local_name (name x) = true ->
      exists σ', handleAttributeNode el r σ = (Normal tt, σ') /\
                 get_attribute σ' el (name x)
                 = Some (merged (get_attribute σ el (name x)) (value x))) /\
  (forall key v,
      valid_attribute_local_name key = true ->
      exists a σ1 σ',
        attr key v σ = (Normal a, σ1) /\
        handleAttributeNode el a σ1 = (Normal tt, σ') /\
        get_attribute σ' el key = Some (merged (get_attribute σ1 el key) v)) /\
  (forall key v,
      valid_attribute_local_name key = true ->
      exists σ', handleAttributeObject el [(key, v)] σ = (Normal tt, σ') /\
                 get_attribute σ' el key
                 = Some (merged (get_attribute σ el key) (newValue_of v))) /\
  (get_attribute σ el "class" = None ->
   exists σ1 σ2,
     handleAttributeObject el [("class", One "a")] σ = (Normal tt, σ1) /\
     handleAttributeObject el [("class", One "a")] σ1 = (Normal tt, σ2) /\
     get_attribute σ1 el "class" = Some "a" /\
     get_attribute σ2 el "class" = Some "a a").
Proof.
  intros He. split; [|split; [|split; [|split]]].
  - intros qn. split; intros H.
    + apply has_attribute_false in H as [_ H]. exact H.
    + destruct (has_attribute σ el qn) eqn:Hhas; [|reflexivity].
      apply has_attribute_true in Hhas as (r & cur & _ & Hget). congruence.
  - intros r x Hx Hlow Hv.
    destruct (handleAttributeNode_merge σ el e r x He Hx Hlow Hv) as (σ' & Hrun & Hget & _).
    eauto.
  - intros key v Hv.
    set (x := {| name := ascii_lowercase key; value := v; ownerElement := None |}).
    destruct (handleAttributeNode_merge (σ ++ [NAttr x]) el e (length σ) x)
      as (σ' & Hrun & Hget & _).
    + apply lookup_app_l_Some. exact He.
    + apply list_lookup_middle. reflexivity.
    + apply ascii_lowercase_idempotent.
    + simpl. rewrite valid_attribute_lowercase. exact Hv.
    + exists (length σ), (σ ++ [NAttr x]), σ'.
      split; [apply attr_makes; exact Hv|]. split; [exact Hrun|].
      simpl in Hget. rewrite !get_attribute_lowercase in Hget. exact Hget.
  - intros key v Hv.
    destruct (handleAttributeObject_entry σ el e key v He Hv) as (σ' & Hrun & Hget & _).
    eauto.
  - intros Hnone.
    destruct (handleAttributeObject_entry σ el e "class" (One "a") He eq_refl)
      as (σ1 & Hrun1 & Hget1 & e1 & He1 & _).
    destruct (handleAttributeObject_entry σ1 el e1 "class" (One "a") He1 eq_refl)
      as (σ2 & Hrun2 & Hget2 & _).
    exists σ1, σ2. rewrite Hnone in Hget1. rewrite Hget1 in Hget2. auto.
Qed.

Lemma attribute_merge_accumulates_witness :
  (exists σ', handleAttributeNode 0 1 [NElement (new_element "div"); sample_attr]
              = (Normal tt, σ') /\
              get_attribute σ' 0 "class" = Some "a") /\
  (exists a σ1 σ',
      attr "Title" "t" [NElement (new_element "div"); sample_attr] = (Normal a, σ1) /\
      handleAttributeNode 0 a σ1 = (Normal tt, σ') /\
      get_attribute σ' 0 "Title" = Some "t") /\
  (exists σ', handleAttributeObject 0 [("class", Many ["b"; "c"])]
                [NElement (new_element "div"); sample_attr] = (Normal tt, σ') /\
              get_attribute σ' 0 "class" = Some "b c") /\
  (exists σ1 σ2,
      handleAttributeObject 0 [("class", One "a")]
        [NElement (new_element "div"); sample_attr] = (Normal tt, σ1) /\
      handleAttributeObject 0 [("class", One "a")] σ1 = (Normal tt, σ2) /\
      get_attribute σ1 0 "class" = Some "a" /\
      get_attribute σ2 0 "class" = Some "a a").
Proof.
  destruct (attribute_merge_accumulates [NElement (new_element "div"); sample_attr]
              0 _ eq_refl) as (_ & HAttr & Hmade & Hentry & Htwice).
  split; [|split; [|split]].
  - exact (HAttr 1 _ eq_refl eq_refl eq_refl).
  - destruct (Hmade "Title" "t" eq_refl) as (a & σ1 & σ' & Hattr & Hrun & Hget).
    exists a, σ1, σ'. split; [exact Hattr|]. split; [exact Hrun|].
    injection Hattr as <- <-. exact Hget.
  - exact (Hentry "class" (Many ["b"; "c"]) eq_refl).
  - exact (Htwice eq_refl).
Defined.
